(** * GPJax RKHS reductions and lazy RKHS vectors

    A shallow embedding of [gpjax/rkhs/reduce/repetitions.py] and
    [gpjax/rkhs/vector.py].

    Conventions of the embedding:
    - Python [int]s are [Z]; lengths and shapes of arrays are [nat].
    - Array entries are exact rationals ([Qc], rationals in lowest terms,
      so that equality of arrays is plain [=]); rounding is not modelled.
    - A call that raises returns [Raise e]; a call that returns [v]
      returns [Ok v]. *)

From Stdlib Require Import String.
From Stdlib Require Import List ZArith QArith Qcanon Lia Bool Arith.
From Stdlib Require Import Sorting.Sorted Sorting.Permutation.
Import ListNotations.

Set Implicit Arguments.
Open Scope nat_scope.

(** ** Python results *)

Module Py.

Inductive exn : Type :=
| ValueError (msg : string)
| TypeError (msg : string)
| ZeroDivisionError
| AssertionError (msg : string)
| IndexError.

Inductive result (A : Type) : Type :=
| Ok (v : A)
| Raise (e : exn).

Arguments ValueError msg%_string.
Arguments TypeError msg%_string.
Arguments AssertionError msg%_string.
Arguments Ok {A} v.
Arguments Raise {A} e.

Definition bind {A B : Type} (m : result A) (f : A -> result B) : result B :=
  match m with
  | Ok v => f v
  | Raise e => Raise e
  end.

Definition is_ok {A : Type} (m : result A) : bool :=
  match m with Ok _ => true | Raise _ => false end.

(** [for x in l: acc.append(f x)], stopping at the first exception. *)
Fixpoint mapM {A B : Type} (f : A -> result B) (l : list A) : result (list B) :=
  match l with
  | [] => Ok []
  | x :: l' =>
      bind (f x) (fun y => bind (mapM f l') (fun ys => Ok (y :: ys)))
  end.

End Py.

Import Py.

Declare Scope py_scope.
Delimit Scope py_scope with py.
Notation "x <- m ;; k" := (Py.bind m (fun x => k))
  (at level 61, m at next level, right associativity) : py_scope.
Open Scope py_scope.

(** ** Two-dimensional arrays *)

Module Np.

(** A 2-d array: its rows, and the length of axis 1 (kept apart from the
    rows because an array with no row still has a column count). *)
Record array2 (A : Type) : Type := mk2 { arows : list (list A); acols : nat }.

Arguments mk2 {A} arows acols.

Section Generic.
Context {A : Type}.

(** Every row has [acols] entries; true of every array numpy builds. *)
Definition wf (a : array2 A) : Prop :=
  Forall (fun r => length r = acols a) (arows a).

Definition shape0 (a : array2 A) : nat := length (arows a).
Definition shape1 (a : array2 A) : nat := acols a.
Definition shape (a : array2 A) : nat * nat := (shape0 a, shape1 a).
Definition len (a : array2 A) : nat := shape0 a.
Definition size (a : array2 A) : nat := shape0 a * shape1 a.

(** [a.ravel()] and [a.flatten()]: the entries in row-major order. *)
Definition ravel (a : array2 A) : list A := concat (arows a).

(** Row-major reading of [r] rows of [c] entries out of a flat buffer. *)
Definition chunks (r c : nat) (l : list A) : list (list A) :=
  map (fun i => firstn c (skipn (i * c) l)) (seq 0 r).

(** [np.broadcast_to(v, (reps, n))] for a 1-d [v]; jax refuses a negative
    dimension with a [TypeError]. *)
Definition broadcast_to (v : list A) (reps : Z) (n : nat) : result (array2 A) :=
  if (reps <? 0)%Z then Raise (TypeError "negative dimensions are not allowed")
  else if Nat.eqb (length v) n then Ok (mk2 (repeat v (Z.to_nat reps)) n)
  else Raise (ValueError "operands could not be broadcast together").

(** [a.reshape((r, c))]. *)
Definition reshape (a : array2 A) (r : Z) (c : nat) : result (array2 A) :=
  if (r <? 0)%Z then Raise (ValueError "negative dimensions are not allowed")
  else if Nat.eqb (size a) (Z.to_nat r * c)
  then Ok (mk2 (chunks (Z.to_nat r) c (ravel a)) c)
  else Raise (TypeError "cannot reshape array").

(** [np.repeat(a, times, 0)]: every row is repeated [times] times in
    place, before the next row comes. *)
Definition repeat0 (a : array2 A) (times : Z) : result (array2 A) :=
  if (times <? 0)%Z then Raise (ValueError "repeats may not contain negative values")
  else Ok (mk2 (flat_map (fun r => repeat r (Z.to_nat times)) (arows a)) (acols a)).

(** [np.concatenate(l, 0)]. *)
Definition concatenate0 (l : list (array2 A)) : result (array2 A) :=
  match l with
  | [] => Raise (ValueError "need at least one array to concatenate")
  | a :: l' =>
      if forallb (fun b => Nat.eqb (acols b) (acols a)) l'
      then Ok (mk2 (concat (map (@arows A) l)) (acols a))
      else Raise (TypeError "cannot concatenate arrays with different shapes")
  end.

(** [a.T]. *)
Definition transpose (d : A) (a : array2 A) : array2 A :=
  mk2 (map (fun j => map (fun r => nth j r d) (arows a)) (seq 0 (acols a)))
      (shape0 a).

End Generic.

(** [inp_shape[axis]] for a shape of two entries. *)
Definition shape_at (inp_shape : nat * nat) (axis : nat) : result nat :=
  match axis with
  | O => Ok (fst inp_shape)
  | S O => Ok (snd inp_shape)
  | _ => Raise IndexError
  end.

(** Matrices of numbers. *)
Definition matrix : Type := array2 Qc.

Definition zeros (r c : nat) : matrix := mk2 (repeat (repeat 0%Qc c) r) c.

Definition eye (n : nat) : matrix :=
  mk2 (map (fun i => map (fun j => if Nat.eqb i j then 1%Qc else 0%Qc) (seq 0 n))
           (seq 0 n)) n.

Definition of_Z (z : Z) : Qc := Q2Qc (inject_Z z).

(** A matrix written with integer entries. *)
Definition of_ints (l : list (list Z)) (c : nat) : matrix :=
  mk2 (map (map of_Z) l) c.

(** Row [i] of [a], for [i] below the number of rows.  (Beyond the rows
    the value is a row of zeros; the gathers below read only rows that
    exist.) *)
Definition row (a : matrix) (i : nat) : list Qc :=
  nth i (arows a) (repeat 0%Qc (acols a)).

End Np.

Import Np.

(** ** [tile_view] *)

(** [np.broadcast_to(inp.ravel(), (reps, inp.size)).reshape(
      (reps * inp.shape[0], inp.shape[1]))] *)
Definition tile_view (inp : matrix) (reps : Z) : result matrix :=
  b <- broadcast_to (ravel inp) reps (size inp) ;;
  reshape b (reps * Z.of_nat (shape0 inp)) (shape1 inp).

(** ** The reduction family *)

(** An index block of a [SparseReduce]: a 2-d integer array. *)
Definition block : Type := array2 Z.

(** The reductions.  [Repeat], [TileView] and [SparseReduce] are the
    dataclasses of [repetitions.py]; [Identity], [LinearReduce] and
    [ChainedReduce] are imported there from the package's [base] module, and
    [Sum], [Mean] and [NoReduce] are the further reductions [vector.py]
    names. *)
#[warnings="-register-all"]
Inductive AbstractReduce : Type :=
| Identity
| Repeat (times : Z)
| TileView (result_len : Z)
| SparseReduce (idcs : list block) (average : bool) (max_idx : Z)
| LinearReduce (linear_map : matrix)
| ChainedReduce (reduces : list AbstractReduce)
| Sum
| Mean
| NoReduce.

(** What [@] takes on its right and gives back: a reduction or an array. *)
Inductive ReduceOrArray : Type :=
| AReduce (r : AbstractReduce)
| AnArray (a : matrix).

Module Repeat.

(** [__post_init__] *)
Definition __post_init__ (times : Z) : result AbstractReduce :=
  if (times <=? 1)%Z
  then Raise (ValueError "Repeat times must be greater than 1")
  else Ok (Repeat times).

Definition __matmul__ (times : Z) (inp : ReduceOrArray) : result ReduceOrArray :=
  match inp with
  | AReduce r => Ok (AReduce (ChainedReduce [Repeat times; r]))
  | AnArray a => a' <- repeat0 a times ;; Ok (AnArray a')
  end.

Definition new_len (times : Z) (original_len : Z) : Z :=
  (original_len * times)%Z.

End Repeat.

Module TileView.

(** [__post_init__] *)
Definition __post_init__ (result_len : Z) : result AbstractReduce :=
  if (result_len <? 2)%Z
  then Raise (ValueError "TileView result_len must be greater than 1")
  else Ok (TileView result_len).

(** [__matmul__]; the line it prints is left out. *)
Definition __matmul__ (result_len : Z) (inp : ReduceOrArray) : result ReduceOrArray :=
  match inp with
  | AReduce r => Ok (AReduce (ChainedReduce [TileView result_len; r]))
  | AnArray a =>
      if Nat.eqb (shape0 a) 0 then Raise ZeroDivisionError
      else if negb (result_len mod Z.of_nat (shape0 a) =? 0)%Z
      then Raise (ValueError "Input can't be broadcasted to target length")
      else
        let repeats := (result_len / Z.of_nat (shape0 a))%Z in
        a' <- tile_view a repeats ;; Ok (AnArray a')
  end.

Definition linmap (result_len : Z) (inp_shape : nat * nat) (axis : nat) : result matrix :=
  n <- shape_at inp_shape axis ;;
  if Nat.eqb n 0 then Raise ZeroDivisionError
  else tile_view (eye n) (result_len / Z.of_nat n).

Definition new_len (result_len : Z) (original_len : Z) : Z := result_len.

End TileView.

(** ** Array primitives used by [SparseReduce] *)

Module Jnp.

(** [l[i] = v] on a list, nothing when [i] is out of range. *)
Fixpoint set_nth {A : Type} (l : list A) (i : nat) (f : A -> A) : list A :=
  match l, i with
  | [], _ => []
  | x :: l', O => f x :: l'
  | x :: l', S i' => x :: set_nth l' i' f
  end.

(** A negative index counts from the end. *)
Definition wrap_index (n : nat) (i : Z) : Z :=
  if (i <? 0)%Z then (i + Z.of_nat n)%Z else i.

(** The row an index reads: jax clamps an index outside the array into
    it when reading. *)
Definition read_index (n : nat) (i : Z) : nat :=
  Z.to_nat (Z.min (Z.max 0 (wrap_index n i)) (Z.of_nat n - 1)).

(** [inp[list(idx), :]]: the rows the indices name.  An array without
    rows has no row to read, and jax refuses to gather from it. *)
Definition take_rows (inp : matrix) (idx : list Z) : result matrix :=
  if Nat.eqb (shape0 inp) 0
  then Raise (TypeError "cannot gather from an axis of size 0")
  else Ok (mk2 (map (fun i => row inp (read_index (shape0 inp) i)) idx) (acols inp)).

(** Entry-wise sum of two rows. *)
Definition vadd (r1 r2 : list Qc) : list Qc :=
  map (fun p => (fst p + snd p)%Qc) (combine r1 r2).

(** [np.sum(rows, 0)] for rows of [m] entries. *)
Definition vsum (m : nat) (rows : list (list Qc)) : list Qc :=
  fold_right vadd (repeat 0%Qc m) rows.

Definition Qc_of_nat (k : nat) : Qc := of_Z (Z.of_nat k).

(** [_reduce(t, 1)] on one group of [k] rows: [np.mean] or [np.sum]. *)
Definition reduce_group (average : bool) (m k : nat) (g : list (list Qc)) : list Qc :=
  if average then map (fun x => (x / Qc_of_nat k)%Qc) (vsum m g) else vsum m g.

(** [_reduce(g.reshape((-1, k, m)), 1)] where [m = g.shape[1]]: the rows of
    [g] are read in consecutive groups of [k]; the group count [-1] stands
    for is [g.size / (k * m)]. *)
Definition reshape_reduce (average : bool) (g : matrix) (k : nat) : result matrix :=
  let m := shape1 g in
  if Nat.eqb (k * m) 0 then Raise ZeroDivisionError
  else if negb (Nat.eqb (size g mod (k * m)) 0)
  then Raise (TypeError "cannot reshape array")
  else
    let r := size g / (k * m) in
    Ok (mk2 (map (reduce_group average m k) (chunks r k (arows g))) m).

(** [lm.at[r, c].set(v)] for one index pair; jax drops an update whose
    index is outside the array. *)
Definition set_entry (lm : matrix) (r : nat) (c : Z) (v : Qc) : matrix :=
  let c' := wrap_index (acols lm) c in
  if ((0 <=? c')%Z && (c' <? Z.of_nat (acols lm))%Z)%bool
  then mk2 (set_nth (arows lm) r (fun rw => set_nth rw (Z.to_nat c') (fun _ => v)))
           (acols lm)
  else lm.

(** [lm.at[(idx1, idx2)].set(v)] *)
Definition at_set (lm : matrix) (idx1 : list nat) (idx2 : list Z) (v : Qc) : matrix :=
  fold_left (fun acc p => set_entry acc (fst p) (snd p) v) (combine idx1 idx2) lm.

(** [np.max(l)] *)
Definition max (l : list Z) : result Z :=
  match l with
  | [] => Raise (ValueError "zero-size array to reduction operation max which has no identity")
  | x :: l' => Ok (fold_left Z.max l' x)
  end.

Definition dot (u v : list Qc) : Qc :=
  fold_right (fun p acc => (fst p * snd p + acc)%Qc) 0%Qc (combine u v).

Definition column (a : matrix) (j : nat) : list Qc :=
  map (fun r => nth j r 0%Qc) (arows a).

(** [a @ b] for two matrices. *)
Definition matmul (a b : matrix) : result matrix :=
  if Nat.eqb (shape1 a) (shape0 b)
  then Ok (mk2 (map (fun r => map (fun j => dot r (column b j)) (seq 0 (shape1 b)))
                    (arows a)) (shape1 b))
  else Raise (TypeError "matmul: incompatible shapes").

(** [np.array(l)] for a list of 1-d integer arrays.  (For an empty list
    numpy gives a 1-d array of no entry; it is written here as a block of
    no row.) *)
Definition array (l : list (list Z)) : result block :=
  match l with
  | [] => Ok (mk2 [] 0)
  | r :: l' =>
      if forallb (fun r' => Nat.eqb (length r') (length r)) l'
      then Ok (mk2 l (length r))
      else Raise (ValueError "inhomogeneous shape")
  end.

(** [lm.at[r, lo:hi].set(v)] for [0 <= lo]: the slice names the columns
    [lo], ..., [hi - 1] that exist; it stops at the end of the row. *)
Definition at_set_slice (lm : matrix) (r lo hi : nat) (v : Qc) : matrix :=
  fold_left (fun acc j => set_entry acc r (Z.of_nat j) v) (seq lo (hi - lo)) lm.

(** [a / d] for a number [d]. *)
Definition true_divide (a : matrix) (d : Qc) : matrix :=
  mk2 (map (map (fun x => (x / d)%Qc)) (arows a)) (acols a).

(** [np.arange(n)]; empty when [n <= 0]. *)
Definition arange (n : Z) : list Z := map Z.of_nat (seq 0 (Z.to_nat n)).

(** [np.arange(start, stop)] *)
Definition arange2 (start stop : nat) : list Z :=
  map Z.of_nat (seq start (stop - start)).

(** [u[:, None] + v[None, :]]: entry [(i, j)] is [u[i] + v[j]]. *)
Definition outer_add (u v : list Z) : block :=
  mk2 (map (fun a => map (fun b => (a + b)%Z) v) u) (length v).

End Jnp.

(** ** Array primitives used by [SparseReduce.sum_from_unique] *)

Module Unique.

Definition Qc_leb (a b : Qc) : bool := Qle_bool a b.

Section Sort.
Context {A : Type} (leb : A -> A -> bool).

(** Stable insertion: [x] goes before the first element that is not
    smaller. *)
Fixpoint insert (x : A) (l : list A) : list A :=
  match l with
  | [] => [x]
  | y :: l' => if leb x y then x :: y :: l' else y :: insert x l'
  end.

(** A stable sort: equal keys keep their order. *)
Fixpoint sort (l : list A) : list A :=
  match l with
  | [] => []
  | x :: l' => insert x (sort l')
  end.
End Sort.

(** [np.unique(input, return_counts=True)]: the distinct values in
    ascending order, and how often each occurs. *)
Definition unique (input : list Qc) : list Qc * list nat :=
  let un := sort Qc_leb (nodup Qc_eq_dec input) in
  (un, map (count_occ Qc_eq_dec input) un).

(** [np.argwhere(input == v).flatten()] *)
Definition argwhere_eq (input : list Qc) (v : Qc) : list Z :=
  map Z.of_nat
      (filter (fun j => Qc_eq_bool (nth j input 0%Qc) v) (seq 0 (length input))).

(** [np.argsort(l)] (jax sorts stably). *)
Definition argsort (l : list nat) : list nat :=
  map fst (sort (fun p q => Nat.leb (snd p) (snd q)) (combine (seq 0 (length l)) l)).

(** [a[idx]] for an index list. *)
Definition take {A : Type} (d : A) (a : list A) (idx : list nat) : list A :=
  map (fun i => nth i a d) idx.

(** [np.argwhere(l[:-1] - l[1:] != 0).flatten() + 1] *)
Definition change_points (l : list nat) : list nat :=
  map S (filter (fun i => negb (Nat.eqb (nth i l 0) (nth (S i) l 0)))
                (seq 0 (length l - 1))).

(** [range(a, b)] *)
Definition range (a b : nat) : list nat := seq a (b - a).

(** The pairs [(change[i], change[i + 1])] for [i in range(len(change) - 1)]. *)
Fixpoint consecutive (change : list nat) : list (nat * nat) :=
  match change with
  | a :: (b :: _) as rest => (a, b) :: consecutive rest
  | _ => []
  end.

(** [input.reshape((-1, 1))]: the values as a column. *)
Definition column_of (input : list Qc) : matrix :=
  mk2 (map (fun x => [x]) input) 1.

End Unique.

(** ** [SparseReduce] *)

Module SparseReduce.

(** [__post_init__]: infers [max_idx] when it is [None]. *)
Definition __post_init__ (idcs : list block) (average : bool) (max_idx : option Z)
  : result AbstractReduce :=
  match max_idx with
  | Some m => Ok (SparseReduce idcs average m)
  | None =>
      max_list <- mapM (fun i => Jnp.max (ravel i))
                       (filter (fun i => Nat.ltb 0 (size i)) idcs) ;;
      m <- Jnp.max max_list ;;
      Ok (SparseReduce idcs average m)
  end.

(** One turn of the loop of [__matmul__]. *)
Definition reduce_block (average : bool) (inp : matrix) (blk : block) : result matrix :=
  if Nat.eqb (shape1 blk) 0
  then Ok (zeros (shape0 blk) (shape1 inp))
  else g <- Jnp.take_rows inp (ravel blk) ;;
       Jnp.reshape_reduce average g (shape1 blk).

(** [__matmul__].  A matrix is 2-d, so the test on [len(inp.shape)] always
    passes.  There is no branch for a reduction: a reduction is no array,
    and [len(inp)] raises on it. *)
Definition __matmul__ (idcs : list block) (average : bool) (max_idx : Z)
  (inp : ReduceOrArray) : result ReduceOrArray :=
  match inp with
  | AReduce _ => Raise (TypeError "object has no len()")
  | AnArray a =>
      if (max_idx + 1 >? Z.of_nat (len a))%Z
      then Raise (ValueError "SparseReduce expects a longer gram to operate on")
      else
        rval <- mapM (reduce_block average a) idcs ;;
        out <- concatenate0 rval ;;
        Ok (AnArray out)
  end.

Definition new_len (idcs : list block) (max_idx : Z) (original_len : Z) : result Z :=
  if (max_idx + 1 <=? original_len)%Z
  then Ok (Z.of_nat (length idcs))
  else Raise (AssertionError "SparseReduce expects a longer gram to operate on").

(** The weight [linmap] writes for a block of [k] columns. *)
Definition weight (average : bool) (k : nat) : Qc :=
  if average then (1 / Jnp.Qc_of_nat k)%Qc else 1%Qc.

(** One turn of the loop of [linmap], on the pair [(lin_map, offset)]. *)
Definition linmap_step (average : bool) (st : matrix * nat) (blk : block)
  : matrix * nat :=
  let (lin_map, offset) := st in
  let lin_map' :=
    if negb (Nat.eqb (shape1 blk) 0)
    then
      let idx1 := flat_map (fun i => repeat (i + offset) (shape1 blk))
                           (seq 0 (shape0 blk)) in
      Jnp.at_set lin_map idx1 (ravel blk) (weight average (shape1 blk))
    else lin_map in
  (lin_map', offset + shape0 blk).

Definition linmap (idcs : list block) (average : bool) (max_idx : Z)
  (inp_shape : nat * nat) (axis : nat) : result matrix :=
  n <- shape_at inp_shape axis ;;
  let n_in := (max_idx + 1)%Z in
  if negb (Z.of_nat n =? n_in)%Z
  then Raise (ValueError "Input shape does not match reduction assumptions")
  else
    let n_out := list_sum (map (@len Z) idcs) in
    let lin_map := zeros n_out (Z.to_nat n_in) in
    Ok (fst (fold_left (linmap_step average) idcs (lin_map, 0))).

(** [sum_from_unique], on a 1-d array of values. *)
Definition sum_from_unique (input : list Qc) (mean : bool)
  : result (list Qc * list nat * AbstractReduce) :=
  let (un, cts) := Unique.unique input in
  let un_idx := map (Unique.argwhere_eq input) un in
  let l_arr := map (@length Z) un_idx in
  let argsort := Unique.argsort l_arr in
  let un_sorted := Unique.take 0%Qc un argsort in
  let cts_sorted := Unique.take 0 cts argsort in
  let un_idx_sorted := Unique.take [] un_idx argsort in
  let change :=
    (0 :: Unique.change_points (Unique.take 0 l_arr argsort)) ++ [length l_arr] in
  el <- mapM (fun ab =>
                Jnp.array (Unique.take [] un_idx_sorted
                                       (Unique.range (fst ab) (snd ab))))
             (Unique.consecutive change) ;;
  sr <- __post_init__ el mean None ;;
  Ok (un_sorted, cts_sorted, sr).

(** [collect_block_start_stop], local to [sum_from_block_example]: the
    pairs [(start, stop)] of the elements of [l] in the array that stacks
    them, the stop index excluded.  The loop runs on the pair
    [(rval, total_len)]. *)
Definition collect_block_start_stop {A : Type} (l : list (list A))
  : list (nat * nat) :=
  fst (fold_left (fun st arr =>
                    let arr_len := length arr in
                    (fst st ++ [(snd st, arr_len + snd st)], snd st + arr_len))
                 l ([], 0)).

(** [block_start_stop[-1, 1]]: the stop index of the last pair.  The
    array built from an empty list has one axis only, and indexing it with
    two indices raises. *)
Definition last_stop (block_start_stop : list (nat * nat)) : result nat :=
  match rev block_start_stop with
  | [] => Raise IndexError
  | p :: _ => Ok (snd p)
  end.

(** [reduce_blocks], local to [sum_from_block_example]: one index block of
    one row, [np.arange(start, stop)[np.newaxis, :]], per pair. *)
Definition reduce_blocks (block_start_stop : list (nat * nat)) : result (list block) :=
  total_len <- last_stop block_start_stop ;;
  Ok (map (fun p => mk2 [Jnp.arange2 (fst p) (snd p)] (snd p - fst p))
          block_start_stop).

(** [sum_from_block_example]; of the elements of [l] only [len] is used. *)
Definition sum_from_block_example {A : Type} (l : list (list A)) (mean : bool)
  : result AbstractReduce :=
  let blocks := collect_block_start_stop l in
  idcs <- reduce_blocks blocks ;;
  stop <- last_stop blocks ;;
  __post_init__ idcs mean (Some (Z.of_nat stop - 1)%Z).

End SparseReduce.

(** ** [Kmer] *)

(** What [Kmer] returns: the binary matrix, the index matrix, a reduction,
    or, for an output format it does not know, [None]. *)
Inductive KmerOutput : Type :=
| KBinary (A : matrix)
| KIndex (index : block)
| KReduce (r : AbstractReduce)
| KNone.

(** [Kmer].  Past the first test [k] and [seq_length - k + 1] are
    positive.  The message of the error is written without the two
    numbers.  [LinearReduce(A)] is the reduction of [reduce/base.py] that
    stores the matrix [A]. *)
Definition Kmer (k seq_length : Z) (average : bool) (output_format : string)
  : result KmerOutput :=
  if ((seq_length <? k) || (k <=? 1) || (seq_length <=? 1))%Z
  then Raise (ValueError "seq_length must be greater than k and both must be greater than 1.")
  else if (String.eqb output_format "linear" || String.eqb output_format "binary")%bool
  then
    let rows := Z.to_nat (seq_length - k + 1) in
    let A := fold_left (fun A i => Jnp.at_set_slice A i i (i + Z.to_nat k) 1%Qc)
                       (seq 0 rows) (zeros rows (Z.to_nat seq_length)) in
    let A := if average then Jnp.true_divide A (of_Z k) else A in
    if String.eqb output_format "binary" then Ok (KBinary A)
    else Ok (KReduce (LinearReduce A))
  else if (String.eqb output_format "sparse" || String.eqb output_format "index")%bool
  then
    let index := Jnp.outer_add (Jnp.arange (seq_length - k + 1)) (Jnp.arange k) in
    if String.eqb output_format "index" then Ok (KIndex index)
    else sr <- SparseReduce.__post_init__ [index] average None ;; Ok (KReduce sr)
  else Ok KNone.

(** ** Deciding equality of matrices *)

Module MatEq.

Fixpoint list_eqb {A : Type} (eqb : A -> A -> bool) (l1 l2 : list A) : bool :=
  match l1, l2 with
  | [], [] => true
  | x :: l1', y :: l2' => eqb x y && list_eqb eqb l1' l2'
  | _, _ => false
  end.

Definition Qc_eqb (a b : Qc) : bool := Qeq_bool a b.

Definition matrix_eqb (a b : matrix) : bool :=
  Nat.eqb (acols a) (acols b) && list_eqb (list_eqb Qc_eqb) (arows a) (arows b).

(** A matrix written with rational entries. *)
Definition of_rats (l : list (list Q)) (c : nat) : matrix :=
  mk2 (map (map Q2Qc) l) c.

End MatEq.

(** ** The reductions of the [base] module

    [repetitions.py] and [vector.py] import [Identity], [LinearReduce],
    [ChainedReduce], [Sum], [Mean], [NoReduce] and the [final_len] of
    [AbstractReduce] from the package's [reduce/base.py]. *)

Module Base.

(** Modelled from the spec: [Sum] and [Mean] of [reduce/base.py] applied
    to a matrix; they fold all rows into one. *)
Definition sum_rows (average : bool) (a : matrix) : matrix :=
  mk2 [Jnp.reduce_group average (shape1 a) (shape0 a) (arows a)] (shape1 a).

(** Modelled from the spec: the apply operator of the reductions of
    [reduce/base.py].  Applied to a reduction each gives the deferred
    composition; applied to a matrix, [Identity] and [NoReduce] give the
    matrix back, [LinearReduce] multiplies by its stored matrix from the
    left, and [ChainedReduce([A, B])] applies [B] and then [A].  The cases
    of [Repeat], [TileView] and [SparseReduce] are their own
    [__matmul__]. *)
Fixpoint matmul (R : AbstractReduce) (inp : ReduceOrArray) {struct R}
  : result ReduceOrArray :=
  match R with
  | Repeat times => Repeat.__matmul__ times inp
  | TileView result_len => TileView.__matmul__ result_len inp
  | SparseReduce idcs average max_idx =>
      SparseReduce.__matmul__ idcs average max_idx inp
  | Identity | NoReduce =>
      match inp with
      | AReduce r => Ok (AReduce (ChainedReduce [R; r]))
      | AnArray a => Ok (AnArray a)
      end
  | LinearReduce linear_map =>
      match inp with
      | AReduce r => Ok (AReduce (ChainedReduce [R; r]))
      | AnArray a => out <- Jnp.matmul linear_map a ;; Ok (AnArray out)
      end
  | Sum | Mean =>
      match inp with
      | AReduce r => Ok (AReduce (ChainedReduce [R; r]))
      | AnArray a =>
          Ok (AnArray (sum_rows (match R with Mean => true | _ => false end) a))
      end
  | ChainedReduce reduces =>
      match inp with
      | AReduce r => Ok (AReduce (ChainedReduce [R; r]))
      | AnArray a =>
          (fix go (rs : list AbstractReduce) : result ReduceOrArray :=
             match rs with
             | [] => Ok (AnArray a)
             | r :: rs' => x <- go rs' ;; matmul r x
             end) reduces
      end
  end.

(** Modelled from the spec: [new_len] of the reductions of
    [reduce/base.py]: the row count of the stored matrix for
    [LinearReduce], one for [Sum] and [Mean], the input length for
    [Identity] and [NoReduce], and the members' [new_len] in turn, last
    member first, for [ChainedReduce].  The cases of [Repeat], [TileView]
    and [SparseReduce] are their own [new_len]. *)
Fixpoint new_len (R : AbstractReduce) (original_len : Z) {struct R} : result Z :=
  match R with
  | Repeat times => Ok (Repeat.new_len times original_len)
  | TileView result_len => Ok (TileView.new_len result_len original_len)
  | SparseReduce idcs _ max_idx => SparseReduce.new_len idcs max_idx original_len
  | Identity | NoReduce => Ok original_len
  | LinearReduce linear_map => Ok (Z.of_nat (shape0 linear_map))
  | Sum | Mean => Ok 1%Z
  | ChainedReduce reduces =>
      (fix go (rs : list AbstractReduce) : result Z :=
         match rs with
         | [] => Ok original_len
         | r :: rs' => n <- go rs' ;; new_len r n
         end) reduces
  end.

(** Modelled from the spec: [final_len] of [reduce/base.py], the
    reduction's output length for a given input length. *)
Definition final_len (R : AbstractReduce) (original_len : Z) : result Z :=
  new_len R original_len.

(** Modelled from the spec: [linmap] of [LinearReduce] gives back the
    stored matrix.  The cases of [TileView] and [SparseReduce] are their
    own [linmap]; no other reduction has one. *)
Definition linmap (R : AbstractReduce) (inp_shape : nat * nat) (axis : nat)
  : result matrix :=
  match R with
  | TileView result_len => TileView.linmap result_len inp_shape axis
  | SparseReduce idcs average max_idx =>
      SparseReduce.linmap idcs average max_idx inp_shape axis
  | LinearReduce linear_map => Ok linear_map
  | _ => Raise (TypeError "object has no attribute linmap")
  end.

(** The linearizable reductions. *)
Definition linearizable (R : AbstractReduce) : bool :=
  match R with
  | TileView _ | SparseReduce _ _ _ | LinearReduce _ => true
  | _ => false
  end.

End Base.

(** ** RKHS vectors *)

Module Rkhs.
Section WithKernel.

(** Kernels are outside this development: a kernel type with its equality
    test ([k1 != k2] is [negb (kernel_eqb k1 k2)]) and, further down,
    [cross_covariance]. *)
Variable Kernel : Type.
Variable kernel_eqb : Kernel -> Kernel -> bool.

(** [jnp.add] and [jnp.multiply], the operator of a [CombinationVec]. *)
Inductive Operator : Type := jnp_add | jnp_multiply.

(** An [RkhsVec] or, as [CombinationVec], an object with the fields of its
    subclass; [len_] is the private [__len] that [__post_init__] stores.
    The constructor of the subclass is [new_CombinationVec] below. *)
#[warnings="-register-all"]
Inductive RkhsVec : Type :=
| Vec (insp_pts : InspPts) (k : Kernel) (reduce : AbstractReduce)
    (transpose : bool)
| CombinationVec (rkhs_vecs : list RkhsVec) (operator : Operator)
    (reduce : AbstractReduce) (k : Kernel) (transpose : bool) (len_ : Z)
with InspPts : Type :=
| Atoms (a : matrix)
| Nested (v : RkhsVec).

(** [k.cross_covariance(x, y)], the Gram matrix of two point sets. *)
Variable cross_covariance : Kernel -> InspPts -> InspPts -> result matrix.

Definition k (v : RkhsVec) : Kernel :=
  match v with Vec _ k _ _ => k | CombinationVec _ _ _ k _ _ => k end.

Definition reduce (v : RkhsVec) : AbstractReduce :=
  match v with Vec _ _ r _ => r | CombinationVec _ _ r _ _ _ => r end.

Definition transpose (v : RkhsVec) : bool :=
  match v with Vec _ _ _ t => t | CombinationVec _ _ _ _ t _ => t end.

Definition is_colvec (v : RkhsVec) : bool := negb (transpose v).

Definition is_rowvec (v : RkhsVec) : bool := transpose v.

(** [size]: [self.reduce.final_len(len(self.insp_pts))], with the [len] of
    a nested vector written out; on a [CombinationVec], the stored
    [__len]. *)
Fixpoint size (v : RkhsVec) : result Z :=
  match v with
  | Vec ip _ r _ =>
      n <- match ip with
           | Atoms a => Ok (Z.of_nat (len a))
           | Nested v' => if transpose v' then Ok 1%Z else size v'
           end ;;
      Base.final_len r n
  | CombinationVec _ _ _ _ _ len_ => Ok len_
  end.


Definition shape (v : RkhsVec) : result (Z * Z) :=
  s <- size v ;; Ok (if transpose v then (1%Z, s) else (s, 1%Z)).

(** [insp_pts]: the field of an [RkhsVec]; on a [CombinationVec] the
    property, [jnp.concatenate([v.insp_pts for v in self.rkhs_vecs])],
    which needs every member's inspection points to be an array. *)
Fixpoint insp_pts (v : RkhsVec) : result InspPts :=
  match v with
  | Vec ip _ _ _ => Ok ip
  | CombinationVec vs _ _ _ _ _ =>
      pts <- (fix go (l : list RkhsVec) : result (list matrix) :=
                match l with
                | [] => Ok []
                | v' :: l' =>
                    ip <- insp_pts v' ;;
                    match ip with
                    | Atoms a => rest <- go l' ;; Ok (a :: rest)
                    | Nested _ => Raise (TypeError "concatenate: not an array")
                    end
                end) vs ;;
      a <- concatenate0 pts ;;
      Ok (Atoms a)
  end.

(** [T] *)
Definition T (v : RkhsVec) : result RkhsVec :=
  ip <- insp_pts v ;; Ok (Vec ip (k v) (reduce v) (negb (transpose v))).


(** A call of the class [CombinationVec].  The class statement declares
    the field [rkhs_vecs], which has no default, after the inherited fields
    [k], [reduce] and [transpose], which have one, and [@dataclass] raises
    a [TypeError] for that while it builds the class.  So the class never
    comes to exist, [__post_init__] is not reached through it, and no call
    returns, whatever the arguments. *)
Definition new_CombinationVec (rkhs_vecs : list RkhsVec) (operator : Operator)
  (reduce : AbstractReduce) : result RkhsVec :=
  Raise (TypeError "non-default argument 'rkhs_vecs' follows default argument").


Definition ProductVec (rkhs_vecs : list RkhsVec) (reduce : AbstractReduce) :=
  new_CombinationVec rkhs_vecs jnp_multiply reduce.

(** What [@] between two vectors gives: a matrix or a vector. *)
Inductive MatrixOrVec : Type :=
| AMatrix (a : matrix)
| AVec (v : RkhsVec).

(** The array a reduction gives when applied to an array. *)
Definition apply_reduce (R : AbstractReduce) (a : matrix) : result matrix :=
  x <- Base.matmul R (AnArray a) ;;
  match x with
  | AnArray out => Ok out
  | AReduce _ => Raise (TypeError "not an array")
  end.

Definition __pairwise_dot__ (self other : RkhsVec) : result matrix :=
  if negb (kernel_eqb (k self) (k other))
  then Raise (TypeError "Trying to compute inner products between elements of different RKHSs (Kernel types do not match)")
  else
    p1 <- insp_pts self ;;
    p2 <- insp_pts other ;;
    raw_gram <- cross_covariance (k self) p1 p2 ;;
    inner <- apply_reduce (reduce other) (Np.transpose 0%Qc raw_gram) ;;
    apply_reduce (reduce self) (Np.transpose 0%Qc inner).

Definition __tensor_prod__ (self other : RkhsVec) : result RkhsVec :=
  s1 <- size self ;;
  s2 <- size other ;;
  if negb (s1 =? s2)%Z
  then Raise (ValueError "Trying to compute tensor product between RKHS vectors of different sizes")
  else ProductVec [self; other] Sum.

Definition __matmul__ (self other : RkhsVec) : result MatrixOrVec :=
  if Bool.eqb (is_rowvec self) (is_rowvec other)
  then Raise (ValueError "Trying to compute matrix product between two row vectors or two column vectors")
  else if (is_rowvec self && is_colvec other)%bool
  then a <- __pairwise_dot__ self other ;; Ok (AMatrix a)
  else if (is_colvec self && is_rowvec other)%bool
  then v <- __tensor_prod__ self other ;; Ok (AVec v)
  else Raise (ValueError "Trying to compute matrix product between two RKHS vectors of the same shape. This is not supported.").


Definition __mul__ (self other : RkhsVec) : result RkhsVec :=
  ProductVec [self; other] NoReduce.

(** [v1.T @ v2] *)
Definition transposed_matmul (v1 v2 : RkhsVec) : result MatrixOrVec :=
  t <- T v1 ;; __matmul__ t v2.

End WithKernel.
End Rkhs.

(** ** Descriptions of results *)

(** The rows one index block contributes to [SparseReduce.__matmul__]:
    all-zero rows for a block of no column, else one reduced group of
    gathered input rows per index row. *)
Definition block_rows (average : bool) (inp : matrix) (blk : block)
  : list (list Qc) :=
  if Nat.eqb (shape1 blk) 0
  then repeat (repeat 0%Qc (shape1 inp)) (shape0 blk)
  else map (fun g => Jnp.reduce_group average (shape1 inp) (shape1 blk)
                       (map (fun i => row inp (Jnp.read_index (shape0 inp) i)) g))
           (arows blk).

(** What lets [SparseReduce.__matmul__] gather for a block: a block with
    columns reads from a matrix that has a row and a column. *)
Definition gather_ok (inp : matrix) (blk : block) : Prop :=
  shape1 blk = 0 \/ (shape1 inp <> 0 /\ shape0 inp <> 0).

(** An exception other than the one [SparseReduce.__matmul__] raises on an
    input with too few rows. *)
Definition not_too_short (e : exn) : Prop :=
  e <> ValueError "SparseReduce expects a longer gram to operate on".

(** The sum of a list of numbers. *)
Definition sumq (l : list Qc) : Qc := fold_right Qcplus 0%Qc l.

(** What [set_entry] does to the one row it touches. *)
Definition set_col (n : nat) (rw : list Qc) (c : Z) (v : Qc) : list Qc :=
  let c' := Jnp.wrap_index n c in
  if ((0 <=? c')%Z && (c' <? Z.of_nat n)%Z)%bool
  then Jnp.set_nth rw (Z.to_nat c') (fun _ => v)
  else rw.

(** The rows of [SparseReduce.linmap] that belong to one index block: a row
    of [n] zeros per index row, with the block's weight written at the
    columns the index row names. *)
Definition lin_block_rows (average : bool) (n : nat) (blk : block)
  : list (list Qc) :=
  if Nat.eqb (shape1 blk) 0
  then repeat (repeat 0%Qc n) (shape0 blk)
  else map (fun g =>
              fold_left (fun rw c =>
                           set_col n rw c (SparseReduce.weight average (shape1 blk)))
                        g (repeat 0%Qc n))
           (arows blk).

(** The rows of [a @ b]. *)
Definition matmul_rows (a : list (list Qc)) (b : matrix) : list (list Qc) :=
  map (fun r => map (fun j => Jnp.dot r (Jnp.column b j)) (seq 0 (shape1 b))) a.

(** The index rows of a block name rows of an [n]-row input, none twice. *)
Definition block_ok (n : nat) (blk : block) : Prop :=
  wf blk /\
  Forall (fun g => NoDup g /\ Forall (fun c => (0 <= c < Z.of_nat n)%Z) g)
         (arows blk).

(** [linmap] agrees with application, for one reduction and one matrix:
    whenever application returns [out], [linmap] returns a matrix [L] for
    the shape of [M], and [L @ M] is [out]. *)
Definition linmap_agrees (R : AbstractReduce) (M : matrix) : Prop :=
  forall out,
    Base.matmul R (AnArray M) = Ok (AnArray out) ->
    exists L, Base.linmap R (shape M) 0 = Ok L /\ Jnp.matmul L M = Ok out.

(** Ordering by multiplicity, and by position among equal multiplicities. *)
Definition by_count_then_index (p q : nat * nat) : Prop :=
  snd p < snd q \/ (snd p = snd q /\ fst p < fst q).

(** Ordering by multiplicity, and by value among equal multiplicities. *)
Definition by_count_then_value (p q : nat * Qc) : Prop :=
  fst p < fst q \/ (fst p = fst q /\ (snd p < snd q)%Qc).

(** The entries of [input] equal to [u]. *)
Definition matching (input : list Qc) (u : Qc) : list Qc :=
  filter (fun x => Qc_eq_bool x u) input.

(** The mean, or the sum, of the entries of [input] equal to [u]. *)
Definition group_value (mean : bool) (input : list Qc) (u : Qc) : Qc :=
  if mean
  then (sumq (matching input u) / Jnp.Qc_of_nat (length (matching input u)))%Qc
  else sumq (matching input u).

(** The index blocks [sum_from_unique] cuts a list of index rows into. *)
Definition blocks_of (rows : list (list Z)) : result (list block) :=
  mapM (fun ab => Jnp.array (Unique.take [] rows (Unique.range (fst ab) (snd ab))))
       (Unique.consecutive
          ((0 :: Unique.change_points (map (@length Z) rows)) ++ [length rows])).

(** ** The matrices, index blocks and vectors of the examples *)

(** The columns [[1],[2]] and [[5],[7]]. *)
Definition m_col12 : matrix := of_ints [[1]; [2]]%Z 1.

Definition m_col57 : matrix := of_ints [[5]; [7]]%Z 1.

(** The matrix of the docstring of [TileView.__matmul__]. *)
Definition m_2x3 : matrix := of_ints [[1; 2; 3]; [4; 5; 6]]%Z 3.

(** The input and the index blocks [r2] of the docstring of
    [SparseReduce.__matmul__]: average rows 0 and 1, then 0 and 2, then all
    three. *)
Definition m_3x3 : matrix := of_ints [[1; 2; 3]; [4; 5; 6]; [7; 8; 9]]%Z 3.

Definition idcs_r2 : list block :=
  [mk2 [[0; 1]; [0; 2]]%Z 2; mk2 [[0; 1; 2]]%Z 3].

(** The index blocks [r1] and [r3] of the same docstring: [r1] reduces as
    [r2] does; [r3] copies row 0 twice, then row 1 twice, then row 2. *)
Definition idcs_r1 : list block :=
  [mk2 [[0; 1]]%Z 2; mk2 [[0; 2]]%Z 2; mk2 [[0; 1; 2]]%Z 3].

Definition idcs_r3 : list block := [mk2 [[0]; [0]; [1]; [1]; [2]]%Z 1].

(** A single index block of one row, naming input row 0. *)
Definition idcs_row0 : list block := [mk2 [[0%Z]] 1].

(** An index block whose one row names input row 0 twice and row 1 once. *)
Definition idcs_twice : list block := [mk2 [[0; 0; 1]]%Z 3].

(** The input of the docstring of [sum_from_unique], and one whose values
    differ in multiplicity. *)
Definition input_123 : list Qc := map of_Z [1; 2; 3; 1; 2; 3; 1; 2; 3]%Z.

Definition input_5152517 : list Qc := map of_Z [5; 1; 5; 2; 5; 1; 7]%Z.

(** A stand-in kernel family for the examples: kernels are numbered, and
    the Gram matrix of two point sets is the all-zero matrix with a row per
    point of the first and a column per point of the second. *)
Module Toy.

Definition Kernel : Type := nat.

Definition kernel_eqb : Kernel -> Kernel -> bool := Nat.eqb.

Definition points (p : Rkhs.InspPts Kernel) : nat :=
  match p with
  | Rkhs.Atoms _ a => len a
  | Rkhs.Nested _ => 1
  end.

Definition cross_covariance (k : Kernel) (p1 p2 : Rkhs.InspPts Kernel)
  : result matrix :=
  Ok (zeros (points p1) (points p2)).

Definition RkhsVec : Type := Rkhs.RkhsVec Kernel.

(** Column vectors over two, two and three inspection points, one with
    another kernel, and row vectors over two inspection points. *)
Definition col_a : RkhsVec := Rkhs.Vec (Rkhs.Atoms Kernel m_col12) 0 Identity false.

Definition col_b : RkhsVec := Rkhs.Vec (Rkhs.Atoms Kernel m_col57) 0 Identity false.


Definition col_b' : RkhsVec := Rkhs.Vec (Rkhs.Atoms Kernel m_col57) 1 Identity false.

Definition row_a : RkhsVec := Rkhs.Vec (Rkhs.Atoms Kernel m_col12) 0 Identity true.


Definition __matmul__ := Rkhs.__matmul__ kernel_eqb cross_covariance.

Definition transposed_matmul :=
  Rkhs.transposed_matmul kernel_eqb cross_covariance.

End Toy.

(** ** Sums and multiples of matrices *)

(** [a + b] for two matrices of one shape. *)
Definition madd (a b : matrix) : matrix :=
  mk2 (map (fun p => Jnp.vadd (fst p) (snd p)) (combine (arows a) (arows b)))
      (acols a).

(** [c * a] for a number [c]. *)
Definition mscale (c : Qc) (a : matrix) : matrix :=
  mk2 (map (map (Qcmult c)) (arows a)) (acols a).

(** ** Descriptions of the results of [sum_from_block_example] *)

(** The pairs [(start, stop)] of consecutive segments of the given
    lengths, the first starting at [start]. *)
Fixpoint segments (start : nat) (lens : list nat) : list (nat * nat) :=
  match lens with
  | [] => []
  | n :: lens' => (start, n + start) :: segments (n + start) lens'
  end.

(** The sum, or the mean, over axis 0 of some rows of [c] entries; a row
    of zeros when there is no row. *)
Definition rows_value (mean : bool) (c : nat) (rows : list (list Qc)) : list Qc :=
  if Nat.eqb (length rows) 0 then repeat 0%Qc c
  else Jnp.reduce_group mean c (length rows) rows.

(** ** Descriptions of the results of [Kmer] *)

(** Row [i] of a [k]-mer matrix for sequences of [n] entries: the weight
    [w] at the columns [i], ..., [i + k - 1], zero elsewhere. *)
Definition kmer_row (w : Qc) (n k i : nat) : list Qc :=
  map (fun j => if (Nat.leb i j && Nat.ltb j (i + k))%bool then w else 0%Qc)
      (seq 0 n).

(** The weight of a [k]-mer matrix. *)
Definition kmer_weight (average : bool) (k : Z) : Qc :=
  if average then (1 / of_Z k)%Qc else 1%Qc.

(** The output formats [Kmer] knows. *)
Definition kmer_formats : list string := ["linear"; "binary"; "sparse"; "index"]%string.

(** ** Descriptions of the matrix of [SparseReduce.linmap] *)

(** What the entries of a row of [linmap] add up to, for a row that
    belongs to the index block [blk]: nothing for a block without columns,
    one when averaging, and the number of columns when summing. *)
Definition row_weight_sum (average : bool) (blk : block) : Qc :=
  if Nat.eqb (shape1 blk) 0 then 0%Qc
  else if average then 1%Qc else Jnp.Qc_of_nat (shape1 blk).

(** ** Lists: reading rows back out of repeated and tiled buffers *)

Section ListFacts.
Context {A : Type}.

Lemma chunks_shift (c n : nat) (r l : list A) :
  length r = c ->
  map (fun i => firstn c (skipn (i * c) (r ++ l))) (seq 1 n) =
  map (fun i => firstn c (skipn (i * c) l)) (seq 0 n).
Proof.
  intros Hr. rewrite <- seq_shift, map_map.
  apply map_ext. intros i. f_equal.
  replace (S i * c) with (length r + i * c) by (simpl; lia).
  rewrite skipn_app.
  rewrite skipn_all2 by lia. simpl.
  f_equal. lia.
Qed.

Lemma chunks_concat (c : nat) (rs : list (list A)) :
  Forall (fun r => length r = c) rs ->
  chunks (length rs) c (concat rs) = rs.
Proof.
  unfold chunks. induction 1 as [|r rs Hr Hrs IH]; [reflexivity|].
  cbn [length concat seq map].
  rewrite chunks_shift by assumption. rewrite IH.
  f_equal. simpl. rewrite firstn_app, Hr, Nat.sub_diag, firstn_O, app_nil_r.
  apply firstn_all2. lia.
Qed.

Lemma concat_repeat_concat (l : list (list A)) (k : nat) :
  concat (repeat (concat l) k) = concat (concat (repeat l k)).
Proof.
  induction k as [|k IH]; [reflexivity|].
  simpl. rewrite concat_app, IH. reflexivity.
Qed.

Lemma length_concat_repeat (B : Type) (l : list B) (k : nat) :
  length (concat (repeat l k)) = k * length l.
Proof.
  induction k as [|k IH]; [reflexivity|].
  simpl. rewrite length_app, IH. reflexivity.
Qed.

Lemma Forall_concat_repeat (P : list A -> Prop) (l : list (list A)) (k : nat) :
  Forall P l -> Forall P (concat (repeat l k)).
Proof.
  intros H. induction k as [|k IH]; simpl; [constructor|].
  apply Forall_app. split; assumption.
Qed.

(** Tiling: entry [i] of [k] copies laid end to end is entry [i mod n]. *)
Lemma nth_error_concat_repeat (l : list A) (k i : nat) :
  i < k * length l ->
  nth_error (concat (repeat l k)) i = nth_error l (i mod length l).
Proof.
  revert i. induction k as [|k IH]; intros i Hi; [lia|].
  assert (Hn : length l <> 0) by (intros E; rewrite E in Hi; lia).
  simpl. destruct (Nat.lt_ge_cases i (length l)) as [Hlt|Hge].
  - rewrite nth_error_app1 by assumption.
    rewrite Nat.mod_small by assumption. reflexivity.
  - rewrite nth_error_app2 by assumption.
    rewrite IH by (simpl in Hi; lia).
    f_equal.
    replace i with ((i - length l) + 1 * length l) at 2 by lia.
    rewrite Nat.Div0.mod_add. reflexivity.
Qed.

Lemma length_flat_map_repeat (l : list A) (t : nat) :
  length (flat_map (fun r => repeat r t) l) = length l * t.
Proof.
  induction l as [|x l IH]; [reflexivity|].
  simpl. rewrite length_app, repeat_length, IH. reflexivity.
Qed.

(** Repeating in place: entry [i] of the result is entry [i / t]. *)
Lemma nth_error_flat_map_repeat (l : list A) (t i : nat) :
  i < length l * t ->
  nth_error (flat_map (fun r => repeat r t) l) i = nth_error l (i / t).
Proof.
  revert i. induction l as [|x l IH]; intros i Hi; [simpl in Hi; lia|].
  assert (Ht : t <> 0) by (intros E; rewrite E in Hi; lia).
  simpl. destruct (Nat.lt_ge_cases i t) as [Hlt|Hge].
  - rewrite nth_error_app1 by (rewrite repeat_length; assumption).
    rewrite Nat.div_small by assumption. simpl.
    apply nth_error_repeat. assumption.
  - rewrite nth_error_app2 by (rewrite repeat_length; assumption).
    rewrite repeat_length.
    rewrite IH by (simpl in Hi; lia).
    replace i with ((i - t) + 1 * t) at 2 by lia.
    rewrite Nat.div_add by assumption.
    replace ((i - t) / t + 1) with (S ((i - t) / t)) by lia.
    reflexivity.
Qed.

End ListFacts.

(** ** [tile_view] lays copies of its input end to end *)

Lemma ravel_length (a : matrix) : wf a -> length (ravel a) = size a.
Proof.
  unfold wf, ravel, size, shape0, shape1.
  induction 1 as [|r rs Hr Hrs IH]; [reflexivity|].
  simpl. rewrite length_app, IH, Hr. reflexivity.
Qed.

Lemma tile_view_rows (inp : matrix) (reps : Z) :
  wf inp -> (0 <= reps)%Z ->
  tile_view inp reps =
  Ok (mk2 (concat (repeat (arows inp) (Z.to_nat reps))) (acols inp)).
Proof.
  intros Hwf Hreps. unfold tile_view, broadcast_to.
  destruct (Z.ltb_spec reps 0) as [?|_]; [lia|].
  rewrite (ravel_length Hwf), Nat.eqb_refl. cbn [bind].
  unfold reshape.
  destruct (Z.ltb_spec (reps * Z.of_nat (shape0 inp)) 0) as [?|_]; [nia|].
  assert (Hr : Z.to_nat (reps * Z.of_nat (shape0 inp)) = Z.to_nat reps * shape0 inp).
  { rewrite Z2Nat.inj_mul by lia. rewrite Nat2Z.id. reflexivity. }
  rewrite Hr.
  assert (Hsz : size (mk2 (repeat (ravel inp) (Z.to_nat reps)) (size inp)) =
                Z.to_nat reps * shape0 inp * shape1 inp).
  { unfold size at 1, shape0 at 1, shape1 at 1. cbn [arows acols].
    rewrite repeat_length. unfold size. lia. }
  rewrite Hsz, Nat.eqb_refl.
  do 2 f_equal.
  unfold ravel at 1. cbn [arows]. unfold ravel.
  rewrite concat_repeat_concat.
  replace (Z.to_nat reps * shape0 inp)
    with (length (concat (repeat (arows inp) (Z.to_nat reps))))
    by (rewrite length_concat_repeat; reflexivity).
  apply chunks_concat. apply Forall_concat_repeat. exact Hwf.
Qed.

(** ** Boolean equality of matrices is equality *)

Lemma list_eqb_eq {A : Type} (eqb : A -> A -> bool) :
  (forall x y, eqb x y = true -> x = y) ->
  forall l1 l2, MatEq.list_eqb eqb l1 l2 = true -> l1 = l2.
Proof.
  intros Heq. induction l1 as [|x l1 IH]; intros [|y l2] H; simpl in H;
    try discriminate; [reflexivity|].
  apply andb_prop in H as [Hx Hl].
  f_equal; [apply Heq, Hx|apply IH, Hl].
Qed.

Lemma Qc_eqb_eq (a b : Qc) : MatEq.Qc_eqb a b = true -> a = b.
Proof.
  unfold MatEq.Qc_eqb. intros H. apply Qc_is_canon, Qeq_bool_iff, H.
Qed.

Lemma matrix_eqb_eq (a b : matrix) : MatEq.matrix_eqb a b = true -> a = b.
Proof.
  destruct a as [ra ca], b as [rb cb]. unfold MatEq.matrix_eqb. cbn [arows acols].
  intros H. apply andb_prop in H as [Hc Hr].
  apply Nat.eqb_eq in Hc.
  pose proof (@list_eqb_eq _ _ Qc_eqb_eq) as H1.
  apply (@list_eqb_eq _ _ H1) in Hr.
  subst. reflexivity.
Qed.

Lemma Ok_array_eqb (a b : matrix) :
  MatEq.matrix_eqb a b = true -> Ok (AnArray a) = Ok (AnArray b).
Proof. intros H. rewrite (matrix_eqb_eq _ _ H). reflexivity. Qed.

Lemma Ok_eqb (a b : matrix) : MatEq.matrix_eqb a b = true -> Ok a = Ok b.
Proof. intros H. rewrite (matrix_eqb_eq _ _ H). reflexivity. Qed.

(** ** [SparseReduce.__matmul__]: the rows it produces *)

Lemma block_rows_length (average : bool) (inp : matrix) (blk : block) :
  length (block_rows average inp blk) = shape0 blk.
Proof.
  unfold block_rows. destruct (Nat.eqb (shape1 blk) 0).
  - apply repeat_length.
  - apply length_map.
Qed.

Lemma length_concat_wf {A : Type} (a : array2 A) :
  wf a -> length (concat (arows a)) = shape0 a * shape1 a.
Proof.
  unfold wf, shape0, shape1.
  induction 1 as [|r rs Hr Hrs IH]; [reflexivity|].
  simpl. rewrite length_app, IH, Hr. reflexivity.
Qed.

Lemma reduce_block_rows (average : bool) (inp : matrix) (blk : block) :
  wf blk -> gather_ok inp blk ->
  SparseReduce.reduce_block average inp blk =
  Ok (mk2 (block_rows average inp blk) (shape1 inp)).
Proof.
  intros Hwf Hm. unfold SparseReduce.reduce_block, block_rows.
  destruct (Nat.eqb_spec (shape1 blk) 0) as [Hk|Hk]; [reflexivity|].
  destruct Hm as [Hm|[Hm Hrows]]; [contradiction|].
  unfold Jnp.take_rows.
  destruct (Nat.eqb_spec (shape0 inp) 0) as [?|_]; [contradiction|].
  cbn [bind]. unfold Jnp.reshape_reduce.
  set (g := mk2 (map (fun i => row inp (Jnp.read_index (shape0 inp) i)) (ravel blk))
                (acols inp)).
  assert (Hg1 : shape1 g = shape1 inp) by reflexivity.
  assert (Hsz : size g = shape0 blk * (shape1 blk * shape1 inp)).
  { unfold size. rewrite Hg1. unfold g, shape0 at 1. cbn [arows].
    rewrite length_map. unfold ravel. rewrite (length_concat_wf Hwf). lia. }
  rewrite Hg1, Hsz.
  destruct (Nat.eqb_spec (shape1 blk * shape1 inp) 0) as [E|_]; [nia|].
  rewrite Nat.Div0.mod_mul. cbn [Nat.eqb negb].
  rewrite Nat.div_mul by nia.
  do 2 f_equal.
  unfold g, ravel. cbn [arows].
  rewrite concat_map.
  replace (shape0 blk) with
    (length (map (map (fun i => row inp (Jnp.read_index (shape0 inp) i))) (arows blk)))
    by (rewrite length_map; reflexivity).
  rewrite chunks_concat.
  - rewrite map_map. reflexivity.
  - apply Forall_map. revert Hwf. unfold wf. apply Forall_impl.
    intros r Hr. rewrite length_map. exact Hr.
Qed.

Lemma mapM_ok {A B : Type} (f : A -> result B) (g : A -> B) (l : list A) :
  Forall (fun x => f x = Ok (g x)) l -> mapM f l = Ok (map g l).
Proof.
  induction 1 as [|x l Hx Hl IH]; [reflexivity|].
  simpl. rewrite Hx, IH. reflexivity.
Qed.

Lemma concatenate0_same_cols {A : Type} (l : list (array2 A)) (c : nat) :
  l <> [] -> Forall (fun a => acols a = c) l ->
  concatenate0 l = Ok (mk2 (concat (map (@arows A) l)) c).
Proof.
  intros Hne Hall. destruct l as [|a l]; [contradiction|].
  unfold concatenate0. inversion Hall as [|? ? Ha Hl]; subst.
  replace (forallb (fun b => Nat.eqb (acols b) (acols a)) l) with true; [reflexivity|].
  symmetry. apply forallb_forall. intros b Hb.
  rewrite Forall_forall in Hl. rewrite (Hl b Hb). apply Nat.eqb_refl.
Qed.

(** With enough rows in the input, well-formed index blocks, and a row and
    a column in the input unless no block has a column, [__matmul__]
    returns the blocks' rows in order. *)
Lemma SparseReduce_matmul_rows (idcs : list block) (average : bool) (max_idx : Z)
  (inp : matrix) :
  (max_idx + 1 <= Z.of_nat (len inp))%Z ->
  idcs <> [] -> Forall wf idcs ->
  Forall (gather_ok inp) idcs ->
  SparseReduce.__matmul__ idcs average max_idx (AnArray inp) =
  Ok (AnArray (mk2 (concat (map (block_rows average inp) idcs)) (shape1 inp))).
Proof.
  intros Hlen Hne Hwf Hm. unfold SparseReduce.__matmul__.
  destruct (Z.gtb_spec (max_idx + 1) (Z.of_nat (len inp))) as [?|_]; [lia|].
  rewrite (@mapM_ok _ _ _ (fun blk => mk2 (block_rows average inp blk) (shape1 inp))).
  - cbn [bind]. rewrite (@concatenate0_same_cols _ _ (shape1 inp)).
    + cbn [bind]. rewrite map_map. reflexivity.
    + destruct idcs; [contradiction|discriminate].
    + apply Forall_map, Forall_forall. reflexivity.
  - rewrite Forall_forall in *. intros blk Hb.
    apply reduce_block_rows; auto.
Qed.

Lemma length_concat_map_block_rows (average : bool) (inp : matrix) (idcs : list block) :
  length (concat (map (block_rows average inp) idcs)) = list_sum (map (@len Z) idcs).
Proof.
  induction idcs as [|blk idcs IH]; [reflexivity|].
  simpl. rewrite length_app, block_rows_length, IH. reflexivity.
Qed.

(** Evaluates [__matmul__] on a concrete matrix through the lemma above. *)
Ltac eval_sparse_matmul :=
  rewrite SparseReduce_matmul_rows;
  [ apply Ok_array_eqb; vm_compute; reflexivity
  | vm_compute; discriminate
  | discriminate
  | repeat constructor
  | repeat (apply Forall_cons; [right; split; discriminate|]); constructor ].

(** The docstring's example [r2 @ inp]. *)
Lemma SparseReduce_matmul_r2 :
  SparseReduce.__matmul__ idcs_r2 true 2 (AnArray m_3x3) =
  Ok (AnArray (MatEq.of_rats [[5 # 2; 7 # 2; 9 # 2]; [4; 5; 6]; [4; 5; 6]]%Q 3)).
Proof. eval_sparse_matmul. Qed.

(** ** Rows, columns and dot products *)

Lemma set_nth_length {A : Type} (l : list A) (i : nat) (f : A -> A) :
  length (Jnp.set_nth l i f) = length l.
Proof.
  revert i. induction l as [|x l IH]; intros [|i]; simpl; try reflexivity.
  rewrite IH. reflexivity.
Qed.

Lemma set_nth_id {A : Type} (l : list A) (i : nat) :
  Jnp.set_nth l i (fun x => x) = l.
Proof.
  revert i. induction l as [|x l IH]; intros [|i]; simpl; try reflexivity.
  rewrite IH. reflexivity.
Qed.

Lemma set_nth_twice {A : Type} (l : list A) (i : nat) (f g : A -> A) :
  Jnp.set_nth (Jnp.set_nth l i f) i g = Jnp.set_nth l i (fun x => g (f x)).
Proof.
  revert i. induction l as [|x l IH]; intros [|i]; simpl; try reflexivity.
  rewrite IH. reflexivity.
Qed.

Lemma set_nth_app {A : Type} (pre post : list A) (x : A) (f : A -> A) :
  Jnp.set_nth (pre ++ x :: post) (length pre) f = pre ++ f x :: post.
Proof.
  induction pre as [|y pre IH]; simpl; [reflexivity|].
  rewrite IH. reflexivity.
Qed.

Lemma nth_set_nth_other (l : list Qc) (i j : nat) (v : Qc) :
  i <> j -> nth j (Jnp.set_nth l i (fun _ => v)) 0%Qc = nth j l 0%Qc.
Proof.
  revert i j. induction l as [|x l IH]; intros [|i] [|j] H; simpl;
    try reflexivity; try contradiction.
  apply IH. intros E. apply H. rewrite E. reflexivity.
Qed.

Lemma dot_nil_r (rw : list Qc) : Jnp.dot rw [] = 0%Qc.
Proof. unfold Jnp.dot. rewrite combine_nil. reflexivity. Qed.

Lemma dot_cons (x y : Qc) (rw col : list Qc) :
  Jnp.dot (x :: rw) (y :: col) = (x * y + Jnp.dot rw col)%Qc.
Proof. reflexivity. Qed.

Lemma dot_set_nth (rw col : list Qc) (i : nat) (v : Qc) :
  i < length rw ->
  Jnp.dot (Jnp.set_nth rw i (fun _ => v)) col =
  (Jnp.dot rw col + (v - nth i rw 0) * nth i col 0)%Qc.
Proof.
  revert col i. induction rw as [|x rw IH]; intros col i Hi; [simpl in Hi; lia|].
  destruct col as [|y col].
  - rewrite !dot_nil_r. destruct i; cbn [nth]; ring.
  - destruct i as [|i]; cbn [Jnp.set_nth nth]; rewrite !dot_cons.
    + ring.
    + rewrite IH by (simpl in Hi; lia). ring.
Qed.

Lemma dot_zeros (n : nat) (col : list Qc) : Jnp.dot (repeat 0%Qc n) col = 0%Qc.
Proof.
  revert col. induction n as [|n IH]; intros [|y col]; try reflexivity.
  cbn [repeat]. rewrite dot_cons, IH. ring.
Qed.

(** A row of [eye n] picks one entry of a column. *)
Lemma dot_unit_row (i s n : nat) (col : list Qc) :
  s <= i < s + n ->
  Jnp.dot (map (fun j => if Nat.eqb i j then 1%Qc else 0%Qc) (seq s n)) col =
  nth (i - s) col 0%Qc.
Proof.
  revert s col. induction n as [|n IH]; intros s col Hi; [lia|].
  cbn [seq map]. destruct col as [|y col].
  - rewrite dot_nil_r. destruct (i - s); reflexivity.
  - rewrite dot_cons. destruct (Nat.eqb_spec i s) as [->|Hne].
    + rewrite Nat.sub_diag. cbn [nth].
      replace (map (fun j => if Nat.eqb s j then 1%Qc else 0%Qc) (seq (S s) n))
        with (repeat 0%Qc n); [rewrite dot_zeros; ring|].
      clear. assert (H : s < S s) by lia. revert H. generalize (S s) as t.
      induction n as [|n IH]; intros t Ht; [reflexivity|].
      cbn [seq map repeat]. destruct (Nat.eqb_spec s t); [lia|].
      f_equal. apply IH. lia.
    + rewrite IH by lia.
      replace (i - s) with (S (i - S s)) by lia. cbn [nth]. ring.
Qed.

Lemma column_nth (M : matrix) (i j : nat) :
  nth i (Jnp.column M j) 0%Qc = nth j (nth i (arows M) []) 0%Qc.
Proof.
  unfold Jnp.column. revert i.
  induction (arows M) as [|r rs IH]; intros [|i]; cbn [map nth];
    try (destruct j; reflexivity); try reflexivity.
  apply IH.
Qed.

Lemma map_nth_seq {A : Type} (d : A) (r : list A) :
  map (fun j => nth j r d) (seq 0 (length r)) = r.
Proof.
  induction r as [|x r IH]; [reflexivity|].
  cbn [length seq map nth]. f_equal.
  rewrite <- seq_shift, map_map. exact IH.
Qed.

(** [eye n @ M] is [M]. *)
Lemma eye_matmul_rows (M : matrix) :
  wf M -> matmul_rows (arows (eye (shape0 M))) M = arows M.
Proof.
  intros Hwf. unfold matmul_rows, eye. cbn [arows]. rewrite map_map.
  unfold shape0.
  transitivity (map (fun i => nth i (arows M) []) (seq 0 (length (arows M))));
    [|apply map_nth_seq].
  apply map_ext_in. intros i Hi. apply in_seq in Hi.
  assert (Hr : length (nth i (arows M) []) = shape1 M).
  { unfold wf in Hwf. rewrite Forall_forall in Hwf. apply Hwf, nth_In. lia. }
  transitivity (map (fun j => nth j (nth i (arows M) []) 0%Qc) (seq 0 (shape1 M)));
    [|rewrite <- Hr; apply map_nth_seq].
  apply map_ext. intros j.
  rewrite dot_unit_row by lia. rewrite Nat.sub_0_r.
  apply column_nth.
Qed.

(** ** [SparseReduce.linmap]: the matrix it builds *)

Lemma set_entry_row (lm : matrix) (r : nat) (c : Z) (v : Qc) :
  Jnp.set_entry lm r c v =
  mk2 (Jnp.set_nth (arows lm) r (fun rw => set_col (acols lm) rw c v)) (acols lm).
Proof.
  unfold Jnp.set_entry, set_col.
  destruct ((0 <=? Jnp.wrap_index (acols lm) c)%Z &&
            (Jnp.wrap_index (acols lm) c <? Z.of_nat (acols lm))%Z)%bool.
  - reflexivity.
  - rewrite set_nth_id. destruct lm; reflexivity.
Qed.

Lemma set_nth_ext {A : Type} (l : list A) (i : nat) (f g : A -> A) :
  (forall x, f x = g x) -> Jnp.set_nth l i f = Jnp.set_nth l i g.
Proof.
  intros H. revert i. induction l as [|x l IH]; intros [|i]; simpl;
    try reflexivity; [rewrite H|rewrite IH]; reflexivity.
Qed.

(** Writing one weight along one index row touches one row of the map. *)
Lemma scatter_group (rows : list (list Qc)) (n i : nat) (g : list Z) (v : Qc) :
  fold_left (fun acc p => Jnp.set_entry acc (fst p) (snd p) v)
            (map (fun c => (i, c)) g) (mk2 rows n) =
  mk2 (Jnp.set_nth rows i (fun rw => fold_left (fun rw c => set_col n rw c v) g rw)) n.
Proof.
  revert rows. induction g as [|c g IH]; intros rows.
  - cbn [map fold_left]. rewrite set_nth_id. reflexivity.
  - cbn [map fold_left fst snd]. rewrite set_entry_row. cbn [arows acols].
    rewrite IH, set_nth_twice. reflexivity.
Qed.

Lemma combine_app {A B : Type} (l1 l2 : list A) (k1 k2 : list B) :
  length l1 = length k1 ->
  combine (l1 ++ l2) (k1 ++ k2) = combine l1 k1 ++ combine l2 k2.
Proof.
  revert k1. induction l1 as [|x l1 IH]; intros [|y k1] H; simpl in *;
    try discriminate; [reflexivity|].
  rewrite IH by lia. reflexivity.
Qed.

Lemma combine_repeat_l {A B : Type} (x : A) (k : list B) :
  combine (repeat x (length k)) k = map (fun c => (x, c)) k.
Proof.
  induction k as [|y k IH]; [reflexivity|]. simpl. rewrite IH. reflexivity.
Qed.

(** The index pairs one block writes, row by row. *)
Lemma block_index_pairs (off k s : nat) (gs : list (list Z)) :
  Forall (fun g => length g = k) gs ->
  combine (flat_map (fun i => repeat (i + off) k) (seq s (length gs))) (concat gs) =
  concat (map (fun ig => map (fun c => (fst ig + off, c)) (snd ig))
              (combine (seq s (length gs)) gs)).
Proof.
  intros H. revert s. induction H as [|g gs Hg Hgs IH]; intros s; [reflexivity|].
  cbn [length seq flat_map concat combine map fst snd].
  rewrite combine_app by (rewrite repeat_length; symmetry; exact Hg).
  rewrite IH. f_equal. rewrite <- Hg. apply combine_repeat_l.
Qed.

Lemma scatter_block (n off s : nat) (v : Qc) (gs : list (list Z))
  (pre post : list (list Qc)) :
  length pre = s + off ->
  fold_left (fun acc p => Jnp.set_entry acc (fst p) (snd p) v)
    (concat (map (fun ig => map (fun c => (fst ig + off, c)) (snd ig))
                 (combine (seq s (length gs)) gs)))
    (mk2 (pre ++ repeat (repeat 0%Qc n) (length gs) ++ post) n) =
  mk2 (pre ++ map (fun g => fold_left (fun rw c => set_col n rw c v) g (repeat 0%Qc n)) gs
           ++ post) n.
Proof.
  revert s pre. induction gs as [|g gs IH]; intros s pre Hpre; [reflexivity|].
  cbn [length seq combine map concat fst snd repeat].
  rewrite fold_left_app, scatter_group.
  rewrite <- Hpre. cbn [app]. rewrite set_nth_app.
  replace (pre ++ fold_left (fun rw c => set_col n rw c v) g (repeat 0%Qc n)
               :: repeat (repeat 0%Qc n) (length gs) ++ post)
    with ((pre ++ [fold_left (fun rw c => set_col n rw c v) g (repeat 0%Qc n)])
            ++ repeat (repeat 0%Qc n) (length gs) ++ post)
    by (rewrite <- app_assoc; reflexivity).
  rewrite (IH (S s)) by (rewrite length_app; simpl; lia).
  rewrite <- app_assoc. reflexivity.
Qed.

Lemma linmap_step_rows (average : bool) (n : nat) (blk : block)
  (pre post : list (list Qc)) :
  wf blk ->
  SparseReduce.linmap_step average
    (mk2 (pre ++ repeat (repeat 0%Qc n) (shape0 blk) ++ post) n, length pre) blk =
  (mk2 (pre ++ lin_block_rows average n blk ++ post) n, length pre + shape0 blk).
Proof.
  intros Hwf. unfold SparseReduce.linmap_step, lin_block_rows.
  destruct (Nat.eqb (shape1 blk) 0); cbn [negb]; [reflexivity|].
  f_equal. unfold Jnp.at_set, ravel, shape0.
  rewrite block_index_pairs by exact Hwf.
  apply scatter_block. reflexivity.
Qed.

Lemma lin_block_rows_length (average : bool) (n : nat) (blk : block) :
  length (lin_block_rows average n blk) = shape0 blk.
Proof.
  unfold lin_block_rows. destruct (Nat.eqb (shape1 blk) 0).
  - apply repeat_length.
  - apply length_map.
Qed.

Lemma linmap_loop_rows (average : bool) (n : nat) (idcs : list block)
  (pre : list (list Qc)) :
  Forall wf idcs ->
  fold_left (SparseReduce.linmap_step average) idcs
    (mk2 (pre ++ repeat (repeat 0%Qc n) (list_sum (map (@len Z) idcs))) n, length pre) =
  (mk2 (pre ++ concat (map (lin_block_rows average n) idcs)) n,
   length pre + list_sum (map (@len Z) idcs)).
Proof.
  intros H. revert pre. induction H as [|blk idcs Hb Hi IH]; intros pre.
  - cbn [map list_sum fold_right repeat concat fold_left]. rewrite Nat.add_0_r, app_nil_r. reflexivity.
  - cbn [map list_sum fold_right concat fold_left]. fold (list_sum (map (@len Z) idcs)). unfold len at 1.
    rewrite repeat_app, linmap_step_rows by exact Hb.
    replace (length pre + shape0 blk) with (length (pre ++ lin_block_rows average n blk))
      by (rewrite length_app, lin_block_rows_length; reflexivity).
    rewrite app_assoc, IH. rewrite length_app, lin_block_rows_length, <- app_assoc.
    f_equal. unfold len. lia.
Qed.

Lemma SparseReduce_linmap_rows (idcs : list block) (average : bool) (max_idx : Z)
  (inp_shape : nat * nat) :
  Forall wf idcs -> Z.of_nat (fst inp_shape) = (max_idx + 1)%Z ->
  SparseReduce.linmap idcs average max_idx inp_shape 0 =
  Ok (mk2 (concat (map (lin_block_rows average (fst inp_shape)) idcs)) (fst inp_shape)).
Proof.
  intros Hwf Hn. unfold SparseReduce.linmap. cbn [shape_at bind].
  rewrite Hn, Z.eqb_refl. cbn [negb]. rewrite <- Hn, Nat2Z.id.
  unfold zeros.
  pose proof (@linmap_loop_rows average (fst inp_shape) idcs [] Hwf) as E.
  cbn [app length] in E. apply (f_equal fst) in E. f_equal. exact E.
Qed.

(** ** A row of [linmap] times the matrix is the reduced group *)

Lemma map_const_seq {A : Type} (x : A) (s n : nat) :
  map (fun _ => x) (seq s n) = repeat x n.
Proof.
  revert s. induction n as [|n IH]; intros s; [reflexivity|].
  simpl. rewrite IH. reflexivity.
Qed.

Lemma vadd_map_seq (r : list Qc) (f : nat -> Qc) (s : nat) :
  Jnp.vadd r (map f (seq s (length r))) =
  map (fun j => (nth (j - s) r 0 + f j)%Qc) (seq s (length r)).
Proof.
  unfold Jnp.vadd. revert s. induction r as [|x r IH]; intros s; [reflexivity|].
  cbn [length seq map combine fst snd]. rewrite Nat.sub_diag. cbn [nth]. f_equal.
  rewrite IH. apply map_ext_in. intros j Hj. apply in_seq in Hj.
  replace (j - s) with (S (j - S s)) by lia. reflexivity.
Qed.

(** Entry [j] of the sum of rows is the sum of their entries [j]. *)
Lemma vsum_map_seq (m : nat) (rs : list (list Qc)) :
  Forall (fun r => length r = m) rs ->
  Jnp.vsum m rs = map (fun j => sumq (map (fun r => nth j r 0%Qc) rs)) (seq 0 m).
Proof.
  unfold Jnp.vsum. induction 1 as [|r rs Hr Hrs IH].
  - cbn [fold_right map sumq]. symmetry. apply map_const_seq.
  - cbn [fold_right]. rewrite IH. subst m. rewrite vadd_map_seq.
    apply map_ext. intros j. rewrite Nat.sub_0_r. reflexivity.
Qed.

Lemma set_col_in_range (n : nat) (rw : list Qc) (c : Z) (v : Qc) :
  (0 <= c < Z.of_nat n)%Z ->
  set_col n rw c v = Jnp.set_nth rw (Z.to_nat c) (fun _ => v).
Proof.
  intros Hc. unfold set_col, Jnp.wrap_index.
  destruct (Z.ltb_spec c 0) as [?|_]; [lia|].
  destruct (Z.leb_spec 0 c) as [_|?]; [|lia].
  destruct (Z.ltb_spec c (Z.of_nat n)) as [_|?]; [|lia].
  reflexivity.
Qed.

Lemma read_index_in_range (n : nat) (c : Z) :
  (0 <= c < Z.of_nat n)%Z -> Jnp.read_index n c = Z.to_nat c.
Proof.
  intros Hc. unfold Jnp.read_index, Jnp.wrap_index.
  destruct (Z.ltb_spec c 0) as [?|_]; [lia|]. f_equal. lia.
Qed.

(** Writing [v] at the columns a group names, none of them twice, into a
    row that is zero there adds [v] times the named entries to the dot
    product. *)
Lemma dot_scatter_row (n : nat) (g : list Z) (v : Qc) (col rw : list Qc) :
  length rw = n -> NoDup g ->
  Forall (fun c => (0 <= c < Z.of_nat n)%Z) g ->
  (forall c, In c g -> nth (Z.to_nat c) rw 0%Qc = 0%Qc) ->
  Jnp.dot (fold_left (fun rw c => set_col n rw c v) g rw) col =
  (Jnp.dot rw col + v * sumq (map (fun c => nth (Z.to_nat c) col 0%Qc) g))%Qc.
Proof.
  intros Hlen Hnd. revert rw Hlen.
  induction Hnd as [|c g Hc Hnd IH]; intros rw Hlen Hrange Hzero.
  - cbn [fold_left map sumq fold_right]. ring.
  - inversion Hrange as [|? ? Hc0 Hg]; subst.
    cbn [fold_left map sumq fold_right].
    rewrite set_col_in_range by exact Hc0.
    rewrite IH.
    + rewrite dot_set_nth by lia.
      rewrite (Hzero c) by (left; reflexivity).
      fold (sumq (map (fun c0 => nth (Z.to_nat c0) col 0%Qc) g)). ring.
    + rewrite set_nth_length. reflexivity.
    + exact Hg.
    + intros c' Hc'. rewrite nth_set_nth_other.
      * apply Hzero. right. exact Hc'.
      * intros E. apply Hc. rewrite Forall_forall in Hg. pose proof (Hg c' Hc').
        assert (c = c') by lia. subst. exact Hc'.
Qed.

Lemma Qc_of_nat_neq_0 (k : nat) : k <> 0 -> Jnp.Qc_of_nat k <> 0%Qc.
Proof.
  intros Hk E. unfold Jnp.Qc_of_nat, of_Z in E.
  apply (f_equal this) in E. cbn [this Q2Qc] in E.
  assert (Hq : Qred (inject_Z (Z.of_nat k)) == 0).
  { rewrite E. reflexivity. }
  rewrite Qred_correct in Hq. unfold Qeq, inject_Z in Hq. simpl in Hq. lia.
Qed.

Lemma weight_times (average : bool) (k : nat) (x : Qc) :
  k <> 0 ->
  (SparseReduce.weight average k * x)%Qc =
  if average then (x / Jnp.Qc_of_nat k)%Qc else x.
Proof.
  intros Hk. unfold SparseReduce.weight. destruct average.
  - field. apply Qc_of_nat_neq_0, Hk.
  - ring.
Qed.

Lemma row_length (M : matrix) (i : nat) : wf M -> length (row M i) = shape1 M.
Proof.
  intros Hwf. unfold row.
  destruct (Nat.lt_ge_cases i (length (arows M))) as [Hi|Hi].
  - unfold wf in Hwf. rewrite Forall_forall in Hwf. apply Hwf, nth_In, Hi.
  - rewrite nth_overflow by exact Hi. apply repeat_length.
Qed.

(** One row of [linmap] applied to [M] is the reduced group of rows. *)
Lemma lin_row_matmul (average : bool) (M : matrix) (k : nat) (g : list Z) :
  wf M -> k <> 0 -> NoDup g ->
  Forall (fun c => (0 <= c < Z.of_nat (shape0 M))%Z) g ->
  map (fun j => Jnp.dot
                  (fold_left (fun rw c => set_col (shape0 M) rw c
                                            (SparseReduce.weight average k))
                             g (repeat 0%Qc (shape0 M)))
                  (Jnp.column M j))
      (seq 0 (shape1 M)) =
  Jnp.reduce_group average (shape1 M) k
    (map (fun i => row M (Jnp.read_index (shape0 M) i)) g).
Proof.
  intros Hwf Hk Hnd Hrange. unfold Jnp.reduce_group.
  rewrite vsum_map_seq
    by (apply Forall_map, Forall_forall; intros; apply row_length, Hwf).
  assert (E : forall j,
    Jnp.dot (fold_left (fun rw c => set_col (shape0 M) rw c
                                      (SparseReduce.weight average k))
                       g (repeat 0%Qc (shape0 M)))
            (Jnp.column M j) =
    if average
    then (sumq (map (fun r => nth j r 0%Qc)
                    (map (fun i => row M (Jnp.read_index (shape0 M) i)) g))
          / Jnp.Qc_of_nat k)%Qc
    else sumq (map (fun r => nth j r 0%Qc)
                   (map (fun i => row M (Jnp.read_index (shape0 M) i)) g))).
  { intros j. rewrite dot_scatter_row; try assumption.
    - rewrite dot_zeros, Qcplus_0_l, weight_times by exact Hk.
      rewrite map_map.
      replace (map (fun c => nth (Z.to_nat c) (Jnp.column M j) 0%Qc) g)
        with (map (fun i => nth j (row M (Jnp.read_index (shape0 M) i)) 0%Qc) g);
        [reflexivity|].
      apply map_ext_in. intros c Hc. rewrite Forall_forall in Hrange.
      pose proof (Hrange c Hc) as Hc0.
      rewrite read_index_in_range by exact Hc0.
      rewrite column_nth. unfold row. f_equal.
      apply nth_indep. unfold shape0 in Hc0. lia.
    - apply repeat_length.
    - intros c _. apply nth_repeat. }
  destruct average.
  - rewrite map_map. apply map_ext. intros j. apply E.
  - apply map_ext. intros j. apply E.
Qed.

Lemma matmul_rows_zeros (r : nat) (M : matrix) :
  matmul_rows (repeat (repeat 0%Qc (shape0 M)) r) M = repeat (repeat 0%Qc (shape1 M)) r.
Proof.
  unfold matmul_rows. rewrite map_repeat. f_equal.
  rewrite <- (map_const_seq 0%Qc 0 (shape1 M)).
  apply map_ext. intros j. apply dot_zeros.
Qed.

Lemma lin_block_matmul (average : bool) (M : matrix) (blk : block) :
  wf M -> block_ok (shape0 M) blk ->
  matmul_rows (lin_block_rows average (shape0 M) blk) M = block_rows average M blk.
Proof.
  intros Hwf [Hb Hg]. unfold lin_block_rows, block_rows.
  destruct (Nat.eqb_spec (shape1 blk) 0) as [Hk|Hk]; [apply matmul_rows_zeros|].
  unfold matmul_rows. rewrite map_map. apply map_ext_in. intros g Hin.
  rewrite Forall_forall in Hg. destruct (Hg g Hin) as [Hnd Hr].
  apply lin_row_matmul; assumption.
Qed.

(** ** The stable insertion sort *)

Section SortFacts.
Context {A : Type} (leb : A -> A -> bool).

Lemma insert_perm (x : A) (l : list A) :
  Permutation (Unique.insert leb x l) (x :: l).
Proof.
  induction l as [|y l IH]; [reflexivity|].
  simpl. destruct (leb x y); [reflexivity|].
  rewrite IH. apply perm_swap.
Qed.

Lemma sort_perm (l : list A) : Permutation (Unique.sort leb l) l.
Proof.
  induction l as [|x l IH]; [reflexivity|].
  simpl. rewrite insert_perm, IH. reflexivity.
Qed.

Lemma insert_sorted (R : A -> A -> Prop) (x : A) (l : list A) :
  (forall a b c, R a b -> R b c -> R a c) ->
  StronglySorted R l ->
  (forall y, In y l -> leb x y = true -> R x y) ->
  (forall y, In y l -> leb x y = false -> R y x) ->
  StronglySorted R (Unique.insert leb x l).
Proof.
  intros Htrans Hs. induction Hs as [|y l Hs IH Hy]; intros H1 H2.
  - repeat constructor.
  - simpl. destruct (leb x y) eqn:E.
    + constructor; [constructor; assumption|].
      assert (Hxy : R x y) by (apply H1; [left; reflexivity|exact E]).
      constructor; [exact Hxy|].
      revert Hy. apply Forall_impl. intros z Hz. eapply Htrans; eassumption.
    + constructor.
      * apply IH; intros z Hz; [apply H1|apply H2]; right; exact Hz.
      * apply Forall_forall. intros z Hz.
        apply (Permutation_in _ (insert_perm x l)) in Hz. destruct Hz as [<-|Hz].
        -- apply H2; [left; reflexivity|exact E].
        -- rewrite Forall_forall in Hy. apply Hy, Hz.
Qed.

End SortFacts.

(** Sorting numbers gives an ascending list. *)
Lemma sort_Qc_sorted (l : list Qc) :
  StronglySorted Qcle (Unique.sort Unique.Qc_leb l).
Proof.
  induction l as [|x l IH]; [constructor|].
  simpl. apply insert_sorted.
  - intros a b c. apply Qcle_trans.
  - exact IH.
  - intros y _ H. apply Qle_bool_iff in H. exact H.
  - intros y _ H. destruct (Qclt_le_dec y x) as [Hlt|Hle].
    + apply Qclt_le_weak, Hlt.
    + apply Qle_bool_iff in Hle. unfold Unique.Qc_leb in H. congruence.
Qed.

(** Sorted and free of duplicates is strictly ascending. *)
Lemma sorted_NoDup_strict (l : list Qc) :
  StronglySorted Qcle l -> NoDup l -> StronglySorted Qclt l.
Proof.
  induction 1 as [|x l Hs IH Hx]; intros Hnd; [constructor|].
  inversion Hnd as [|? ? Hnin Hnd']; subst.
  constructor; [apply IH, Hnd'|].
  apply Forall_forall. intros y Hy. rewrite Forall_forall in Hx.
  destruct (Qcle_lt_or_eq _ _ (Hx y Hy)) as [Hlt|<-]; [exact Hlt|contradiction].
Qed.

Lemma sort_stable_sorted (l : list (nat * nat)) :
  StronglySorted (fun p q => fst p < fst q) l ->
  StronglySorted by_count_then_index
    (Unique.sort (fun p q => Nat.leb (snd p) (snd q)) l).
Proof.
  induction 1 as [|x l Hs IH Hx]; [constructor|].
  simpl. apply insert_sorted.
  - unfold by_count_then_index. intros a b c. lia.
  - exact IH.
  - intros y Hy H. apply Nat.leb_le in H.
    apply (Permutation_in _ (sort_perm _ l)) in Hy.
    rewrite Forall_forall in Hx. pose proof (Hx y Hy).
    unfold by_count_then_index. lia.
  - intros y _ H. apply Nat.leb_gt in H. left. exact H.
Qed.

(** ** Strictly ascending lists and the cuts of [sum_from_unique] *)

Lemma StronglySorted_seq (s n : nat) : StronglySorted lt (seq s n).
Proof.
  revert s. induction n as [|n IH]; intros s; [constructor|].
  simpl. constructor; [apply IH|].
  apply Forall_forall. intros y Hy. apply in_seq in Hy. lia.
Qed.

Lemma StronglySorted_filter {A : Type} (R : A -> A -> Prop) (f : A -> bool) (l : list A) :
  StronglySorted R l -> StronglySorted R (filter f l).
Proof.
  induction 1 as [|x l Hs IH Hx]; [constructor|].
  simpl. destruct (f x); [|exact IH].
  constructor; [exact IH|].
  apply Forall_forall. intros y Hy. apply filter_In in Hy as [Hy _].
  rewrite Forall_forall in Hx. apply Hx, Hy.
Qed.

Lemma StronglySorted_map {A B : Type} (R : A -> A -> Prop) (R' : B -> B -> Prop)
  (f : A -> B) (l : list A) :
  (forall x y, In x l -> In y l -> R x y -> R' (f x) (f y)) ->
  StronglySorted R l -> StronglySorted R' (map f l).
Proof.
  intros Hf Hs. induction Hs as [|x l Hs IH Hx]; [constructor|].
  simpl. constructor.
  - apply IH. intros a b Ha Hb. apply Hf; right; assumption.
  - apply Forall_map, Forall_forall. intros y Hy. rewrite Forall_forall in Hx.
    apply Hf; [left; reflexivity|right; exact Hy|apply Hx, Hy].
Qed.

Lemma StronglySorted_snoc {A : Type} (R : A -> A -> Prop) (l : list A) (z : A) :
  StronglySorted R l -> Forall (fun x => R x z) l -> StronglySorted R (l ++ [z]).
Proof.
  induction 1 as [|x l Hs IH Hx]; intros Hz; [repeat constructor|].
  inversion Hz as [|? ? Hxz Hlz]; subst.
  simpl. constructor; [apply IH, Hlz|].
  apply Forall_app. split; [exact Hx|repeat constructor; exact Hxz].
Qed.

Lemma StronglySorted_nth {A : Type} (R : A -> A -> Prop) (l : list A) (d : A) (i j : nat) :
  StronglySorted R l -> i < j < length l -> R (nth i l d) (nth j l d).
Proof.
  intros Hs. revert i j. induction Hs as [|x l Hs IH Hx]; intros i j Hij;
    [simpl in Hij; lia|].
  destruct j as [|j]; [lia|]. destruct i as [|i]; simpl.
  - rewrite Forall_forall in Hx. apply Hx, nth_In. simpl in Hij. lia.
  - apply IH. simpl in Hij. lia.
Qed.

(** The cut positions: 0, then every position whose size differs from the
    one before, then the number of rows. *)
Lemma change_sorted (sizes : list nat) :
  sizes <> [] ->
  StronglySorted lt ((0 :: Unique.change_points sizes) ++ [length sizes]).
Proof.
  intros Hne. assert (HL : 0 < length sizes) by (destruct sizes; [contradiction|simpl; lia]).
  apply StronglySorted_snoc.
  - constructor.
    + unfold Unique.change_points.
      apply StronglySorted_map with (R := lt); [intros; lia|].
      apply StronglySorted_filter, StronglySorted_seq.
    + unfold Unique.change_points. apply Forall_map, Forall_forall.
      intros; lia.
  - constructor; [exact HL|].
    unfold Unique.change_points. apply Forall_map, Forall_forall.
    intros i Hi. apply filter_In in Hi as [Hi _]. apply in_seq in Hi. lia.
Qed.

(** Neighbours in a strictly ascending list have nothing of the list
    between them. *)
Lemma consecutive_gap (cs : list nat) (a L x y : nat) :
  StronglySorted lt (a :: cs ++ [L]) ->
  In (x, y) (Unique.consecutive (a :: cs ++ [L])) ->
  x < y /\ a <= x /\ y <= L /\ forall j, x < j < y -> ~ In j cs.
Proof.
  revert a. induction cs as [|c cs IH]; intros a Hs Hin.
  - simpl in Hin. destruct Hin as [E|[]]. injection E as <- <-.
    inversion Hs as [|? ? _ Ha]; subst. inversion Ha; subst.
    repeat split; try lia. intros j _ [].
  - cbn [app Unique.consecutive] in Hin.
    inversion Hs as [|? ? Hs' Ha]; subst.
    assert (HcL : c < L).
    { inversion Hs' as [|? ? _ Hc]; subst. rewrite Forall_forall in Hc.
      apply Hc, in_or_app. right. left. reflexivity. }
    assert (Hcs : forall z, In z cs -> c < z).
    { inversion Hs' as [|? ? _ Hc]; subst. rewrite Forall_forall in Hc.
      intros z Hz. apply Hc, in_or_app. left. exact Hz. }
    inversion Ha as [|? ? Hac _]; subst.
    destruct Hin as [E|Hin].
    + injection E as <- <-. repeat split; try lia.
      intros j Hj [<-|Hz]; [lia|]. pose proof (Hcs j Hz). lia.
    + destruct (IH c Hs' Hin) as (Hxy & Hcx & HyL & Hgap).
      repeat split; try lia.
      intros j Hj [<-|Hz]; [lia|]. exact (Hgap j Hj Hz).
Qed.

Lemma consecutive_cons (a b : nat) (l : list nat) :
  Unique.consecutive (a :: b :: l) = (a, b) :: Unique.consecutive (b :: l).
Proof. reflexivity. Qed.

(** The ranges between neighbouring cuts, laid end to end, are all
    positions. *)
Lemma consecutive_ranges (cs : list nat) (a L : nat) :
  StronglySorted lt (a :: cs ++ [L]) ->
  concat (map (fun ab => Unique.range (fst ab) (snd ab))
              (Unique.consecutive (a :: cs ++ [L]))) = seq a (L - a).
Proof.
  revert a. induction cs as [|c cs IH]; intros a Hs.
  - simpl. rewrite app_nil_r. reflexivity.
  - cbn [app]. rewrite consecutive_cons. cbn [map concat fst snd].
    inversion Hs as [|? ? Hs' Ha]; subst.
    assert (HcL : c < L).
    { inversion Hs' as [|? ? _ Hc]; subst. rewrite Forall_forall in Hc.
      apply Hc, in_or_app. right. left. reflexivity. }
    inversion Ha as [|? ? Hac _]; subst.
    rewrite (IH c Hs'). unfold Unique.range.
    replace (L - a) with ((c - a) + (L - c)) by lia.
    rewrite seq_app. do 2 f_equal. lia.
Qed.

(** ** The index blocks of [sum_from_unique] *)

Lemma change_points_gap (sizes : list nat) (i : nat) :
  S i < length sizes -> ~ In (S i) (Unique.change_points sizes) ->
  nth i sizes 0 = nth (S i) sizes 0.
Proof.
  intros Hi Hnin. unfold Unique.change_points in Hnin.
  destruct (Nat.eqb_spec (nth i sizes 0) (nth (S i) sizes 0)) as [E|E]; [exact E|].
  exfalso. apply Hnin, in_map, filter_In. split.
  - apply in_seq. lia.
  - apply negb_true_iff, Nat.eqb_neq, E.
Qed.

Lemma consecutive_nonempty (cs : list nat) (a L : nat) :
  Unique.consecutive (a :: cs ++ [L]) <> [].
Proof. destruct cs; discriminate. Qed.

Lemma array_ok (r : list Z) (l : list (list Z)) :
  Forall (fun r' => length r' = length r) l ->
  Jnp.array (r :: l) = Ok (mk2 (r :: l) (length r)).
Proof.
  intros H. unfold Jnp.array.
  replace (forallb (fun r' => Nat.eqb (length r') (length r)) l) with true; [reflexivity|].
  symmetry. apply forallb_forall. intros r' Hr'. rewrite Forall_forall in H.
  apply Nat.eqb_eq, H, Hr'.
Qed.

Lemma blocks_of_ok (rows : list (list Z)) :
  rows <> [] -> Forall (fun g => g <> []) rows ->
  exists el,
    blocks_of rows = Ok el /\ el <> [] /\
    Forall (fun b => wf b /\ arows b <> [] /\ shape1 b <> 0) el /\
    concat (map (@arows Z) el) = rows.
Proof.
  intros Hne Hrows.
  set (sizes := map (@length Z) rows).
  assert (Hsz : length sizes = length rows) by apply length_map.
  assert (Hs : StronglySorted lt (0 :: Unique.change_points sizes ++ [length rows])).
  { rewrite <- Hsz. apply (@change_sorted sizes).
    unfold sizes. destruct rows; [contradiction|discriminate]. }
  set (pairs := Unique.consecutive (0 :: Unique.change_points sizes ++ [length rows])).
  set (g := fun ab : nat * nat =>
              mk2 (Unique.take [] rows (Unique.range (fst ab) (snd ab)))
                  (length (nth (fst ab) rows []))).
  (* within one range all index rows have the length of the first *)
  assert (Heq : forall a b, In (a, b) pairs ->
            a < b /\ b <= length rows /\
            forall i, a <= i < b -> length (nth i rows []) = length (nth a rows [])).
  { intros a b Hin. destruct (@consecutive_gap _ _ _ _ _ Hs Hin) as (Hab & _ & HbL & Hgap).
    split; [exact Hab|]. split; [exact HbL|].
    intros i Hi. induction i as [|i IH]; [replace a with 0 by lia; reflexivity|].
    destruct (Nat.eq_dec (S i) a) as [<-|Hne']; [reflexivity|].
    rewrite <- IH by lia.
    assert (E : nth i sizes 0 = nth (S i) sizes 0).
    { apply change_points_gap; [lia|]. apply Hgap. lia. }
    unfold sizes in E.
    change 0 with (length (@nil Z)) in E. rewrite !map_nth in E.
    symmetry. exact E. }
  exists (map g pairs).
  assert (Hwf : forall a b, In (a, b) pairs ->
            Forall (fun r => length r = length (nth a rows []))
                   (Unique.take [] rows (Unique.range a b))).
  { intros a b Hin. destruct (Heq a b Hin) as (Hab & HbL & Hlen).
    apply Forall_map, Forall_forall. intros i Hi. apply in_seq in Hi.
    apply Hlen. lia. }
  split; [|split; [|split]].
  - unfold blocks_of. fold sizes. cbn [app]. fold pairs.
    apply mapM_ok. apply Forall_forall. intros [a b] Hin.
    destruct (Heq a b Hin) as (Hab & HbL & Hlen).
    pose proof (Hwf a b Hin) as Hall.
    unfold g. cbn [fst snd] in *. unfold Unique.range, Unique.take in *.
    replace (b - a) with (S (b - a - 1)) in * by lia.
    cbn [seq map] in *. inversion Hall as [|? ? _ Hrest]; subst.
    apply array_ok. exact Hrest.
  - intros E. apply map_eq_nil in E. revert E. apply consecutive_nonempty.
  - apply Forall_map, Forall_forall. intros [a b] Hin.
    destruct (Heq a b Hin) as (Hab & HbL & Hlen).
    unfold g, wf, shape1. cbn [arows acols fst snd].
    split; [apply Hwf, Hin|]. split.
    + unfold Unique.range, Unique.take.
      replace (b - a) with (S (b - a - 1)) by lia. discriminate.
    + rewrite Forall_forall in Hrows.
      assert (Hr : nth a rows [] <> []) by (apply Hrows, nth_In; lia).
      destruct (nth a rows []); [contradiction|discriminate].
  - rewrite map_map. unfold g. cbn [arows].
    transitivity (Unique.take [] rows
                    (concat (map (fun ab => Unique.range (fst ab) (snd ab)) pairs))).
    + unfold Unique.take. rewrite concat_map, map_map. reflexivity.
    + unfold pairs. rewrite (@consecutive_ranges _ _ _ Hs), Nat.sub_0_r.
      apply map_nth_seq.
Qed.

(** ** Inferring [max_idx] *)

Lemma fold_left_max_bounds (lo B : Z) (l : list Z) (x : Z) :
  (lo <= x < B)%Z -> Forall (fun c => (lo <= c < B)%Z) l ->
  (lo <= fold_left Z.max l x < B)%Z.
Proof.
  intros Hx Hl. revert x Hx. induction Hl as [|c l Hc Hl IH]; intros x Hx; [exact Hx|].
  simpl. apply IH. lia.
Qed.

Lemma max_bounds (lo B : Z) (l : list Z) :
  l <> [] -> Forall (fun c => (lo <= c < B)%Z) l ->
  exists m, Jnp.max l = Ok m /\ (lo <= m < B)%Z.
Proof.
  intros Hne Hl. destruct l as [|x l]; [contradiction|].
  inversion Hl; subst. eexists. split; [reflexivity|].
  apply fold_left_max_bounds; assumption.
Qed.

Lemma filter_all {A : Type} (f : A -> bool) (l : list A) :
  Forall (fun x => f x = true) l -> filter f l = l.
Proof.
  induction 1 as [|x l Hx Hl IH]; [reflexivity|].
  simpl. rewrite Hx, IH. reflexivity.
Qed.

Lemma mapM_Forall {A B : Type} (P : B -> Prop) (f : A -> result B) (l : list A) :
  Forall (fun x => exists y, f x = Ok y /\ P y) l ->
  exists ys, mapM f l = Ok ys /\ Forall P ys /\ length ys = length l.
Proof.
  induction 1 as [|x l [y [Hy Py]] Hl (ys & Hys & Pys & Hlen)].
  - exists []. repeat split. constructor.
  - exists (y :: ys). simpl. rewrite Hy, Hys. repeat split.
    + constructor; assumption.
    + simpl. rewrite Hlen. reflexivity.
Qed.

Lemma post_init_None_ok (el : list block) (average : bool) (B : Z) :
  el <> [] ->
  Forall (fun b => wf b /\ arows b <> [] /\ shape1 b <> 0) el ->
  Forall (fun b => Forall (fun c => (0 <= c < B)%Z) (ravel b)) el ->
  exists m,
    SparseReduce.__post_init__ el average None = Ok (SparseReduce el average m) /\
    (0 <= m < B)%Z.
Proof.
  intros Hne Hel Hrange. unfold SparseReduce.__post_init__.
  rewrite filter_all.
  2:{ revert Hel. apply Forall_impl. intros b (Hwf & Hr & Hk).
      apply Nat.ltb_lt. unfold size, shape0.
      destruct (arows b); [contradiction|]. simpl. unfold shape1 in *. lia. }
  match goal with
  | |- context [mapM ?f el] =>
      destruct (@mapM_Forall _ _ (fun m => (0 <= m < B)%Z) f el)
        as (ms & Hms & Pms & Hlen)
  end.
  { rewrite Forall_forall in *. intros b Hb.
    destruct (Hel b Hb) as (Hwf & Hr & Hk).
    apply max_bounds; [|apply Hrange, Hb].
    unfold ravel. destruct (arows b) as [|r rs] eqn:E; [contradiction|].
    unfold wf in Hwf. rewrite E in Hwf. inversion Hwf; subst.
    destruct r; [unfold shape1 in Hk; simpl in *; lia|discriminate]. }
  rewrite Hms. cbn [bind].
  destruct (@max_bounds 0 B ms) as (m & Hm & Pm).
  - destruct ms; [destruct el; [contradiction|discriminate Hlen]|discriminate].
  - exact Pms.
  - rewrite Hm. cbn [bind]. exists m. split; [reflexivity|exact Pm].
Qed.

(** ** Occurrences of a value *)

Lemma filter_seq_nth {A : Type} (d : A) (f : A -> bool) (l : list A) (s : nat) :
  map (fun j => nth (j - s) l d)
      (filter (fun j => f (nth (j - s) l d)) (seq s (length l))) = filter f l.
Proof.
  revert s. induction l as [|x l IH]; intros s; [reflexivity|].
  assert (E : map (fun j => nth (j - s) (x :: l) d)
                  (filter (fun j => f (nth (j - s) (x :: l) d)) (seq (S s) (length l))) =
              filter f l).
  { rewrite <- (IH (S s)).
    rewrite (@filter_ext_in _ (fun j => f (nth (j - s) (x :: l) d))
                              (fun j => f (nth (j - S s) l d))).
    - apply map_ext_in. intros j Hj. apply filter_In in Hj as [Hj _].
      apply in_seq in Hj. replace (j - s) with (S (j - S s)) by lia. reflexivity.
    - intros j Hj. apply in_seq in Hj.
      replace (j - s) with (S (j - S s)) by lia. reflexivity. }
  cbn [length seq filter]. rewrite Nat.sub_diag.
  change (nth 0 (x :: l) d) with x.
  destruct (f x); cbn [map]; [rewrite Nat.sub_diag; change (nth 0 (x :: l) d) with x|];
    rewrite E; reflexivity.
Qed.

(** The entries at the positions [argwhere] finds are the matching
    entries. *)
Lemma argwhere_entries (input : list Qc) (u : Qc) :
  map (fun c => nth (Z.to_nat c) input 0%Qc) (Unique.argwhere_eq input u) =
  matching input u.
Proof.
  unfold Unique.argwhere_eq, matching. rewrite map_map.
  rewrite <- (filter_seq_nth 0%Qc (fun x => Qc_eq_bool x u) input 0).
  rewrite (@filter_ext _ (fun j => Qc_eq_bool (nth (j - 0) input 0%Qc) u)
                         (fun j => Qc_eq_bool (nth j input 0%Qc) u))
    by (intros j; rewrite Nat.sub_0_r; reflexivity).
  apply map_ext. intros j. rewrite Nat2Z.id, Nat.sub_0_r. reflexivity.
Qed.

Lemma argwhere_length (input : list Qc) (u : Qc) :
  length (Unique.argwhere_eq input u) = length (matching input u).
Proof. rewrite <- argwhere_entries, length_map. reflexivity. Qed.

Lemma argwhere_range (input : list Qc) (u : Qc) :
  Forall (fun c => (0 <= c < Z.of_nat (length input))%Z) (Unique.argwhere_eq input u).
Proof.
  unfold Unique.argwhere_eq. apply Forall_map, Forall_forall.
  intros j Hj. apply filter_In in Hj as [Hj _]. apply in_seq in Hj. lia.
Qed.

Lemma Qc_eq_bool_true (x y : Qc) : Qc_eq_bool x y = true <-> x = y.
Proof.
  unfold Qc_eq_bool. destruct (Qc_eq_dec x y); split; congruence.
Qed.

Lemma matching_nonempty (input : list Qc) (u : Qc) :
  In u input -> matching input u <> [].
Proof.
  intros Hin E. assert (H : In u (matching input u)).
  { apply filter_In. split; [exact Hin|]. apply Qc_eq_bool_true. reflexivity. }
  rewrite E in H. exact H.
Qed.

Lemma matching_count (input : list Qc) (u : Qc) :
  length (matching input u) = count_occ Qc_eq_dec input u.
Proof.
  unfold matching. induction input as [|x input IH]; [reflexivity|].
  cbn [filter count_occ]. unfold Qc_eq_bool at 1.
  destruct (Qc_eq_dec x u); cbn [length]; rewrite IH; reflexivity.
Qed.

Lemma matching_repeat (input : list Qc) (u : Qc) :
  matching input u = repeat u (length (matching input u)).
Proof.
  unfold matching. induction input as [|x input IH]; [reflexivity|].
  cbn [filter]. destruct (Qc_eq_bool x u) eqn:E; [|exact IH].
  apply Qc_eq_bool_true in E. subst. cbn [length repeat]. rewrite <- IH. reflexivity.
Qed.

(** ** One output row of the reduction built by [sum_from_unique] *)

Lemma row_column_of (input : list Qc) (i : nat) :
  row (Unique.column_of input) i = [nth i input 0%Qc].
Proof.
  unfold row, Unique.column_of. cbn [arows acols].
  change (repeat 0%Qc 1) with ((fun x : Qc => [x]) 0%Qc).
  apply map_nth.
Qed.

Lemma vsum_singletons (xs : list Qc) :
  Jnp.vsum 1 (map (fun x => [x]) xs) = [sumq xs].
Proof.
  unfold Jnp.vsum. induction xs as [|x xs IH]; [reflexivity|].
  cbn [map fold_right]. rewrite IH. reflexivity.
Qed.

Lemma Qc_of_nat_0 : Jnp.Qc_of_nat 0 = 0%Qc.
Proof. apply Qc_is_canon. reflexivity. Qed.

Lemma Qc_of_nat_S (k : nat) : Jnp.Qc_of_nat (S k) = (Jnp.Qc_of_nat k + 1)%Qc.
Proof.
  unfold Jnp.Qc_of_nat, of_Z, Qcplus. apply Q2Qc_eq_iff.
  cbn [this Q2Qc]. rewrite !Qred_correct.
  rewrite Nat2Z.inj_succ. unfold Z.succ. rewrite inject_Z_plus. reflexivity.
Qed.

Lemma sumq_repeat (u : Qc) (k : nat) :
  sumq (repeat u k) = (Jnp.Qc_of_nat k * u)%Qc.
Proof.
  induction k as [|k IH].
  - rewrite Qc_of_nat_0. cbn [repeat sumq fold_right]. ring.
  - cbn [repeat sumq fold_right]. fold (sumq (repeat u k)).
    rewrite IH, Qc_of_nat_S. ring.
Qed.

(** The mean of the entries equal to [u] is [u]. *)
Lemma group_value_mean (input : list Qc) (u : Qc) :
  In u input -> group_value true input u = u.
Proof.
  intros Hin. unfold group_value. rewrite (matching_repeat input u) at 1.
  rewrite sumq_repeat. field. apply Qc_of_nat_neq_0.
  intros E. apply (@matching_nonempty input u Hin). apply length_zero_iff_nil, E.
Qed.

Lemma reduce_group_argwhere (mean : bool) (input : list Qc) (u : Qc) :
  Jnp.reduce_group mean 1 (length (Unique.argwhere_eq input u))
    (map (fun i => row (Unique.column_of input)
                       (Jnp.read_index (shape0 (Unique.column_of input)) i))
         (Unique.argwhere_eq input u)) =
  [group_value mean input u].
Proof.
  assert (E : map (fun i => row (Unique.column_of input)
                                (Jnp.read_index (shape0 (Unique.column_of input)) i))
                  (Unique.argwhere_eq input u) =
              map (fun x => [x]) (matching input u)).
  { rewrite <- argwhere_entries, map_map. apply map_ext_in. intros c Hc.
    pose proof (argwhere_range input u) as Hr. rewrite Forall_forall in Hr.
    rewrite row_column_of, read_index_in_range; [reflexivity|].
    unfold shape0, Unique.column_of. cbn [arows]. rewrite length_map.
    apply Hr, Hc. }
  rewrite E, argwhere_length. unfold Jnp.reduce_group, group_value.
  rewrite vsum_singletons. destruct mean; reflexivity.
Qed.

(** ** [argsort] and [take] *)

Lemma map_fst_combine {A B : Type} (l1 : list A) (l2 : list B) :
  length l1 = length l2 -> map fst (combine l1 l2) = l1.
Proof.
  revert l2. induction l1 as [|x l1 IH]; intros [|y l2] H; simpl in *;
    try discriminate; [reflexivity|]. rewrite IH by lia. reflexivity.
Qed.

Lemma in_combine_seq {A : Type} (d : A) (l : list A) (s i : nat) (x : A) :
  In (i, x) (combine (seq s (length l)) l) ->
  s <= i < s + length l /\ nth (i - s) l d = x.
Proof.
  revert s. induction l as [|y l IH]; intros s; [intros []|].
  cbn [length seq combine]. intros [E|Hin].
  - injection E as <- <-. rewrite Nat.sub_diag. simpl. split; [lia|reflexivity].
  - destruct (IH (S s) Hin) as [Hi Hx]. split; [simpl; lia|].
    replace (i - s) with (S (i - S s)) by lia. exact Hx.
Qed.

Lemma combine_seq_sorted {A : Type} (l : list A) (s : nat) :
  StronglySorted (fun p q : nat * A => fst p < fst q) (combine (seq s (length l)) l).
Proof.
  revert s. induction l as [|y l IH]; intros s; [constructor|].
  cbn [length seq combine]. constructor; [apply IH|].
  apply Forall_forall. intros [i x] Hin.
  destruct (@in_combine_seq _ y _ _ _ _ Hin) as [Hi _]. simpl. lia.
Qed.

Lemma argsort_perm (l : list nat) : Permutation (Unique.argsort l) (seq 0 (length l)).
Proof.
  unfold Unique.argsort.
  rewrite <- (@map_fst_combine _ _ (seq 0 (length l)) l) at 2
    by (rewrite length_seq; reflexivity).
  apply Permutation_map, sort_perm.
Qed.

Lemma argsort_range (l : list nat) : Forall (fun i => i < length l) (Unique.argsort l).
Proof.
  apply Forall_forall. intros i Hi.
  apply (Permutation_in _ (argsort_perm l)) in Hi. apply in_seq in Hi. lia.
Qed.

Lemma argsort_length (l : list nat) : length (Unique.argsort l) = length l.
Proof.
  rewrite (Permutation_length (argsort_perm l)). apply length_seq.
Qed.

Lemma take_map {A B : Type} (d : A) (d' : B) (f : A -> B) (l : list A) (idx : list nat) :
  Forall (fun i => i < length l) idx ->
  Unique.take d' (map f l) idx = map f (Unique.take d l idx).
Proof.
  intros H. unfold Unique.take. rewrite map_map. apply map_ext_in.
  intros i Hi. rewrite Forall_forall in H.
  rewrite (nth_indep _ d' (f d)) by (rewrite length_map; apply H, Hi).
  apply map_nth.
Qed.

Lemma combine_take {A B : Type} (d : A) (d' : B) (l : list A) (l' : list B)
  (idx : list nat) :
  combine (Unique.take d l idx) (Unique.take d' l' idx) =
  map (fun i => (nth i l d, nth i l' d')) idx.
Proof.
  unfold Unique.take. induction idx as [|i idx IH]; [reflexivity|].
  simpl. rewrite IH. reflexivity.
Qed.

(** Positions come out of [argsort] ordered by their key, and by position
    among equal keys. *)
Lemma argsort_sorted (l : list nat) :
  StronglySorted (fun i j => nth i l 0 < nth j l 0 \/ (nth i l 0 = nth j l 0 /\ i < j))
                 (Unique.argsort l).
Proof.
  unfold Unique.argsort.
  set (ps := Unique.sort _ _).
  assert (Hin : forall p, In p ps -> snd p = nth (fst p) l 0).
  { intros [i x] Hp. apply (Permutation_in _ (sort_perm _ _)) in Hp.
    destruct (@in_combine_seq _ 0 _ _ _ _ Hp) as [_ Hx]. rewrite Nat.sub_0_r in Hx.
    symmetry. exact Hx. }
  apply StronglySorted_map with (R := by_count_then_index).
  - intros p q Hp Hq. unfold by_count_then_index.
    rewrite (Hin p Hp), (Hin q Hq). trivial.
  - apply sort_stable_sorted, combine_seq_sorted.
Qed.

(** ** [sum_from_unique] and the reduction it builds *)

Lemma unique_values (input : list Qc) :
  let un := Unique.sort Unique.Qc_leb (nodup Qc_eq_dec input) in
  Permutation un (nodup Qc_eq_dec input) /\
  (forall u, In u un -> In u input) /\
  StronglySorted Qclt un /\
  (input <> [] -> un <> []).
Proof.
  intros un. assert (Hp : Permutation un (nodup Qc_eq_dec input)) by apply sort_perm.
  split; [exact Hp|]. split; [|split].
  - intros u Hu. apply (Permutation_in _ Hp) in Hu. apply nodup_In in Hu. exact Hu.
  - apply sorted_NoDup_strict; [apply sort_Qc_sorted|].
    apply (Permutation_NoDup (Permutation_sym Hp)), NoDup_nodup.
  - intros Hne E. destruct input as [|x input]; [contradiction|].
    assert (Hx : In x (nodup Qc_eq_dec (x :: input))) by (apply nodup_In; left; reflexivity).
    apply (Permutation_in _ (Permutation_sym Hp)) in Hx. rewrite E in Hx. exact Hx.
Qed.

(** What [sum_from_unique] computes, with its index blocks cut by
    [blocks_of]. *)
Lemma sum_from_unique_unfold (input : list Qc) (mean : bool) :
  let un := Unique.sort Unique.Qc_leb (nodup Qc_eq_dec input) in
  let order := Unique.argsort (map (fun u => length (Unique.argwhere_eq input u)) un) in
  SparseReduce.sum_from_unique input mean =
  (el <- blocks_of (map (Unique.argwhere_eq input) (Unique.take 0%Qc un order)) ;;
   sr <- SparseReduce.__post_init__ el mean None ;;
   Ok (Unique.take 0%Qc un order,
       Unique.take 0 (map (count_occ Qc_eq_dec input) un) order, sr)).
Proof.
  intros un order. unfold SparseReduce.sum_from_unique, Unique.unique. fold un.
  cbv beta iota zeta. rewrite map_map. fold order.
  assert (Hr : Forall (fun i => i < length un) order).
  { pose proof (argsort_range (map (fun u => length (Unique.argwhere_eq input u)) un)) as H.
    rewrite length_map in H. exact H. }
  assert (E1 : Unique.take [] (map (Unique.argwhere_eq input) un) order =
               map (Unique.argwhere_eq input) (Unique.take 0%Qc un order))
    by (apply take_map; exact Hr).
  assert (E2 : Unique.take 0 (map (fun u => length (Unique.argwhere_eq input u)) un) order =
               map (@length Z) (map (Unique.argwhere_eq input) (Unique.take 0%Qc un order))).
  { rewrite map_map. apply (take_map 0%Qc); exact Hr. }
  assert (E3 : length (map (fun u => length (Unique.argwhere_eq input u)) un) =
               length (map (Unique.argwhere_eq input) (Unique.take 0%Qc un order))).
  { unfold Unique.take. rewrite !length_map. unfold order.
    rewrite argsort_length, length_map. reflexivity. }
  rewrite E1, E2, E3. reflexivity.
Qed.

Lemma block_rows_by_length (mean : bool) (inp : matrix) (el : list block) :
  Forall (fun b => wf b /\ arows b <> [] /\ shape1 b <> 0) el ->
  concat (map (block_rows mean inp) el) =
  map (fun g => Jnp.reduce_group mean (shape1 inp) (length g)
                  (map (fun i => row inp (Jnp.read_index (shape0 inp) i)) g))
      (concat (map (@arows Z) el)).
Proof.
  intros H. rewrite concat_map, map_map. f_equal.
  apply map_ext_in. intros b Hb. rewrite Forall_forall in H.
  destruct (H b Hb) as (Hwf & _ & Hk). unfold block_rows.
  destruct (Nat.eqb_spec (shape1 b) 0) as [?|_]; [contradiction|].
  apply map_ext_in. intros g Hg. unfold wf in Hwf. rewrite Forall_forall in Hwf.
  rewrite (Hwf g Hg). reflexivity.
Qed.

(** [sum_from_unique] on a non-empty input returns, and the reduction it
    builds, applied to the input as a column, returns one row per distinct
    value, in the order of [un_sorted]: the mean (or sum) of the entries
    equal to that value. *)
Lemma sum_from_unique_rows (input : list Qc) (mean : bool) :
  input <> [] ->
  let un := Unique.sort Unique.Qc_leb (nodup Qc_eq_dec input) in
  let order := Unique.argsort (map (fun u => length (Unique.argwhere_eq input u)) un) in
  exists idcs max_idx,
    SparseReduce.sum_from_unique input mean =
      Ok (Unique.take 0%Qc un order,
          Unique.take 0 (map (count_occ Qc_eq_dec input) un) order,
          SparseReduce idcs mean max_idx) /\
    SparseReduce.__matmul__ idcs mean max_idx (AnArray (Unique.column_of input)) =
      Ok (AnArray (mk2 (map (fun u => [group_value mean input u])
                            (Unique.take 0%Qc un order)) 1)).
Proof.
  intros Hne un order. rewrite sum_from_unique_unfold. fold un. fold order.
  destruct (unique_values input) as (Hperm & Hin & Hsorted & Hun). fold un in Hperm, Hin, Hsorted, Hun.
  set (un_sorted := Unique.take 0%Qc un order).
  assert (Hr : Forall (fun i => i < length un) order).
  { pose proof (argsort_range (map (fun u => length (Unique.argwhere_eq input u)) un)) as H.
    rewrite length_map in H. exact H. }
  assert (Hus : forall u, In u un_sorted -> In u input).
  { intros u Hu. apply in_map_iff in Hu as (i & <- & Hi). apply Hin, nth_In.
    rewrite Forall_forall in Hr. apply Hr, Hi. }
  assert (Hlen : length un_sorted = length un).
  { unfold un_sorted, Unique.take. rewrite length_map. unfold order.
    rewrite argsort_length, length_map. reflexivity. }
  destruct (@blocks_of_ok (map (Unique.argwhere_eq input) un_sorted))
    as (el & Hel & Hel_ne & Hel_ok & Hel_rows).
  { intros E. apply map_eq_nil in E. apply Hun; [exact Hne|].
    apply length_zero_iff_nil. rewrite <- Hlen, E. reflexivity. }
  { apply Forall_map, Forall_forall. intros u Hu E.
    apply (@matching_nonempty input u (Hus u Hu)).
    apply length_zero_iff_nil. rewrite <- argwhere_length, E. reflexivity. }
  rewrite Hel. cbn [bind].
  assert (Hrange : Forall (fun b => Forall (fun c => (0 <= c < Z.of_nat (length input))%Z)
                                           (ravel b)) el).
  { apply Forall_forall. intros b Hb. apply Forall_forall. intros c Hc.
    unfold ravel in Hc. apply in_concat in Hc as (g & Hg & Hc).
    assert (Hg' : In g (concat (map (@arows Z) el))).
    { apply in_concat. exists (arows b). split; [apply in_map, Hb|exact Hg]. }
    rewrite Hel_rows in Hg'. apply in_map_iff in Hg' as (u & <- & _).
    pose proof (argwhere_range input u) as H. rewrite Forall_forall in H.
    apply H, Hc. }
  destruct (@post_init_None_ok el mean (Z.of_nat (length input)) Hel_ne Hel_ok Hrange)
    as (m & Hm & Hmb).
  rewrite Hm. cbn [bind]. exists el, m. split; [reflexivity|].
  rewrite SparseReduce_matmul_rows.
  - rewrite (block_rows_by_length mean (Unique.column_of input) Hel_ok), Hel_rows.
    rewrite map_map.
    change (shape1 (Unique.column_of input)) with 1.
    rewrite (@map_ext _ _ _ (fun u => [group_value mean input u]));
      [reflexivity|].
    intros u. apply reduce_group_argwhere.
  - unfold len, shape0, Unique.column_of. cbn [arows]. rewrite length_map. lia.
  - exact Hel_ne.
  - revert Hel_ok. apply Forall_impl. intros b (H & _). exact H.
  - apply Forall_forall. intros b _. right. split; [discriminate|].
    unfold shape0, Unique.column_of. cbn [arows]. rewrite length_map.
    intros E. apply length_zero_iff_nil in E. contradiction.
Qed.

(** ** The examples of the docstrings *)

(** [tile_view(np.array([[1, 2], [3, 4]]), 2)] *)
Lemma tile_view_docstring :
  tile_view (of_ints [[1; 2]; [3; 4]]%Z 2) 2 =
  Ok (of_ints [[1; 2]; [3; 4]; [1; 2]; [3; 4]]%Z 2).
Proof. reflexivity. Qed.

(** [r1 @ inp] and [r3 @ inp] of [SparseReduce.__matmul__]. *)
Lemma SparseReduce_matmul_r1 :
  SparseReduce.__matmul__ idcs_r1 true 2 (AnArray m_3x3) =
  Ok (AnArray (MatEq.of_rats [[5 # 2; 7 # 2; 9 # 2]; [4; 5; 6]; [4; 5; 6]]%Q 3)).
Proof. eval_sparse_matmul. Qed.

Lemma SparseReduce_matmul_r3 :
  SparseReduce.__post_init__ idcs_r3 false None = Ok (SparseReduce idcs_r3 false 2) /\
  SparseReduce.__matmul__ idcs_r3 false 2 (AnArray m_3x3) =
  Ok (AnArray (of_ints [[1; 2; 3]; [1; 2; 3]; [4; 5; 6]; [4; 5; 6]; [7; 8; 9]]%Z 3)).
Proof. split; [reflexivity|eval_sparse_matmul]. Qed.

(** [sr.linmap((9, 1))] of [SparseReduce.linmap], for the reduction
    [sum_from_unique] builds from [1, 2, 3, 1, 2, 3, 1, 2, 3] with
    [mean=False]. *)
Lemma SparseReduce_linmap_docstring :
  exists un cts idcs max_idx,
    SparseReduce.sum_from_unique input_123 false =
      Ok (un, cts, SparseReduce idcs false max_idx) /\
    SparseReduce.linmap idcs false max_idx (9, 1) 0 =
      Ok (of_ints [[1; 0; 0; 1; 0; 0; 1; 0; 0];
                   [0; 1; 0; 0; 1; 0; 0; 1; 0];
                   [0; 0; 1; 0; 0; 1; 0; 0; 1]]%Z 9).
Proof.
  do 4 eexists. split; [vm_compute; reflexivity|].
  apply Ok_eqb. vm_compute. reflexivity.
Qed.

(** ** [Repeat] and [TileView] applied to a matrix *)

Lemma Repeat_matmul_array (times : Z) (M : matrix) :
  (1 < times)%Z ->
  Repeat.__matmul__ times (AnArray M) =
  Ok (AnArray (mk2 (flat_map (fun r => repeat r (Z.to_nat times)) (arows M))
                   (acols M))).
Proof.
  intros Ht. unfold Repeat.__matmul__, repeat0.
  destruct (Z.ltb_spec times 0) as [?|_]; [lia|]. reflexivity.
Qed.

(** C3, as stated, fails: [Repeat(2)] applied to the two-row matrix
    [[1],[2]] gives [[1],[1],[2],[2]]; the rows are interleaved, the result
    is not two copies laid back to back, and output row 1 is input row 0,
    not input row [1 mod 2]. *)
Lemma Repeat_not_back_to_back :
  Repeat.__post_init__ 2 = Ok (Repeat 2) /\
  exists out,
    Repeat.__matmul__ 2 (AnArray m_col12) = Ok (AnArray out) /\
    out = of_ints [[1]; [1]; [2]; [2]]%Z 1 /\
    arows out <> concat (repeat (arows m_col12) 2) /\
    nth_error (arows out) 1 <> nth_error (arows m_col12) (1 mod 2).
Proof.
  split; [reflexivity|].
  eexists. split; [reflexivity|]. split; [reflexivity|].
  split; intros H; vm_compute in H; discriminate H.
Qed.

(** C3, amended: for every matrix [M] with [n] rows and every [times > 1],
    [Repeat(times)] applied to [M] succeeds, the output has [n * times] rows
    (which is [new_len n]) and as many columns as [M], and output row [i]
    is input row [i / times] (integer division): each row is repeated
    [times] times in place. *)
Theorem Repeat_matmul_rows (times : Z) (M : matrix) :
  (1 < times)%Z ->
  exists out,
    Repeat.__post_init__ times = Ok (Repeat times) /\
    Repeat.__matmul__ times (AnArray M) = Ok (AnArray out) /\
    Z.of_nat (shape0 out) = (Z.of_nat (shape0 M) * times)%Z /\
    Z.of_nat (shape0 out) = Repeat.new_len times (Z.of_nat (shape0 M)) /\
    shape1 out = shape1 M /\
    forall i, i < shape0 out ->
      nth_error (arows out) i = nth_error (arows M) (i / Z.to_nat times).
Proof.
  intros Ht. eexists. split; [|split; [apply Repeat_matmul_array; exact Ht|]].
  { unfold Repeat.__post_init__. destruct (Z.leb_spec times 1); [lia|reflexivity]. }
  unfold shape0, shape1, Repeat.new_len. cbn [arows acols].
  rewrite length_flat_map_repeat.
  assert (Hlen : Z.of_nat (length (arows M) * Z.to_nat times) =
                 (Z.of_nat (length (arows M)) * times)%Z).
  { rewrite Nat2Z.inj_mul, Z2Nat.id by lia. reflexivity. }
  repeat split; try exact Hlen.
  intros i Hi. apply nth_error_flat_map_repeat. exact Hi.
Qed.

Lemma Repeat_matmul_rows_witness :
  exists out,
    Repeat.__post_init__ 3 = Ok (Repeat 3) /\
    Repeat.__matmul__ 3 (AnArray m_col12) = Ok (AnArray out) /\
    Z.of_nat (shape0 out) = (Z.of_nat (shape0 m_col12) * 3)%Z /\
    Z.of_nat (shape0 out) = Repeat.new_len 3 (Z.of_nat (shape0 m_col12)) /\
    shape1 out = shape1 m_col12 /\
    forall i, i < shape0 out ->
      nth_error (arows out) i = nth_error (arows m_col12) (i / Z.to_nat 3).
Proof. apply (@Repeat_matmul_rows 3 m_col12). lia. Defined.

Lemma TileView_matmul_array (result_len : Z) (M : matrix) :
  wf M -> (0 <= result_len)%Z -> shape0 M <> 0 ->
  (result_len mod Z.of_nat (shape0 M) = 0)%Z ->
  TileView.__matmul__ result_len (AnArray M) =
  Ok (AnArray (mk2 (concat (repeat (arows M)
                      (Z.to_nat (result_len / Z.of_nat (shape0 M)))))
                   (acols M))).
Proof.
  intros Hwf Hrl Hn Hmod. unfold TileView.__matmul__.
  destruct (Nat.eqb_spec (shape0 M) 0) as [?|_]; [contradiction|].
  rewrite Hmod. cbn [Z.eqb negb].
  rewrite tile_view_rows; [reflexivity|exact Hwf|].
  apply Z.div_pos; lia.
Qed.

Lemma TileView_matmul_indivisible (result_len : Z) (M : matrix) :
  (result_len mod Z.of_nat (shape0 M) <> 0)%Z ->
  is_ok (TileView.__matmul__ result_len (AnArray M)) = false.
Proof.
  intros Hmod. unfold TileView.__matmul__.
  destruct (Nat.eqb_spec (shape0 M) 0) as [?|_]; [reflexivity|].
  destruct (Z.eqb_spec (result_len mod Z.of_nat (shape0 M)) 0) as [?|_];
    [contradiction|reflexivity].
Qed.

(** C4, as stated, fails: [TileView(4)] applied to [[1],[2]] gives
    [[1],[2],[1],[2]], while [Repeat(4 / 2)] applied to the same matrix
    gives [[1],[1],[2],[2]]. *)
Lemma TileView_differs_from_Repeat :
  TileView.__post_init__ 4 = Ok (TileView 4) /\
  Repeat.__post_init__ (4 / 2) = Ok (Repeat 2) /\
  (4 mod Z.of_nat (shape0 m_col12) = 0)%Z /\
  TileView.__matmul__ 4 (AnArray m_col12) =
    Ok (AnArray (of_ints [[1]; [2]; [1]; [2]]%Z 1)) /\
  Repeat.__matmul__ (4 / 2) (AnArray m_col12) =
    Ok (AnArray (of_ints [[1]; [1]; [2]; [2]]%Z 1)) /\
  TileView.__matmul__ 4 (AnArray m_col12) <>
    Repeat.__matmul__ (4 / Z.of_nat (shape0 m_col12)) (AnArray m_col12).
Proof.
  repeat split; try reflexivity.
  intros H. vm_compute in H. discriminate H.
Qed.

(** C4, amended: applying [TileView(result_len)] to a matrix whose row
    count [n] exactly divides [result_len] yields [result_len / n] copies of
    the matrix laid back to back, so the output has [result_len] rows and
    output row [i] is input row [i mod n]; this is what [Repeat] with
    [times = result_len / n] yields when [n = 1], and in general it is not.
    In particular [TileView(6)] applied to [[1,2,3],[4,5,6]] yields the 6x3
    matrix of 3 vertical repeats of the two rows in order, and application
    fails when [result_len] is not an exact multiple of [n]. *)
Theorem TileView_matmul_tiles (result_len : Z) (M : matrix) :
  wf M -> (2 <= result_len)%Z ->
  (shape0 M <> 0 -> (result_len mod Z.of_nat (shape0 M) = 0)%Z ->
   exists out,
     TileView.__matmul__ result_len (AnArray M) = Ok (AnArray out) /\
     arows out =
       concat (repeat (arows M) (Z.to_nat (result_len / Z.of_nat (shape0 M)))) /\
     Z.of_nat (shape0 out) = result_len /\
     shape1 out = shape1 M /\
     (forall i, i < shape0 out ->
        nth_error (arows out) i = nth_error (arows M) (i mod shape0 M)) /\
     (shape0 M = 1 ->
        Repeat.__matmul__ (result_len / Z.of_nat (shape0 M)) (AnArray M) =
        Ok (AnArray out))) /\
  ((result_len mod Z.of_nat (shape0 M) <> 0)%Z ->
   is_ok (TileView.__matmul__ result_len (AnArray M)) = false) /\
  TileView.__matmul__ 6 (AnArray m_2x3) =
    Ok (AnArray (of_ints [[1; 2; 3]; [4; 5; 6];
                          [1; 2; 3]; [4; 5; 6];
                          [1; 2; 3]; [4; 5; 6]]%Z 3)).
Proof.
  intros Hwf Hrl. split; [|split; [apply TileView_matmul_indivisible|reflexivity]].
  intros Hn Hmod.
  set (n := shape0 M) in *.
  set (k := Z.to_nat (result_len / Z.of_nat n)).
  assert (Hk : (Z.of_nat k * Z.of_nat n = result_len)%Z).
  { unfold k. rewrite Z2Nat.id by (apply Z.div_pos; lia).
    pose proof (Z.div_mod result_len (Z.of_nat n)) as E.
    rewrite Hmod in E. lia. }
  eexists. split; [apply TileView_matmul_array; try assumption; lia|].
  fold n. fold k. unfold shape0 at 1 2, shape1. cbn [arows acols].
  rewrite length_concat_repeat. fold (shape0 M). fold n.
  split; [reflexivity|]. split; [lia|]. split; [reflexivity|]. split.
  - intros i Hi. apply nth_error_concat_repeat. exact Hi.
  - intros H1. rewrite Repeat_matmul_array.
    + do 3 f_equal. fold k.
      unfold n, shape0 in H1.
      destruct (arows M) as [|r [|r' rs]]; try discriminate H1.
      clear. induction k as [|k IH]; [reflexivity|].
      simpl. simpl in IH. rewrite IH. reflexivity.
    + rewrite H1. change (Z.of_nat 1) with 1%Z. rewrite Z.div_1_r. lia.
Qed.

Lemma TileView_matmul_tiles_witness :
  exists out,
    TileView.__matmul__ 4 (AnArray m_col12) = Ok (AnArray out) /\
    arows out = concat (repeat (arows m_col12) (Z.to_nat (4 / Z.of_nat (shape0 m_col12)))) /\
    Z.of_nat (shape0 out) = 4%Z.
Proof.
  assert (Hwf : wf m_col12) by (repeat constructor).
  destruct (@TileView_matmul_tiles 4 m_col12 Hwf ltac:(lia)) as [H _].
  destruct (H ltac:(discriminate) ltac:(reflexivity)) as [out (H1 & H2 & H3 & _)].
  exists out. repeat split; assumption.
Defined.

(** ** [TileView]: [linmap] agrees with application *)

Lemma matmul_unfold (a b : matrix) :
  shape1 a = shape0 b ->
  Jnp.matmul a b = Ok (mk2 (matmul_rows (arows a) b) (shape1 b)).
Proof.
  intros H. unfold Jnp.matmul. rewrite H, Nat.eqb_refl. reflexivity.
Qed.

Lemma wf_eye (n : nat) : wf (eye n).
Proof.
  unfold wf, eye. cbn [arows acols]. apply Forall_map, Forall_forall.
  intros i _. rewrite length_map, length_seq. reflexivity.
Qed.

Lemma shape0_eye (n : nat) : shape0 (eye n) = n.
Proof. unfold shape0, eye. cbn [arows]. rewrite length_map, length_seq. reflexivity. Qed.

Lemma matmul_rows_concat_repeat (rs : list (list Qc)) (k : nat) (M : matrix) :
  matmul_rows (concat (repeat rs k)) M = concat (repeat (matmul_rows rs M) k).
Proof.
  unfold matmul_rows. rewrite concat_map, map_repeat. reflexivity.
Qed.

Lemma TileView_linmap_agrees (result_len : Z) (M out : matrix) :
  wf M -> (2 <= result_len)%Z ->
  TileView.__matmul__ result_len (AnArray M) = Ok (AnArray out) ->
  exists L,
    TileView.linmap result_len (shape M) 0 = Ok L /\ Jnp.matmul L M = Ok out.
Proof.
  intros Hwf Hrl Hm.
  destruct (Nat.eq_dec (shape0 M) 0) as [H0|H0].
  { unfold TileView.__matmul__ in Hm. rewrite H0 in Hm. discriminate Hm. }
  destruct (Z.eq_dec (result_len mod Z.of_nat (shape0 M)) 0) as [Hmod|Hmod].
  2:{ pose proof (TileView_matmul_indivisible result_len M Hmod) as E.
      rewrite Hm in E. discriminate E. }
  rewrite TileView_matmul_array in Hm by (try assumption; lia).
  injection Hm as <-.
  unfold TileView.linmap. cbn [shape shape_at fst bind].
  destruct (Nat.eqb_spec (shape0 M) 0) as [?|_]; [contradiction|].
  rewrite tile_view_rows by (try apply wf_eye; apply Z.div_pos; lia).
  eexists. split; [reflexivity|].
  rewrite matmul_unfold by reflexivity. cbn [arows].
  rewrite matmul_rows_concat_repeat, eye_matmul_rows by exact Hwf.
  reflexivity.
Qed.

(** ** [SparseReduce]: output length, composition, preconditions *)

(** C1 fails on [SparseReduce].  With the index blocks [r2] of the
    docstring, built with [max_idx] inferred, applying the reduction to the
    3x3 matrix of the docstring gives the three rows the docstring shows,
    while [new_len 3] is [len(self.idcs)], the number of blocks, 2.  The
    row count [linmap] computes for the same blocks is 3. *)
Theorem SparseReduce_new_len_is_block_count :
  SparseReduce.__post_init__ idcs_r2 true None = Ok (SparseReduce idcs_r2 true 2) /\
  SparseReduce.__matmul__ idcs_r2 true 2 (AnArray m_3x3) =
    Ok (AnArray (MatEq.of_rats [[5 # 2; 7 # 2; 9 # 2]; [4; 5; 6]; [4; 5; 6]]%Q 3)) /\
  shape0 (MatEq.of_rats [[5 # 2; 7 # 2; 9 # 2]; [4; 5; 6]; [4; 5; 6]]%Q 3) = 3 /\
  SparseReduce.new_len idcs_r2 2 (Z.of_nat (shape0 m_3x3)) = Ok 2%Z /\
  Base.new_len (SparseReduce idcs_r2 true 2) 3 = Ok 2%Z /\
  list_sum (map (@len Z) idcs_r2) = 3.
Proof.
  split; [reflexivity|]. split; [apply SparseReduce_matmul_r2|repeat split].
Qed.

(** [Repeat] and [TileView] do keep the contract of C1: the matrix they
    produce has [new_len n] rows. *)
Lemma Repeat_TileView_new_len (R : AbstractReduce) (M out : matrix) :
  (exists t, R = Repeat t /\ (1 < t)%Z) \/ (exists rl, R = TileView rl /\ (2 <= rl)%Z) ->
  wf M ->
  Base.matmul R (AnArray M) = Ok (AnArray out) ->
  Base.new_len R (Z.of_nat (shape0 M)) = Ok (Z.of_nat (shape0 out)).
Proof.
  intros [[t [-> Ht]]|[result_len [-> Hrl]]] Hwf Hm; cbn [Base.matmul Base.new_len] in *.
  - rewrite Repeat_matmul_array in Hm by exact Ht. injection Hm as <-.
    unfold Repeat.new_len, shape0. cbn [arows].
    rewrite length_flat_map_repeat, Nat2Z.inj_mul, Z2Nat.id by lia. reflexivity.
  - unfold TileView.new_len.
    destruct (Z.eq_dec (result_len mod Z.of_nat (shape0 M)) 0) as [Hmod|Hmod].
    + destruct (Nat.eq_dec (shape0 M) 0) as [H0|H0].
      * unfold TileView.__matmul__ in Hm. rewrite H0 in Hm. discriminate Hm.
      * rewrite TileView_matmul_array in Hm by (try assumption; lia).
        injection Hm as <-. unfold shape0 at 1. cbn [arows].
        rewrite length_concat_repeat. fold (shape0 M).
        rewrite Nat2Z.inj_mul, Z2Nat.id by (apply Z.div_pos; lia).
        pose proof (Z.div_mod result_len (Z.of_nat (shape0 M))) as E.
        rewrite Hmod in E. f_equal. lia.
    + pose proof (TileView_matmul_indivisible result_len M Hmod) as E.
      rewrite Hm in E. discriminate E.
Qed.

(** [Repeat] and [TileView] applied to a reduction give the deferred
    composition. *)
Lemma Repeat_TileView_chain (r : AbstractReduce) (times result_len : Z) :
  Repeat.__matmul__ times (AReduce r) =
    Ok (AReduce (ChainedReduce [Repeat times; r])) /\
  TileView.__matmul__ result_len (AReduce r) =
    Ok (AReduce (ChainedReduce [TileView result_len; r])).
Proof. split; reflexivity. Qed.

(** C5 fails on [SparseReduce]: its [__matmul__] has no branch for a
    reduction on the right.  Applying the reduction with blocks [[[0]]] to
    [Repeat(2)] raises, and for no reduction on the right is a
    [ChainedReduce], or anything else, returned. *)
Theorem SparseReduce_matmul_reduction_raises :
  SparseReduce.__post_init__ idcs_row0 true None = Ok (SparseReduce idcs_row0 true 0) /\
  Repeat.__post_init__ 2 = Ok (Repeat 2) /\
  SparseReduce.__matmul__ idcs_row0 true 0 (AReduce (Repeat 2)) =
    Raise (TypeError "object has no len()") /\
  Base.matmul (SparseReduce idcs_row0 true 0) (AReduce (Repeat 2)) <>
    Ok (AReduce (ChainedReduce [SparseReduce idcs_row0 true 0; Repeat 2])) /\
  forall idcs average max_idx r,
    is_ok (SparseReduce.__matmul__ idcs average max_idx (AReduce r)) = false.
Proof.
  repeat split; try reflexivity. discriminate.
Qed.

(** *** The errors [__matmul__] can raise past its length test *)

Lemma mapM_raise {A B : Type} (P : exn -> Prop) (f : A -> result B) (l : list A) (e : exn) :
  (forall x e', f x = Raise e' -> P e') -> mapM f l = Raise e -> P e.
Proof.
  intros Hf. induction l as [|x l IH]; simpl; [discriminate|].
  destruct (f x) as [y|e'] eqn:Hx; cbn [bind].
  - destruct (mapM f l) as [ys|e'']; cbn [bind]; [discriminate|].
    intros E. injection E as <-. apply IH. reflexivity.
  - intros E. injection E as <-. eapply Hf, Hx.
Qed.

Lemma reduce_block_raise (average : bool) (inp : matrix) (blk : block) (e : exn) :
  SparseReduce.reduce_block average inp blk = Raise e -> not_too_short e.
Proof.
  unfold SparseReduce.reduce_block, Jnp.take_rows, Jnp.reshape_reduce, not_too_short.
  repeat match goal with
         | |- context [if ?b then _ else _] => destruct b; cbn [bind]
         end; intros E; inversion E; discriminate.
Qed.

Lemma concatenate0_raise {A : Type} (l : list (array2 A)) (e : exn) :
  concatenate0 l = Raise e -> not_too_short e.
Proof.
  unfold concatenate0, not_too_short. destruct l as [|a l].
  - intros E. inversion E. discriminate.
  - destruct (forallb _ l); intros E; inversion E. discriminate.
Qed.

Lemma SparseReduce_matmul_guard (idcs : list block) (average : bool) (max_idx : Z)
  (M : matrix) :
  (max_idx + 1 <= Z.of_nat (len M))%Z ->
  SparseReduce.__matmul__ idcs average max_idx (AnArray M) <>
  Raise (ValueError "SparseReduce expects a longer gram to operate on").
Proof.
  intros Hlen. unfold SparseReduce.__matmul__.
  destruct (Z.gtb_spec (max_idx + 1) (Z.of_nat (len M))) as [?|_]; [lia|].
  destruct (mapM _ idcs) as [rval|e] eqn:Hmap; cbn [bind].
  - destruct (concatenate0 rval) as [out|e] eqn:Hc; cbn [bind]; [discriminate|].
    intros E. injection E as E. apply (concatenate0_raise _ Hc). exact E.
  - intros E. injection E as E.
    refine (mapM_raise not_too_short _ _ _ Hmap E).
    intros blk e'. apply reduce_block_raise.
Qed.

Lemma SparseReduce_linmap_mismatch (idcs : list block) (average : bool) (max_idx : Z)
  (inp_shape : nat * nat) (axis n : nat) :
  shape_at inp_shape axis = Ok n -> Z.of_nat n <> (max_idx + 1)%Z ->
  SparseReduce.linmap idcs average max_idx inp_shape axis =
  Raise (ValueError "Input shape does not match reduction assumptions").
Proof.
  intros Hs Hn. unfold SparseReduce.linmap. rewrite Hs. cbn [bind].
  destruct (Z.eqb_spec (Z.of_nat n) (max_idx + 1)) as [?|_]; [contradiction|].
  reflexivity.
Qed.

(** C10: [SparseReduce.linmap] raises whenever the input shape along the
    reduced axis is not exactly [max_idx + 1]; [__matmul__] of the same
    reduction passes its length test on every matrix with [max_idx + 1] or
    more rows (and then returns a result whenever there is an index block,
    every index block is well-formed and has a row, and the matrix has a
    row and a column).  So whenever [linmap] accepts a shape, [__matmul__] accepts the
    row count, and not the other way round: on a matrix with more than
    [max_idx + 1] rows [linmap] raises; for the one-row block naming input
    row 0 and a two-row matrix, [__matmul__] returns and [linmap] raises. *)
Theorem SparseReduce_linmap_stricter_than_matmul
  (idcs : list block) (average : bool) (max_idx : Z) :
  (forall inp_shape axis n,
      shape_at inp_shape axis = Ok n -> Z.of_nat n <> (max_idx + 1)%Z ->
      SparseReduce.linmap idcs average max_idx inp_shape axis =
      Raise (ValueError "Input shape does not match reduction assumptions")) /\
  (forall M : matrix, (max_idx + 1 <= Z.of_nat (len M))%Z ->
      SparseReduce.__matmul__ idcs average max_idx (AnArray M) <>
      Raise (ValueError "SparseReduce expects a longer gram to operate on")) /\
  (forall M : matrix, (max_idx + 1 <= Z.of_nat (len M))%Z ->
      idcs <> [] -> Forall (fun blk => wf blk /\ shape0 blk <> 0) idcs ->
      shape0 M <> 0 -> shape1 M <> 0 ->
      is_ok (SparseReduce.__matmul__ idcs average max_idx (AnArray M)) = true) /\
  (forall M : matrix, (max_idx + 1 < Z.of_nat (len M))%Z ->
      is_ok (SparseReduce.linmap idcs average max_idx (shape M) 0) = false) /\
  (forall M : matrix, is_ok (SparseReduce.linmap idcs average max_idx (shape M) 0) = true ->
      (max_idx + 1 <= Z.of_nat (len M))%Z) /\
  (is_ok (SparseReduce.__matmul__ idcs_row0 true 0 (AnArray m_col57)) = true /\
   is_ok (SparseReduce.linmap idcs_row0 true 0 (shape m_col57) 0) = false).
Proof.
  split; [intros; eapply SparseReduce_linmap_mismatch; eassumption|].
  split; [intros; apply SparseReduce_matmul_guard; assumption|].
  split; [|split; [|split]].
  - intros M Hlen Hne Hwf Hr Hm.
    rewrite SparseReduce_matmul_rows; try assumption; [reflexivity| |].
    + revert Hwf. apply Forall_impl. intros blk [H _]. exact H.
    + apply Forall_forall. intros; right; split; assumption.
  - intros M Hlen.
    rewrite (@SparseReduce_linmap_mismatch idcs average max_idx (shape M) 0 (shape0 M));
      [reflexivity|reflexivity|]. unfold len in Hlen. lia.
  - intros M Hok.
    destruct (Z.eq_dec (Z.of_nat (shape0 M)) (max_idx + 1)) as [E|E].
    + unfold len. lia.
    + rewrite (@SparseReduce_linmap_mismatch idcs average max_idx (shape M) 0 (shape0 M))
        in Hok; [discriminate Hok|reflexivity|exact E].
  - split; reflexivity.
Qed.

Lemma SparseReduce_linmap_stricter_than_matmul_witness :
  SparseReduce.linmap idcs_r2 true 2 (shape m_col57) 0 =
    Raise (ValueError "Input shape does not match reduction assumptions") /\
  SparseReduce.__matmul__ idcs_r2 true 2 (AnArray m_3x3) <>
    Raise (ValueError "SparseReduce expects a longer gram to operate on") /\
  is_ok (SparseReduce.__matmul__ idcs_r2 true 2 (AnArray m_3x3)) = true /\
  is_ok (SparseReduce.linmap idcs_row0 true 0 (shape m_3x3) 0) = false /\
  (2 + 1 <= Z.of_nat (len m_3x3))%Z.
Proof.
  destruct (SparseReduce_linmap_stricter_than_matmul idcs_r2 true 2)
    as (H1 & H2 & H3 & _ & H5 & _).
  destruct (SparseReduce_linmap_stricter_than_matmul idcs_row0 true 0)
    as (_ & _ & _ & H4 & _).
  split; [apply (H1 (shape m_col57) 0 2); [reflexivity|discriminate]|].
  split; [apply (H2 m_3x3); vm_compute; discriminate|].
  split; [apply (H3 m_3x3);
            [vm_compute; discriminate|discriminate| |discriminate|discriminate]|].
  { repeat (apply Forall_cons; [split; [repeat constructor|discriminate]|]).
    constructor. }
  split; [apply (H4 m_3x3); reflexivity|].
  apply (H5 m_3x3). reflexivity.
Defined.

(** ** [linmap] against application *)

Lemma mapM_ok_inv {A B : Type} (f : A -> result B) (l : list A) (ys : list B) :
  mapM f l = Ok ys ->
  Forall (fun x => is_ok (f x) = true) l /\ length ys = length l.
Proof.
  revert ys. induction l as [|x l IH]; intros ys.
  - intros E. injection E as <-. split; [constructor|reflexivity].
  - simpl. destruct (f x) as [y|e] eqn:Hx; cbn [bind]; [|discriminate].
    destruct (mapM f l) as [ys'|e]; cbn [bind]; [|discriminate].
    intros E. injection E as <-. destruct (IH ys' eq_refl) as [H1 H2].
    split; [constructor; [rewrite Hx; reflexivity|exact H1]|simpl; rewrite H2; reflexivity].
Qed.

Lemma reduce_block_ok_inv (average : bool) (inp : matrix) (blk : block) :
  is_ok (SparseReduce.reduce_block average inp blk) = true ->
  gather_ok inp blk.
Proof.
  unfold SparseReduce.reduce_block, Jnp.take_rows, Jnp.reshape_reduce, gather_ok.
  destruct (Nat.eqb_spec (shape1 blk) 0) as [Hk|Hk]; [left; exact Hk|].
  destruct (Nat.eqb_spec (shape0 inp) 0) as [?|Hrows]; cbn [bind];
    [discriminate|].
  intros H. right. split; [|exact Hrows]. intros Hm.
  unfold shape1 at 1 in H. cbn [acols] in H. fold (shape1 inp) in H.
  rewrite Hm, Nat.mul_0_r in H. discriminate H.
Qed.

Lemma SparseReduce_matmul_ok_inv (idcs : list block) (average : bool) (max_idx : Z)
  (M : matrix) (x : ReduceOrArray) :
  SparseReduce.__matmul__ idcs average max_idx (AnArray M) = Ok x ->
  (max_idx + 1 <= Z.of_nat (len M))%Z /\ idcs <> [] /\
  Forall (gather_ok M) idcs.
Proof.
  unfold SparseReduce.__matmul__.
  destruct (Z.gtb_spec (max_idx + 1) (Z.of_nat (len M))) as [?|Hlen]; [discriminate|].
  destruct (mapM _ idcs) as [rval|e] eqn:Hmap; cbn [bind]; [|discriminate].
  apply mapM_ok_inv in Hmap as [Hall Hlen'].
  destruct (concatenate0 rval) as [out|e] eqn:Hc; cbn [bind]; [|discriminate].
  intros _. split; [exact Hlen|]. split.
  - intros ->. destruct rval; [discriminate Hc|discriminate Hlen'].
  - revert Hall. apply Forall_impl. intros blk. apply reduce_block_ok_inv.
Qed.

Lemma SparseReduce_linmap_agrees (idcs : list block) (average : bool) (max_idx : Z)
  (M : matrix) :
  wf M -> Z.of_nat (shape0 M) = (max_idx + 1)%Z ->
  Forall (block_ok (shape0 M)) idcs ->
  linmap_agrees (SparseReduce idcs average max_idx) M.
Proof.
  intros Hwf Hn Hok out Hm. cbn [Base.matmul Base.linmap] in *.
  assert (Hwfs : Forall wf idcs).
  { revert Hok. apply Forall_impl. intros blk [H _]. exact H. }
  destruct (SparseReduce_matmul_ok_inv _ _ _ _ Hm) as (Hlen & Hne & Hcols).
  rewrite SparseReduce_matmul_rows in Hm by assumption.
  injection Hm as <-.
  rewrite SparseReduce_linmap_rows by assumption. cbn [shape fst].
  eexists. split; [reflexivity|].
  rewrite matmul_unfold by reflexivity. cbn [arows].
  assert (E : matmul_rows (concat (map (lin_block_rows average (shape0 M)) idcs)) M =
              concat (map (block_rows average M) idcs)).
  { unfold matmul_rows at 1. rewrite concat_map, map_map. f_equal.
    apply map_ext_in. intros blk Hin. rewrite Forall_forall in Hok.
    apply (lin_block_matmul average Hwf (Hok blk Hin)). }
  rewrite E. reflexivity.
Qed.

(** C2, as stated, fails on [SparseReduce].  Applied to a matrix with more
    than [max_idx + 1] rows, the reduction returns and [linmap] raises on
    that matrix's shape.  And with a group that names an input row twice,
    the summing reduction counts the row twice while [linmap] writes the
    weight once: on [[5],[7]] the rows 0, 0 and 1 sum to 17, and [linmap]
    gives [[1, 1]], whose product with the matrix is 12. *)
Lemma SparseReduce_linmap_disagrees :
  (Base.linearizable (SparseReduce idcs_row0 true 0) = true /\
   SparseReduce.__post_init__ idcs_row0 true None = Ok (SparseReduce idcs_row0 true 0) /\
   Base.matmul (SparseReduce idcs_row0 true 0) (AnArray m_col57) =
     Ok (AnArray (of_ints [[5]]%Z 1)) /\
   Base.linmap (SparseReduce idcs_row0 true 0) (shape m_col57) 0 =
     Raise (ValueError "Input shape does not match reduction assumptions") /\
   ~ linmap_agrees (SparseReduce idcs_row0 true 0) m_col57) /\
  (SparseReduce.__post_init__ idcs_twice false None = Ok (SparseReduce idcs_twice false 1) /\
   Base.matmul (SparseReduce idcs_twice false 1) (AnArray m_col57) =
     Ok (AnArray (of_ints [[17]]%Z 1)) /\
   Base.linmap (SparseReduce idcs_twice false 1) (shape m_col57) 0 =
     Ok (of_ints [[1; 1]]%Z 2) /\
   Jnp.matmul (of_ints [[1; 1]]%Z 2) m_col57 = Ok (of_ints [[12]]%Z 1) /\
   ~ linmap_agrees (SparseReduce idcs_twice false 1) m_col57).
Proof.
  assert (H1 : Base.matmul (SparseReduce idcs_row0 true 0) (AnArray m_col57) =
               Ok (AnArray (of_ints [[5]]%Z 1))).
  { cbn [Base.matmul]. unfold idcs_row0.
    eval_sparse_matmul. }
  assert (H2 : Base.matmul (SparseReduce idcs_twice false 1) (AnArray m_col57) =
               Ok (AnArray (of_ints [[17]]%Z 1))).
  { cbn [Base.matmul]. unfold idcs_twice.
    eval_sparse_matmul. }
  assert (H3 : Base.linmap (SparseReduce idcs_twice false 1) (shape m_col57) 0 =
               Ok (of_ints [[1; 1]]%Z 2)).
  { cbn [Base.linmap]. rewrite SparseReduce_linmap_rows;
      [|repeat constructor|reflexivity].
    apply Ok_eqb. vm_compute. reflexivity. }
  assert (H4 : Jnp.matmul (of_ints [[1; 1]]%Z 2) m_col57 = Ok (of_ints [[12]]%Z 1)).
  { rewrite matmul_unfold by reflexivity.
    apply Ok_eqb. vm_compute. reflexivity. }
  split.
  - split; [reflexivity|]. split; [reflexivity|]. split; [exact H1|].
    split; [reflexivity|].
    intros H. destruct (H _ H1) as [L [HL _]]. discriminate HL.
  - split; [reflexivity|]. split; [exact H2|]. split; [exact H3|]. split; [exact H4|].
    intros H. destruct (H _ H2) as [L [HL HM]].
    rewrite H3 in HL. injection HL as <-. rewrite H4 in HM.
    injection HM as HM. discriminate HM.
Qed.

(** C2, amended: for every well-formed matrix [M] on which application
    succeeds, applying the reduction yields the same matrix as
    left-multiplying [M] by [linmap(M.shape)] (in exact arithmetic)
    - for every [TileView],
    - for every [LinearReduce], and
    - for every [SparseReduce] such that [M] has exactly [max_idx + 1] rows
      and every index row names rows of [M], none of them twice. *)
Theorem linmap_matches_application (M : matrix) :
  wf M ->
  (forall result_len, (2 <= result_len)%Z -> linmap_agrees (TileView result_len) M) /\
  (forall linear_map, linmap_agrees (LinearReduce linear_map) M) /\
  (forall idcs average max_idx,
      Z.of_nat (shape0 M) = (max_idx + 1)%Z ->
      Forall (block_ok (shape0 M)) idcs ->
      linmap_agrees (SparseReduce idcs average max_idx) M).
Proof.
  intros Hwf. split; [|split].
  - intros rl Hrl out Hm. cbn [Base.matmul Base.linmap] in *.
    apply TileView_linmap_agrees; assumption.
  - intros L0 out Hm. cbn [Base.matmul Base.linmap] in *.
    exists L0. split; [reflexivity|].
    destruct (Jnp.matmul L0 M) as [o|e]; cbn [bind] in Hm; [|discriminate Hm].
    injection Hm as <-. reflexivity.
  - intros idcs average max_idx Hn Hok.
    apply SparseReduce_linmap_agrees; assumption.
Qed.

Lemma linmap_matches_application_witness :
  linmap_agrees (TileView 6) m_2x3 /\
  linmap_agrees (SparseReduce idcs_r2 true 2) m_3x3 /\
  exists L,
    Base.linmap (SparseReduce idcs_r2 true 2) (shape m_3x3) 0 = Ok L /\
    Jnp.matmul L m_3x3 =
      Ok (MatEq.of_rats [[5 # 2; 7 # 2; 9 # 2]; [4; 5; 6]; [4; 5; 6]]%Q 3).
Proof.
  assert (Hwf2 : wf m_2x3) by (repeat constructor).
  assert (Hwf3 : wf m_3x3) by (repeat constructor).
  assert (Hok : Forall (block_ok (shape0 m_3x3)) idcs_r2).
  { repeat constructor; try (cbn; lia); try (intros H; cbn in H; intuition discriminate). }
  destruct (linmap_matches_application Hwf2) as (Ht & _ & _).
  destruct (linmap_matches_application Hwf3) as (_ & _ & Hs).
  split; [apply Ht; lia|].
  split; [apply Hs; [reflexivity|exact Hok]|].
  apply (Hs idcs_r2 true 2%Z eq_refl Hok).
  apply SparseReduce_matmul_r2.
Defined.

(** ** The round trip through [sum_from_unique] *)

Lemma sizes_are_counts (input un : list Qc) :
  map (fun u => length (Unique.argwhere_eq input u)) un =
  map (count_occ Qc_eq_dec input) un.
Proof.
  apply map_ext. intros u. rewrite argwhere_length. apply matching_count.
Qed.

(** The order of the output: by multiplicity, and among values of one
    multiplicity in ascending order, the order in which [np.unique] lists
    them. *)
Lemma sum_from_unique_order (input : list Qc) :
  let un := Unique.sort Unique.Qc_leb (nodup Qc_eq_dec input) in
  let cts := map (count_occ Qc_eq_dec input) un in
  let order := Unique.argsort (map (fun u => length (Unique.argwhere_eq input u)) un) in
  Permutation (Unique.take 0%Qc un order) (nodup Qc_eq_dec input) /\
  Unique.take 0 cts order = map (count_occ Qc_eq_dec input) (Unique.take 0%Qc un order) /\
  StronglySorted by_count_then_value
    (combine (Unique.take 0 cts order) (Unique.take 0%Qc un order)).
Proof.
  intros un cts order.
  destruct (unique_values input) as (Hperm & Hin & Hsorted & _).
  fold un in Hperm, Hin, Hsorted.
  assert (Horder : order = Unique.argsort cts).
  { unfold order. rewrite sizes_are_counts. reflexivity. }
  assert (Hlen : length cts = length un) by apply length_map.
  assert (Hr : Forall (fun i => i < length un) order).
  { rewrite Horder, <- Hlen. apply argsort_range. }
  split; [|split].
  - rewrite <- Hperm. unfold Unique.take.
    transitivity (map (fun i => nth i un 0%Qc) (seq 0 (length un)));
      [|rewrite map_nth_seq; reflexivity].
    apply Permutation_map. rewrite Horder, <- Hlen. apply argsort_perm.
  - apply take_map. exact Hr.
  - rewrite combine_take.
    apply StronglySorted_map
      with (R := fun i j => nth i cts 0 < nth j cts 0 \/
                            (nth i cts 0 = nth j cts 0 /\ i < j));
      [|rewrite Horder; apply argsort_sorted].
    intros i j Hi Hj [Hlt|[Heq Hij]]; unfold by_count_then_value; cbn [fst snd].
    + left. exact Hlt.
    + right. split; [exact Heq|].
      rewrite Forall_forall in Hr.
      apply (StronglySorted_nth 0%Qc Hsorted). split; [exact Hij|apply Hr, Hj].
Qed.

(** C6: for the input [1,2,3,1,2,3,1,2,3] with averaging on,
    [sum_from_unique] returns unique values [1,2,3], counts [3,3,3] and a
    [SparseReduce] (index block [[0,3,6],[1,4,7],[2,5,8]]) that, applied to
    the input as a column, yields [[1],[2],[3]].  In general, for every
    non-empty input, [sum_from_unique] returns, and applying the reduction
    it builds to the column of the input yields one row per distinct value:
    the mean (which is the value itself) or the sum of the entries equal to
    it.  The rows come in the order of the returned unique values, which is
    by multiplicity and, among values of equal multiplicity, ascending (the
    order in which [np.unique] finds them), not by value: for
    [5,1,5,2,5,1,7] the values come as [2,7,1,5] with counts [1,1,2,3] and
    sums [[2],[7],[2],[15]]. *)
Theorem sum_from_unique_round_trip (input : list Qc) (mean : bool) :
  input <> [] ->
  (exists un_sorted cts_sorted idcs max_idx,
     SparseReduce.sum_from_unique input mean =
       Ok (un_sorted, cts_sorted, SparseReduce idcs mean max_idx) /\
     SparseReduce.__matmul__ idcs mean max_idx (AnArray (Unique.column_of input)) =
       Ok (AnArray (mk2 (map (fun u => [group_value mean input u]) un_sorted) 1)) /\
     Forall (fun u => group_value true input u = u) un_sorted /\
     Permutation un_sorted (nodup Qc_eq_dec input) /\
     cts_sorted = map (count_occ Qc_eq_dec input) un_sorted /\
     StronglySorted by_count_then_value (combine cts_sorted un_sorted)) /\
  (SparseReduce.sum_from_unique input_123 true =
     Ok (map of_Z [1; 2; 3]%Z, [3; 3; 3],
         SparseReduce [mk2 [[0; 3; 6]; [1; 4; 7]; [2; 5; 8]]%Z 3] true 8) /\
   SparseReduce.__matmul__ [mk2 [[0; 3; 6]; [1; 4; 7]; [2; 5; 8]]%Z 3] true 8
       (AnArray (Unique.column_of input_123)) =
     Ok (AnArray (of_ints [[1]; [2]; [3]]%Z 1))) /\
  (SparseReduce.sum_from_unique input_5152517 false =
     Ok (map of_Z [2; 7; 1; 5]%Z, [1; 1; 2; 3],
         SparseReduce [mk2 [[3]; [6]]%Z 1; mk2 [[1; 5]]%Z 2; mk2 [[0; 2; 4]]%Z 3]
                      false 6) /\
   SparseReduce.__matmul__ [mk2 [[3]; [6]]%Z 1; mk2 [[1; 5]]%Z 2; mk2 [[0; 2; 4]]%Z 3]
       false 6 (AnArray (Unique.column_of input_5152517)) =
     Ok (AnArray (of_ints [[2]; [7]; [2]; [15]]%Z 1))).
Proof.
  intros Hne. split; [|split].
  - destruct (sum_from_unique_rows mean Hne) as (idcs & max_idx & Hs & Hm).
    destruct (sum_from_unique_order input) as (Hperm & Hcts & Hsorted).
    do 4 eexists. split; [exact Hs|]. split; [exact Hm|].
    split; [|split; [exact Hperm|split; [exact Hcts|exact Hsorted]]].
    apply Forall_forall. intros u Hu. apply group_value_mean.
    apply (Permutation_in _ Hperm) in Hu. apply nodup_In in Hu. exact Hu.
  - split; [vm_compute; reflexivity|].
    eval_sparse_matmul.
  - split; [vm_compute; reflexivity|].
    eval_sparse_matmul.
Qed.

Lemma sum_from_unique_round_trip_witness :
  exists un_sorted cts_sorted idcs max_idx,
    SparseReduce.sum_from_unique input_5152517 true =
      Ok (un_sorted, cts_sorted, SparseReduce idcs true max_idx) /\
    SparseReduce.__matmul__ idcs true max_idx
        (AnArray (Unique.column_of input_5152517)) =
      Ok (AnArray (mk2 (map (fun u => [group_value true input_5152517 u]) un_sorted) 1)) /\
    Forall (fun u => group_value true input_5152517 u = u) un_sorted.
Proof.
  destruct (@sum_from_unique_round_trip input_5152517 true) as [H _]; [discriminate|].
  destruct H as (un_sorted & cts_sorted & idcs & max_idx & H1 & H2 & H3 & _).
  exists un_sorted, cts_sorted, idcs, max_idx. repeat split; assumption.
Defined.

(** ** RKHS vectors *)

Section RkhsFacts.

Variable Kernel : Type.
Variable kernel_eqb : Kernel -> Kernel -> bool.
Variable cross_covariance :
  Kernel -> Rkhs.InspPts Kernel -> Rkhs.InspPts Kernel -> result matrix.

Local Abbreviation RkhsVec := (Rkhs.RkhsVec Kernel).
Local Abbreviation matmul := (Rkhs.__matmul__ kernel_eqb cross_covariance).
Local Abbreviation pairwise_dot := (Rkhs.__pairwise_dot__ kernel_eqb cross_covariance).

Lemma pairwise_dot_kernel_mismatch (v1 v2 : RkhsVec) :
  kernel_eqb (Rkhs.k v1) (Rkhs.k v2) = false ->
  pairwise_dot v1 v2 =
  Raise (TypeError "Trying to compute inner products between elements of different RKHSs (Kernel types do not match)").
Proof.
  intros Hk. unfold Rkhs.__pairwise_dot__. rewrite Hk. reflexivity.
Qed.

(** C9: the matrix product of two RKHS vectors raises whenever both have
    the same orientation, and the inner product of a row with a column
    raises whenever their kernels are not equal; so a result is returned
    only for operands of different orientation and, when it is a matrix of
    inner products, only for equal kernels. *)
Theorem RkhsVec_matmul_raises (v1 v2 : RkhsVec) :
  (Rkhs.transpose v1 = Rkhs.transpose v2 ->
   matmul v1 v2 =
   Raise (ValueError "Trying to compute matrix product between two row vectors or two column vectors")) /\
  (Rkhs.is_rowvec v1 = true -> Rkhs.is_colvec v2 = true ->
   kernel_eqb (Rkhs.k v1) (Rkhs.k v2) = false ->
   matmul v1 v2 =
   Raise (TypeError "Trying to compute inner products between elements of different RKHSs (Kernel types do not match)") /\
   pairwise_dot v1 v2 = 
   Raise (TypeError "Trying to compute inner products between elements of different RKHSs (Kernel types do not match)")) /\
  (forall res, matmul v1 v2 = Ok res ->
   Rkhs.transpose v1 <> Rkhs.transpose v2 /\
   (forall a, res = Rkhs.AMatrix Kernel a ->
      Rkhs.is_rowvec v1 = true /\ Rkhs.is_colvec v2 = true /\
      kernel_eqb (Rkhs.k v1) (Rkhs.k v2) = true)).
Proof.
  unfold Rkhs.__matmul__, Rkhs.is_rowvec, Rkhs.is_colvec.
  split; [|split].
  - intros ->. rewrite Bool.eqb_reflx. reflexivity.
  - intros H1 H2 Hk. rewrite H1. apply negb_true_iff in H2. rewrite H2.
    cbn [Bool.eqb negb andb]. rewrite (pairwise_dot_kernel_mismatch _ _ Hk).
    split; reflexivity.
  - intros res.
    destruct (Rkhs.transpose v1) eqn:H1, (Rkhs.transpose v2) eqn:H2;
      cbn [Bool.eqb negb andb]; try discriminate.
    + destruct (kernel_eqb (Rkhs.k v1) (Rkhs.k v2)) eqn:Hk.
      * intros _. split; [discriminate|]. intros; repeat split.
      * rewrite (pairwise_dot_kernel_mismatch _ _ Hk). discriminate.
    + destruct (Rkhs.__tensor_prod__ v1 v2) as [v|e]; cbn [bind];
        [|discriminate].
      intros E. injection E as <-. split; [discriminate|]. discriminate.
Qed.

(** *** Building a [CombinationVec] *)



End RkhsFacts.

Lemma RkhsVec_matmul_raises_witness :
  Toy.__matmul__ Toy.col_a Toy.col_b =
    Raise (ValueError "Trying to compute matrix product between two row vectors or two column vectors") /\
  Toy.__matmul__ Toy.row_a Toy.col_b' =
    Raise (TypeError "Trying to compute inner products between elements of different RKHSs (Kernel types do not match)") /\
  Rkhs.transpose Toy.row_a <> Rkhs.transpose Toy.col_b.
Proof.
  split; [|split].
  - apply (RkhsVec_matmul_raises Toy.kernel_eqb Toy.cross_covariance
             Toy.col_a Toy.col_b). reflexivity.
  - apply (RkhsVec_matmul_raises Toy.kernel_eqb Toy.cross_covariance
             Toy.row_a Toy.col_b'); reflexivity.
  - eapply (RkhsVec_matmul_raises Toy.kernel_eqb Toy.cross_covariance
              Toy.row_a Toy.col_b). vm_compute. reflexivity.
Defined.


(** ** The sum of a product, and the inner product *)

Lemma transpose_transpose (a : matrix) :
  wf a -> Np.transpose 0%Qc (Np.transpose 0%Qc a) = a.
Proof.
  intros Hwf. destruct a as [rows m]. unfold Np.transpose, shape0. cbn [arows acols].
  rewrite length_map, length_seq. f_equal.
  transitivity (map (fun i => nth i rows []) (seq 0 (length rows)));
    [|apply map_nth_seq].
  apply map_ext_in. intros i Hi. apply in_seq in Hi.
  assert (Hr : length (nth i rows []) = m).
  { unfold wf in Hwf. cbn [arows acols] in Hwf. rewrite Forall_forall in Hwf.
    apply Hwf, nth_In. lia. }
  rewrite map_map.
  transitivity (map (fun j => nth j (nth i rows []) 0%Qc) (seq 0 m));
    [|rewrite <- Hr; apply map_nth_seq].
  apply map_ext. intros j. apply (column_nth (mk2 rows m) i j).
Qed.

Section InnerProduct.

Variable Kernel : Type.
Variable kernel_eqb : Kernel -> Kernel -> bool.
Variable cross_covariance :
  Kernel -> Rkhs.InspPts Kernel -> Rkhs.InspPts Kernel -> result matrix.

Local Abbreviation RkhsVec := (Rkhs.RkhsVec Kernel).
Local Abbreviation transposed_matmul :=
  (Rkhs.transposed_matmul kernel_eqb cross_covariance).

Lemma transposed_matmul_is_matrix (v1 v2 : RkhsVec) (x : Rkhs.MatrixOrVec Kernel) :
  Rkhs.transpose v2 = false ->
  transposed_matmul v1 v2 = Ok x -> exists a, x = Rkhs.AMatrix Kernel a.
Proof.
  intros H2. unfold Rkhs.transposed_matmul, Rkhs.T.
  destruct (Rkhs.insp_pts v1) as [ip|e]; cbn [bind]; [|discriminate].
  unfold Rkhs.__matmul__, Rkhs.is_rowvec, Rkhs.is_colvec.
  cbn [Rkhs.transpose]. rewrite H2.
  destruct (Rkhs.transpose v1); cbn [negb Bool.eqb andb].
  - discriminate.
  - destruct (Rkhs.__pairwise_dot__ _ _ _ _) as [a|e]; cbn [bind]; [|discriminate].
    intros E. injection E as <-. exists a. reflexivity.
Qed.

Lemma transposed_matmul_gram (v1 v2 : RkhsVec) (a1 a2 gram : matrix) :
  Rkhs.transpose v1 = false -> Rkhs.transpose v2 = false ->
  kernel_eqb (Rkhs.k v1) (Rkhs.k v2) = true ->
  Rkhs.insp_pts v1 = Ok (Rkhs.Atoms Kernel a1) ->
  Rkhs.insp_pts v2 = Ok (Rkhs.Atoms Kernel a2) ->
  Rkhs.reduce v1 = Identity -> Rkhs.reduce v2 = Identity ->
  cross_covariance (Rkhs.k v1) (Rkhs.Atoms Kernel a1) (Rkhs.Atoms Kernel a2) = Ok gram ->
  wf gram ->
  transposed_matmul v1 v2 = Ok (Rkhs.AMatrix Kernel gram).
Proof.
  intros H1 H2 Hk Hp1 Hp2 Hr1 Hr2 Hg Hwf.
  unfold Rkhs.transposed_matmul, Rkhs.T. rewrite Hp1. cbn [bind].
  unfold Rkhs.__matmul__, Rkhs.is_rowvec, Rkhs.is_colvec.
  cbn [Rkhs.transpose]. rewrite H1, H2. cbn [negb Bool.eqb andb].
  unfold Rkhs.__pairwise_dot__. cbn [Rkhs.k Rkhs.insp_pts Rkhs.reduce].
  rewrite Hk, Hp2. cbn [negb bind]. rewrite Hg. cbn [bind].
  rewrite Hr1, Hr2. unfold Rkhs.apply_reduce. cbn [Base.matmul bind].
  rewrite transpose_transpose by exact Hwf. reflexivity.
Qed.

(** C7: the product [v1 * v2] raises for every two RKHS vectors, since it
    calls [ProductVec], so [(v1 * v2).sum()] is never evaluated and has no
    value to compare.  The other side is there: for two column vectors with
    the same kernel, whatever [v1.T @ v2] returns is a matrix, and for
    vectors with the identity reduction over point arrays it is the
    kernel's Gram matrix of the two point sets. *)
Theorem product_raises_and_inner_product (v1 v2 : RkhsVec) :
  Rkhs.__mul__ v1 v2 =
    Raise (TypeError "non-default argument 'rkhs_vecs' follows default argument") /\
  (Rkhs.transpose v1 = false -> Rkhs.transpose v2 = false ->
   kernel_eqb (Rkhs.k v1) (Rkhs.k v2) = true ->
   (forall x, transposed_matmul v1 v2 = Ok x -> exists a, x = Rkhs.AMatrix Kernel a) /\
   (forall a1 a2 gram,
      Rkhs.insp_pts v1 = Ok (Rkhs.Atoms Kernel a1) ->
      Rkhs.insp_pts v2 = Ok (Rkhs.Atoms Kernel a2) ->
      Rkhs.reduce v1 = Identity -> Rkhs.reduce v2 = Identity ->
      cross_covariance (Rkhs.k v1) (Rkhs.Atoms Kernel a1) (Rkhs.Atoms Kernel a2) =
        Ok gram ->
      wf gram ->
      transposed_matmul v1 v2 = Ok (Rkhs.AMatrix Kernel gram))).
Proof.
  split; [reflexivity|].
  intros H1 H2 Hk. split.
  - intros x. apply transposed_matmul_is_matrix. exact H2.
  - intros a1 a2 gram Hp1 Hp2 Hr1 Hr2 Hg Hwf.
    apply (@transposed_matmul_gram v1 v2 a1 a2 gram); assumption.
Qed.

End InnerProduct.

Lemma product_raises_and_inner_product_witness :
  is_ok (Rkhs.__mul__ Toy.col_a Toy.col_b) = false /\
  Toy.transposed_matmul Toy.col_a Toy.col_b = Ok (Rkhs.AMatrix Toy.Kernel (zeros 2 2)).
Proof.
  destruct (@product_raises_and_inner_product Toy.Kernel Toy.kernel_eqb
              Toy.cross_covariance Toy.col_a Toy.col_b) as [H1 H2].
  split; [rewrite H1; reflexivity|].
  destruct (H2 eq_refl eq_refl eq_refl) as [_ H3].
  apply (H3 m_col12 m_col57 (zeros 2 2)); try reflexivity. repeat constructor.
Defined.

(** ** Further properties of [tile_view] and [TileView.linmap] *)

Lemma concat_repeat_mul {A : Type} (l : list A) (a b : nat) :
  concat (repeat (concat (repeat l a)) b) = concat (repeat l (b * a)).
Proof.
  induction b as [|b IH]; [reflexivity|].
  cbn [repeat concat Nat.mul]. rewrite IH, repeat_app, concat_app. reflexivity.
Qed.

Lemma wf_tiled (inp : matrix) (k : nat) :
  wf inp -> wf (mk2 (concat (repeat (arows inp) k)) (acols inp)).
Proof. intros H. unfold wf. cbn [arows acols]. apply Forall_concat_repeat, H. Qed.

(** X1: tiling composes.  Tiling a matrix [a] times and the result [b]
    times is tiling the matrix [b * a] times. *)
Theorem tile_view_compose (inp : matrix) (a b : Z) :
  wf inp -> (0 <= a)%Z -> (0 <= b)%Z ->
  (t <- tile_view inp a ;; tile_view t b) = tile_view inp (b * a).
Proof.
  intros Hwf Ha Hb.
  rewrite (tile_view_rows Hwf Ha). cbn [bind].
  rewrite tile_view_rows by (try apply wf_tiled; assumption).
  rewrite (@tile_view_rows inp (b * a)) by (try assumption; nia).
  cbn [arows acols]. rewrite concat_repeat_mul, Z2Nat.inj_mul by lia.
  reflexivity.
Qed.

Lemma tile_view_compose_witness :
  (t <- tile_view m_2x3 2 ;; tile_view t 3) = tile_view m_2x3 (3 * 2).
Proof.
  apply (@tile_view_compose m_2x3 2 3); [repeat constructor|lia|lia].
Defined.

(** X2: on a matrix of [n] rows and [c] columns [tile_view] raises for a
    negative repetition count and otherwise returns a matrix of
    [reps * n] rows and [c] columns; one repetition gives the matrix back,
    and none gives a matrix of no row. *)
Theorem tile_view_shape (inp : matrix) (reps : Z) :
  wf inp ->
  ((reps < 0)%Z -> is_ok (tile_view inp reps) = false) /\
  ((0 <= reps)%Z ->
   exists out,
     tile_view inp reps = Ok out /\ wf out /\
     shape0 out = Z.to_nat reps * shape0 inp /\ shape1 out = shape1 inp /\
     (reps = 1%Z -> out = inp) /\
     (reps = 0%Z -> arows out = [])).
Proof.
  intros Hwf. split.
  - intros Hneg. unfold tile_view, broadcast_to.
    destruct (Z.ltb_spec reps 0) as [_|?]; [reflexivity|lia].
  - intros Hreps. eexists. split; [apply (tile_view_rows Hwf Hreps)|].
    split; [apply wf_tiled, Hwf|].
    unfold shape0, shape1. cbn [arows acols].
    rewrite length_concat_repeat.
    split; [reflexivity|]. split; [reflexivity|]. split.
    + intros ->. change (Z.to_nat 1) with 1. cbn [repeat concat].
      rewrite app_nil_r. destruct inp; reflexivity.
    + intros ->. reflexivity.
Qed.

Lemma tile_view_shape_witness :
  exists out,
    tile_view m_2x3 3 = Ok out /\ wf out /\
    shape0 out = Z.to_nat 3 * shape0 m_2x3 /\ shape1 out = shape1 m_2x3.
Proof.
  assert (Hwf : wf m_2x3) by (repeat constructor).
  destruct (@tile_view_shape m_2x3 3 Hwf) as [_ H].
  destruct (H ltac:(lia)) as [out (H1 & H2 & H3 & H4 & _)].
  exists out. repeat split; assumption.
Defined.

(** X3: [TileView.linmap] does not test divisibility.  For an input of
    [n >= 1] rows it returns [result_len // n] copies of the [n]x[n]
    identity laid end to end: row [i] has its one at column [i mod n].
    The matrix has [result_len] rows exactly when [n] divides
    [result_len]; when it does not, the matrix is shorter and application
    to any matrix of [n] rows raises. *)
Theorem TileView_linmap_rows (result_len : Z) (inp_shape : nat * nat) (axis n : nat) :
  shape_at inp_shape axis = Ok n -> n <> 0 -> (0 <= result_len)%Z ->
  exists L,
    TileView.linmap result_len inp_shape axis = Ok L /\
    shape0 L = Z.to_nat (result_len / Z.of_nat n) * n /\ shape1 L = n /\
    (forall i, i < shape0 L ->
       nth_error (arows L) i =
       Some (map (fun j => if Nat.eqb (i mod n) j then 1%Qc else 0%Qc) (seq 0 n))) /\
    (shape0 L = Z.to_nat result_len <-> (result_len mod Z.of_nat n = 0)%Z) /\
    ((result_len mod Z.of_nat n <> 0)%Z ->
     forall M, shape0 M = n ->
       is_ok (TileView.__matmul__ result_len (AnArray M)) = false).
Proof.
  intros Hax Hn Hrl. unfold TileView.linmap. rewrite Hax. cbn [bind].
  destruct (Nat.eqb_spec n 0) as [?|_]; [contradiction|].
  assert (Hq : (0 <= result_len / Z.of_nat n)%Z) by (apply Z.div_pos; lia).
  rewrite tile_view_rows by (try apply wf_eye; assumption).
  eexists. split; [reflexivity|].
  unfold shape0, shape1. cbn [arows acols].
  rewrite length_concat_repeat.
  assert (He : length (arows (eye n)) = n) by apply shape0_eye.
  rewrite He.
  split; [reflexivity|]. split; [reflexivity|].
  pose proof (Z.div_mod result_len (Z.of_nat n) ltac:(lia)) as Hdm.
  pose proof (Z.mod_pos_bound result_len (Z.of_nat n) ltac:(lia)) as Hmb.
  split; [|split].
  - intros i Hi. rewrite nth_error_concat_repeat by (rewrite He; exact Hi).
    rewrite He. unfold eye. cbn [arows].
    assert (Hlt : i mod n < n) by (apply Nat.mod_upper_bound; exact Hn).
    rewrite nth_error_map, nth_error_nth' with (d := 0) by (rewrite length_seq; exact Hlt).
    rewrite seq_nth by exact Hlt. reflexivity.
  - split; intros H.
    + apply (f_equal Z.of_nat) in H.
      rewrite Nat2Z.inj_mul, !Z2Nat.id in H by lia. lia.
    + rewrite H, Z.add_0_r in Hdm. rewrite Hdm at 2.
      rewrite Z2Nat.inj_mul, Nat2Z.id by lia. lia.
  - intros Hmod M <-. apply TileView_matmul_indivisible. exact Hmod.
Qed.

Lemma TileView_linmap_rows_witness :
  exists L,
    TileView.linmap 5 (2, 3) 0 = Ok L /\
    shape0 L = Z.to_nat (5 / Z.of_nat 2) * 2 /\ shape1 L = 2 /\
    is_ok (TileView.__matmul__ 5 (AnArray m_2x3)) = false.
Proof.
  destruct (@TileView_linmap_rows 5 (2, 3) 0 2 eq_refl ltac:(discriminate) ltac:(lia))
    as [L (H1 & H2 & H3 & _ & _ & H6)].
  exists L. split; [exact H1|]. split; [exact H2|]. split; [exact H3|].
  apply H6; [discriminate|reflexivity].
Defined.

(** ** Further properties of [SparseReduce] *)

(** *** The [max_idx] that [__post_init__] infers *)

Lemma fold_left_max_spec (l : list Z) (x : Z) :
  (fold_left Z.max l x = x \/ In (fold_left Z.max l x) l) /\
  (x <= fold_left Z.max l x)%Z /\
  Forall (fun c => (c <= fold_left Z.max l x)%Z) l.
Proof.
  revert x. induction l as [|c l IH]; intros x.
  - simpl. split; [left; reflexivity|]. split; [lia|constructor].
  - simpl. destruct (IH (Z.max x c)) as (Hin & Hle & Hall).
    split; [|split].
    + destruct Hin as [E|Hin]; [|right; right; exact Hin].
      rewrite E. destruct (Z.max_spec x c) as [[_ ->]|[_ ->]]; [right|]; auto.
    + lia.
    + constructor; [lia|exact Hall].
Qed.

Lemma max_spec (l : list Z) :
  l <> [] ->
  exists m, Jnp.max l = Ok m /\ In m l /\ Forall (fun c => (c <= m)%Z) l.
Proof.
  destruct l as [|x l]; [contradiction|]. intros _.
  destruct (fold_left_max_spec l x) as (Hin & Hle & Hall).
  eexists. split; [reflexivity|]. split.
  - destruct Hin as [->|Hin]; [left; reflexivity|right; exact Hin].
  - constructor; assumption.
Qed.

Lemma size_ravel {A : Type} (b : array2 A) : wf b -> size b = length (ravel b).
Proof.
  intros H. unfold size, ravel. symmetry. apply length_concat_wf, H.
Qed.

Lemma concat_ravel_filter (idcs : list block) :
  Forall wf idcs ->
  concat (map (@ravel Z) (filter (fun i => Nat.ltb 0 (size i)) idcs)) =
  concat (map (@ravel Z) idcs).
Proof.
  induction 1 as [|b idcs Hb Hrest IH]; [reflexivity|].
  cbn [filter map concat]. rewrite (size_ravel Hb).
  destruct (ravel b) as [|c cs] eqn:E; cbn [length Nat.ltb Nat.leb].
  - exact IH.
  - cbn [map concat]. rewrite E. f_equal. exact IH.
Qed.

Lemma mapM_max_spec (bs : list block) :
  Forall (fun b => ravel b <> []) bs ->
  exists ms,
    mapM (fun i => Jnp.max (ravel i)) bs = Ok ms /\ length ms = length bs /\
    Forall (fun m => In m (concat (map (@ravel Z) bs))) ms /\
    Forall (fun c => Exists (fun m => (c <= m)%Z) ms) (concat (map (@ravel Z) bs)).
Proof.
  induction 1 as [|b bs Hb Hbs (ms & Hms & Hlen & Hin & Hub)].
  - exists []. repeat split; constructor.
  - destruct (max_spec Hb) as (m & Hm & Hmin & Hmub).
    exists (m :: ms). cbn [mapM map concat]. rewrite Hm, Hms. cbn [bind].
    split; [reflexivity|]. split; [simpl; rewrite Hlen; reflexivity|]. split.
    + constructor; [apply in_or_app; left; exact Hmin|].
      revert Hin. apply Forall_impl. intros c Hc. apply in_or_app. right. exact Hc.
    + apply Forall_app. split.
      * revert Hmub. apply Forall_impl. intros c Hc. left. exact Hc.
      * revert Hub. apply Forall_impl. intros c Hc. right. exact Hc.
Qed.

Lemma post_init_infer (idcs : list block) (average : bool) :
  Forall wf idcs ->
  (concat (map (@ravel Z) idcs) = [] ->
   is_ok (SparseReduce.__post_init__ idcs average None) = false) /\
  (concat (map (@ravel Z) idcs) <> [] ->
   exists m,
     SparseReduce.__post_init__ idcs average None = Ok (SparseReduce idcs average m) /\
     In m (concat (map (@ravel Z) idcs)) /\
     Forall (fun c => (c <= m)%Z) (concat (map (@ravel Z) idcs))).
Proof.
  intros Hwf. unfold SparseReduce.__post_init__.
  pose proof (concat_ravel_filter Hwf) as Hcat.
  set (bs := filter (fun i => Nat.ltb 0 (size i)) idcs) in *.
  assert (Hbs : Forall (fun b => ravel b <> []) bs).
  { apply Forall_forall. intros b Hb. apply filter_In in Hb as [Hb Hs].
    rewrite Forall_forall in Hwf. rewrite (size_ravel (Hwf b Hb)) in Hs.
    intros E. rewrite E in Hs. discriminate Hs. }
  destruct (mapM_max_spec Hbs) as (ms & Hms & Hlen & Hin & Hub).
  rewrite Hms. cbn [bind]. rewrite Hcat in Hin, Hub. split.
  - intros Hnil. destruct ms as [|m ms]; [reflexivity|].
    inversion Hin as [|? ? Hm _]; subst. rewrite Hnil in Hm. destruct Hm.
  - intros Hne. destruct ms as [|m0 ms0] eqn:Ems.
    + destruct (concat (map (@ravel Z) idcs)) as [|c cs]; [contradiction|].
      inversion Hub as [|? ? Hc _]; subst. inversion Hc.
    + rewrite <- Ems in *. assert (Hms' : ms <> []) by (rewrite Ems; discriminate).
      destruct (max_spec Hms') as (m & Hm & Hmin & Hmub).
      rewrite Hm. cbn [bind]. exists m. split; [reflexivity|]. split.
      * rewrite Forall_forall in Hin. apply Hin, Hmin.
      * revert Hub. apply Forall_impl. intros c Hc.
        apply Exists_exists in Hc as (m' & Hm' & Hle).
        rewrite Forall_forall in Hmub. specialize (Hmub m' Hm'). lia.
Qed.

(** X4: the [max_idx] that [SparseReduce.__post_init__] infers.  When no
    index block holds an index, construction without [max_idx] raises;
    otherwise the reduction is built with the greatest index of all blocks:
    an index that occurs in a block and that no index of any block
    exceeds. *)
Theorem SparseReduce_post_init_infers_max (idcs : list block) (average : bool) :
  Forall wf idcs ->
  (concat (map (@ravel Z) idcs) = [] ->
   is_ok (SparseReduce.__post_init__ idcs average None) = false) /\
  (concat (map (@ravel Z) idcs) <> [] ->
   exists m,
     SparseReduce.__post_init__ idcs average None = Ok (SparseReduce idcs average m) /\
     In m (concat (map (@ravel Z) idcs)) /\
     Forall (fun c => (c <= m)%Z) (concat (map (@ravel Z) idcs))).
Proof. exact (@post_init_infer idcs average). Qed.

Lemma SparseReduce_post_init_infers_max_witness :
  exists m,
    SparseReduce.__post_init__ idcs_r2 true None = Ok (SparseReduce idcs_r2 true m) /\
    In m (concat (map (@ravel Z) idcs_r2)) /\
    Forall (fun c => (c <= m)%Z) (concat (map (@ravel Z) idcs_r2)).
Proof.
  assert (Hwf : Forall wf idcs_r2) by (repeat constructor).
  destruct (@SparseReduce_post_init_infers_max idcs_r2 true Hwf) as [_ H].
  apply H. discriminate.
Defined.

(** *** When application returns, and the shape of what it returns *)

Lemma reduce_group_length (average : bool) (m k : nat) (g : list (list Qc)) :
  Forall (fun r => length r = m) g ->
  length (Jnp.reduce_group average m k g) = m.
Proof.
  intros Hg. unfold Jnp.reduce_group. rewrite (vsum_map_seq Hg).
  destruct average; rewrite ?length_map, length_seq; reflexivity.
Qed.

Lemma block_rows_wf (average : bool) (inp : matrix) (blk : block) :
  wf inp -> Forall (fun r => length r = shape1 inp) (block_rows average inp blk).
Proof.
  intros Hwf. unfold block_rows.
  destruct (Nat.eqb (shape1 blk) 0).
  - apply Forall_forall. intros r Hr. apply repeat_spec in Hr. subst r.
    apply repeat_length.
  - apply Forall_map, Forall_forall. intros g _.
    apply reduce_group_length. apply Forall_map, Forall_forall. intros i _.
    apply row_length, Hwf.
Qed.

Lemma gather_ok_cols (inp : matrix) (idcs : list block) :
  Forall (gather_ok inp) idcs ->
  Forall (fun blk => shape1 blk = 0 \/ shape1 inp <> 0) idcs.
Proof.
  apply Forall_impl. intros blk [H|[H _]]; [left|right]; exact H.
Qed.

(** A block with a row and a column holds an index; when the indices lie
    in [0 .. max_idx], a matrix of [max_idx + 1] rows or more has a row. *)
Lemma gather_ok_in_range (idcs : list block) (max_idx : Z) (inp : matrix) :
  Forall (fun blk => wf blk /\ shape0 blk <> 0) idcs ->
  Forall (fun c => (0 <= c <= max_idx)%Z) (concat (map (@ravel Z) idcs)) ->
  (max_idx + 1 <= Z.of_nat (len inp))%Z ->
  Forall (fun blk => shape1 blk = 0 \/ shape1 inp <> 0) idcs ->
  Forall (gather_ok inp) idcs.
Proof.
  intros Hok Hr Hlen Hcols. rewrite Forall_forall in *. intros blk Hb.
  destruct (Nat.eq_dec (shape1 blk) 0) as [Hk|Hk]; [left; exact Hk|].
  right. destruct (Hcols blk Hb) as [?|Hc]; [contradiction|].
  split; [exact Hc|].
  destruct (Hok blk Hb) as [Hwf Hrows].
  unfold wf, shape0, shape1 in *.
  destruct (arows blk) as [|r rows] eqn:E; [contradiction Hrows; reflexivity|].
  inversion Hwf as [|? ? Hlr _]; subst.
  destruct r as [|c r]; [simpl in Hlr; congruence|].
  assert (Hin : In c (concat (map (@ravel Z) idcs))).
  { apply in_concat. exists (ravel blk). split; [apply in_map, Hb|].
    unfold ravel. rewrite E. left. reflexivity. }
  specialize (Hr c Hin). unfold len, shape0 in Hlen. lia.
Qed.

(** X5: when application of a [SparseReduce] to a matrix returns.  For
    well-formed index blocks that each have a row and whose indices lie in
    [0 .. max_idx], application returns exactly when the matrix has at
    least [max_idx + 1] rows, there is at least one index block, and the
    matrix has a column unless every block is without columns.  What it
    returns is a matrix with one row per index row of every block, the row
    count [linmap] computes, and with the columns of the input. *)
Theorem SparseReduce_matmul_returns_iff (idcs : list block) (average : bool)
  (max_idx : Z) (inp : matrix) :
  Forall (fun blk => wf blk /\ shape0 blk <> 0) idcs ->
  Forall (fun c => (0 <= c <= max_idx)%Z) (concat (map (@ravel Z) idcs)) ->
  (is_ok (SparseReduce.__matmul__ idcs average max_idx (AnArray inp)) = true <->
   (max_idx + 1 <= Z.of_nat (len inp))%Z /\ idcs <> [] /\
   Forall (fun blk => shape1 blk = 0 \/ shape1 inp <> 0) idcs) /\
  (forall x,
     SparseReduce.__matmul__ idcs average max_idx (AnArray inp) = Ok x ->
     exists out,
       x = AnArray out /\
       shape0 out = list_sum (map (@len Z) idcs) /\
       shape1 out = shape1 inp /\
       (wf inp -> wf out)).
Proof.
  intros Hok Hr.
  assert (Hwf : Forall wf idcs).
  { revert Hok. apply Forall_impl. intros blk [H _]. exact H. }
  split; [split|].
  - destruct (SparseReduce.__matmul__ idcs average max_idx (AnArray inp)) as [x|e] eqn:E;
      [|discriminate].
    intros _. destruct (SparseReduce_matmul_ok_inv _ _ _ _ E) as (Hlen & Hne & Hg).
    split; [exact Hlen|]. split; [exact Hne|]. apply gather_ok_cols, Hg.
  - intros (Hlen & Hne & Hcols).
    pose proof (@gather_ok_in_range idcs max_idx inp Hok Hr Hlen Hcols) as Hg.
    rewrite SparseReduce_matmul_rows by assumption. reflexivity.
  - intros x E.
    destruct (SparseReduce_matmul_ok_inv _ _ _ _ E) as (Hlen & Hne & Hcols).
    rewrite SparseReduce_matmul_rows in E by assumption. injection E as <-.
    eexists. split; [reflexivity|]. unfold shape0 at 1, shape1 at 1. cbn [arows acols].
    split; [apply length_concat_map_block_rows|]. split; [reflexivity|].
    intros Hinp. unfold wf. cbn [arows acols].
    apply Forall_concat. apply Forall_map, Forall_forall. intros blk _.
    apply block_rows_wf, Hinp.
Qed.

Lemma SparseReduce_matmul_returns_iff_witness :
  is_ok (SparseReduce.__matmul__ idcs_r2 true 2 (AnArray m_3x3)) = true <->
  (2 + 1 <= Z.of_nat (len m_3x3))%Z /\ idcs_r2 <> [] /\
  Forall (fun blk => shape1 blk = 0 \/ shape1 m_3x3 <> 0) idcs_r2.
Proof.
  assert (Hok : Forall (fun blk : block => wf blk /\ shape0 blk <> 0) idcs_r2).
  { repeat (apply Forall_cons; [split; [repeat constructor|discriminate]|]).
    constructor. }
  assert (Hr : Forall (fun c => (0 <= c <= 2)%Z) (concat (map (@ravel Z) idcs_r2))).
  { cbn. repeat (apply Forall_cons; [lia|]). constructor. }
  exact (proj1 (@SparseReduce_matmul_returns_iff idcs_r2 true 2 m_3x3 Hok Hr)).
Defined.

(** *** Application is linear in the matrix *)

Lemma vadd_maps {A : Type} (F G : A -> Qc) (l : list A) :
  Jnp.vadd (map F l) (map G l) = map (fun x => (F x + G x)%Qc) l.
Proof.
  unfold Jnp.vadd. induction l as [|x l IH]; [reflexivity|].
  simpl. f_equal. exact IH.
Qed.

Lemma vadd_length (u v : list Qc) (m : nat) :
  length u = m -> length v = m -> length (Jnp.vadd u v) = m.
Proof.
  intros Hu Hv. unfold Jnp.vadd. rewrite length_map, length_combine. lia.
Qed.

Lemma vadd_nth (u v : list Qc) (j : nat) :
  length u = length v ->
  nth j (Jnp.vadd u v) 0%Qc = (nth j u 0 + nth j v 0)%Qc.
Proof.
  revert v j. induction u as [|x u IH]; intros [|y v] j H; try discriminate H.
  - destruct j; simpl; ring.
  - destruct j; [reflexivity|]. simpl. apply IH. simpl in H. lia.
Qed.

Lemma vadd_zeros (m : nat) :
  Jnp.vadd (repeat 0%Qc m) (repeat 0%Qc m) = repeat 0%Qc m.
Proof.
  unfold Jnp.vadd. induction m as [|m IH]; [reflexivity|].
  simpl. rewrite IH. f_equal.
Qed.

Lemma vadd_map_additive (f : Qc -> Qc) (u v : list Qc) :
  (forall x y, f (x + y)%Qc = (f x + f y)%Qc) ->
  map f (Jnp.vadd u v) = Jnp.vadd (map f u) (map f v).
Proof.
  intros Hf. unfold Jnp.vadd. revert v.
  induction u as [|x u IH]; intros [|y v]; simpl; try reflexivity.
  rewrite Hf, IH. reflexivity.
Qed.

Lemma sumq_add {A : Type} (F G : A -> Qc) (l : list A) :
  sumq (map (fun x => (F x + G x)%Qc) l) = (sumq (map F l) + sumq (map G l))%Qc.
Proof.
  induction l as [|x l IH]; simpl; [ring|]. rewrite IH. ring.
Qed.

Lemma sumq_scale {A : Type} (c : Qc) (F : A -> Qc) (l : list A) :
  sumq (map (fun x => (c * F x)%Qc) l) = (c * sumq (map F l))%Qc.
Proof.
  induction l as [|x l IH]; simpl; [ring|]. rewrite IH. ring.
Qed.

Lemma combine_maps {A B C : Type} (F : A -> B) (G : A -> C) (l : list A) :
  combine (map F l) (map G l) = map (fun x => (F x, G x)) l.
Proof. induction l as [|x l IH]; [reflexivity|]. simpl. rewrite IH. reflexivity. Qed.

Lemma combine_repeat {A B : Type} (x : A) (y : B) (n : nat) :
  combine (repeat x n) (repeat y n) = repeat (x, y) n.
Proof. induction n as [|n IH]; [reflexivity|]. simpl. rewrite IH. reflexivity. Qed.

Lemma nth_scale (c : Qc) (r : list Qc) (j : nat) :
  nth j (map (Qcmult c) r) 0%Qc = (c * nth j r 0)%Qc.
Proof.
  replace 0%Qc with (c * 0)%Qc at 1 by ring. apply map_nth.
Qed.

Lemma scale_zeros (c : Qc) (m : nat) : map (Qcmult c) (repeat 0%Qc m) = repeat 0%Qc m.
Proof. rewrite map_repeat. f_equal. ring. Qed.

Lemma reduce_group_add {A : Type} (average : bool) (m k : nat)
  (a b : A -> list Qc) (g : list A) :
  (forall i, length (a i) = m) -> (forall i, length (b i) = m) ->
  Jnp.reduce_group average m k (map (fun i => Jnp.vadd (a i) (b i)) g) =
  Jnp.vadd (Jnp.reduce_group average m k (map a g))
           (Jnp.reduce_group average m k (map b g)).
Proof.
  intros Ha Hb.
  assert (E : Jnp.vsum m (map (fun i => Jnp.vadd (a i) (b i)) g) =
              Jnp.vadd (Jnp.vsum m (map a g)) (Jnp.vsum m (map b g))).
  { rewrite !vsum_map_seq.
    2,3,4: apply Forall_map, Forall_forall; intros i _; auto using vadd_length.
    rewrite vadd_maps. apply map_ext. intros j. rewrite !map_map.
    rewrite <- sumq_add. f_equal. apply map_ext. intros i.
    apply vadd_nth. rewrite Ha, Hb. reflexivity. }
  unfold Jnp.reduce_group. destruct average; [|exact E].
  rewrite E. apply vadd_map_additive. intros x y. unfold Qcdiv. ring.
Qed.

Lemma reduce_group_scale {A : Type} (average : bool) (m k : nat) (c : Qc)
  (a : A -> list Qc) (g : list A) :
  (forall i, length (a i) = m) ->
  Jnp.reduce_group average m k (map (fun i => map (Qcmult c) (a i)) g) =
  map (Qcmult c) (Jnp.reduce_group average m k (map a g)).
Proof.
  intros Ha.
  assert (E : Jnp.vsum m (map (fun i => map (Qcmult c) (a i)) g) =
              map (Qcmult c) (Jnp.vsum m (map a g))).
  { rewrite !vsum_map_seq.
    2,3: apply Forall_map, Forall_forall; intros i _; rewrite ?length_map; auto.
    rewrite map_map. apply map_ext. intros j. rewrite !map_map.
    rewrite <- sumq_scale. f_equal. apply map_ext. intros i. apply nth_scale. }
  unfold Jnp.reduce_group. destruct average; [|exact E].
  rewrite E, !map_map. apply map_ext. intros x. unfold Qcdiv. ring.
Qed.

Lemma shape0_madd (A B : matrix) : shape A = shape B -> shape0 (madd A B) = shape0 A.
Proof.
  intros H. injection H as H0 _. unfold shape0 in *. unfold madd. cbn [arows].
  rewrite length_map, length_combine. lia.
Qed.

Lemma row_madd (A B : matrix) (i : nat) :
  shape A = shape B -> row (madd A B) i = Jnp.vadd (row A i) (row B i).
Proof.
  intros H. injection H as H0 H1. unfold shape0, shape1 in *.
  unfold row, madd. cbn [arows acols].
  rewrite <- (vadd_zeros (acols A)).
  change (Jnp.vadd (repeat 0%Qc (acols A)) (repeat 0%Qc (acols A)))
    with ((fun p : list Qc * list Qc => Jnp.vadd (fst p) (snd p))
            (repeat 0%Qc (acols A), repeat 0%Qc (acols A))).
  rewrite map_nth, combine_nth by exact H0. cbn [fst snd].
  rewrite vadd_zeros, H1. reflexivity.
Qed.

Lemma row_mscale (c : Qc) (A : matrix) (i : nat) :
  row (mscale c A) i = map (Qcmult c) (row A i).
Proof.
  unfold row, mscale. cbn [arows acols].
  rewrite <- (scale_zeros c (acols A)) at 1. apply map_nth.
Qed.

Lemma block_rows_madd (average : bool) (A B : matrix) (blk : block) :
  wf A -> wf B -> shape A = shape B ->
  block_rows average (madd A B) blk =
  map (fun p => Jnp.vadd (fst p) (snd p))
      (combine (block_rows average A blk) (block_rows average B blk)).
Proof.
  intros HA HB H. unfold block_rows. rewrite (shape0_madd H).
  assert (H1 : shape1 B = shape1 A) by (injection H as _ H1; symmetry; exact H1).
  assert (H0 : shape0 B = shape0 A) by (injection H as H0 _; symmetry; exact H0).
  change (shape1 (madd A B)) with (shape1 A). rewrite H1, H0.
  destruct (Nat.eqb (shape1 blk) 0).
  - rewrite combine_repeat, map_repeat. cbn [fst snd]. rewrite vadd_zeros. reflexivity.
  - rewrite combine_maps, map_map. apply map_ext. intros g. cbn [fst snd].
    rewrite <- reduce_group_add.
    + f_equal. apply map_ext. intros i. apply row_madd, H.
    + intros i. apply row_length, HA.
    + intros i. rewrite <- H1. apply row_length, HB.
Qed.

Lemma block_rows_mscale (average : bool) (c : Qc) (A : matrix) (blk : block) :
  wf A ->
  block_rows average (mscale c A) blk = map (map (Qcmult c)) (block_rows average A blk).
Proof.
  intros HA. unfold block_rows.
  change (shape1 (mscale c A)) with (shape1 A).
  assert (H0 : shape0 (mscale c A) = shape0 A).
  { unfold shape0, mscale. cbn [arows]. apply length_map. }
  rewrite H0. destruct (Nat.eqb (shape1 blk) 0).
  - rewrite map_repeat, scale_zeros. reflexivity.
  - rewrite map_map. apply map_ext. intros g.
    rewrite <- reduce_group_scale by (intros i; apply row_length, HA).
    f_equal. apply map_ext. intros i. apply row_mscale.
Qed.

Lemma combine_concat_blocks {A : Type} (F G : A -> list (list Qc)) (l : list A)
  (h : list Qc * list Qc -> list Qc) :
  (forall x, length (F x) = length (G x)) ->
  map h (combine (concat (map F l)) (concat (map G l))) =
  concat (map (fun x => map h (combine (F x) (G x))) l).
Proof.
  intros Hlen. induction l as [|x l IH]; [reflexivity|].
  cbn [map concat]. rewrite combine_app by apply Hlen.
  rewrite map_app, IH. reflexivity.
Qed.

(** X6: application of a [SparseReduce] is linear in the matrix, summing
    or averaging, whatever the index blocks are (an input row may be named
    twice, and the matrix may be longer than [max_idx + 1] rows).  If
    application returns on two matrices of one shape, then on their sum it
    returns the sum of the two results, and on a multiple of a matrix it
    returns the multiple of the result. *)
Theorem SparseReduce_matmul_linear (idcs : list block) (average : bool) (max_idx : Z)
  (A B outA outB : matrix) (c : Qc) :
  Forall wf idcs -> wf A -> wf B -> shape A = shape B ->
  SparseReduce.__matmul__ idcs average max_idx (AnArray A) = Ok (AnArray outA) ->
  SparseReduce.__matmul__ idcs average max_idx (AnArray B) = Ok (AnArray outB) ->
  SparseReduce.__matmul__ idcs average max_idx (AnArray (madd A B)) =
    Ok (AnArray (madd outA outB)) /\
  SparseReduce.__matmul__ idcs average max_idx (AnArray (mscale c A)) =
    Ok (AnArray (mscale c outA)).
Proof.
  intros Hwf HA HB H EA EB.
  destruct (SparseReduce_matmul_ok_inv _ _ _ _ EA) as (HlenA & Hne & HcolsA).
  destruct (SparseReduce_matmul_ok_inv _ _ _ _ EB) as (HlenB & _ & HcolsB).
  rewrite SparseReduce_matmul_rows in EA by assumption. injection EA as <-.
  rewrite SparseReduce_matmul_rows in EB by assumption. injection EB as <-.
  split.
  - rewrite SparseReduce_matmul_rows; try assumption.
    + do 2 f_equal.
      assert (E : concat (map (block_rows average (madd A B)) idcs) =
                  map (fun p => Jnp.vadd (fst p) (snd p))
                      (combine (concat (map (block_rows average A) idcs))
                               (concat (map (block_rows average B) idcs)))).
      { rewrite combine_concat_blocks
          by (intros blk; rewrite !block_rows_length; reflexivity).
        f_equal. apply map_ext. intros blk. apply block_rows_madd; assumption. }
      rewrite E. reflexivity.
    + unfold len. rewrite (shape0_madd H). exact HlenA.
    + revert HcolsA. apply Forall_impl.
      intros blk [Hk|[Hc Hr]]; [left; exact Hk|right].
      split; [exact Hc|]. rewrite (shape0_madd H). exact Hr.
  - rewrite SparseReduce_matmul_rows; try assumption.
    + do 2 f_equal.
      assert (E : concat (map (block_rows average (mscale c A)) idcs) =
                  map (map (Qcmult c)) (concat (map (block_rows average A) idcs))).
      { rewrite concat_map, map_map. f_equal. apply map_ext. intros blk.
        apply block_rows_mscale, HA. }
      rewrite E. reflexivity.
    + unfold len, shape0, mscale. cbn [arows]. rewrite length_map. exact HlenA.
    + revert HcolsA. apply Forall_impl.
      intros blk [Hk|[Hc Hr]]; [left; exact Hk|right].
      split; [exact Hc|]. unfold shape0, mscale. cbn [arows]. rewrite length_map.
      exact Hr.
Qed.

Lemma SparseReduce_matmul_linear_witness :
  SparseReduce.__matmul__ idcs_twice false 1 (AnArray (madd m_col12 m_col57)) =
    Ok (AnArray (madd (of_ints [[4]]%Z 1) (of_ints [[17]]%Z 1))) /\
  SparseReduce.__matmul__ idcs_twice false 1 (AnArray (mscale (of_Z 3) m_col12)) =
    Ok (AnArray (mscale (of_Z 3) (of_ints [[4]]%Z 1))).
Proof.
  apply (@SparseReduce_matmul_linear idcs_twice false 1 m_col12 m_col57
           (of_ints [[4]]%Z 1) (of_ints [[17]]%Z 1) (of_Z 3)).
  - repeat constructor.
  - repeat constructor.
  - repeat constructor.
  - reflexivity.
  - eval_sparse_matmul.
  - eval_sparse_matmul.
Defined.

(** ** [sum_from_block_example] *)

(** *** The start and stop indices *)

Lemma collect_fold {A : Type} (l : list (list A)) (acc : list (nat * nat)) (t : nat) :
  fold_left (fun st arr =>
               let arr_len := length arr in
               (fst st ++ [(snd st, arr_len + snd st)], snd st + arr_len))
            l (acc, t) =
  (acc ++ segments t (map (@length A) l), t + list_sum (map (@length A) l)).
Proof.
  revert acc t. induction l as [|arr l IH]; intros acc t.
  - simpl. rewrite app_nil_r, Nat.add_0_r. reflexivity.
  - cbn [fold_left map segments fst snd]. rewrite IH.
    rewrite <- app_assoc. cbn [app].
    replace (t + length arr) with (length arr + t) by lia.
    f_equal. simpl. lia.
Qed.

Lemma collect_segments {A : Type} (l : list (list A)) :
  SparseReduce.collect_block_start_stop l = segments 0 (map (@length A) l).
Proof.
  unfold SparseReduce.collect_block_start_stop. rewrite collect_fold. reflexivity.
Qed.

Lemma last_stop_cons (p q : nat * nat) (l : list (nat * nat)) :
  SparseReduce.last_stop (p :: q :: l) = SparseReduce.last_stop (q :: l).
Proof.
  unfold SparseReduce.last_stop. cbn [rev].
  destruct (rev l ++ [q]) as [|x xs] eqn:E; [|reflexivity].
  destruct (rev l); discriminate E.
Qed.

Lemma last_stop_segments (s : nat) (lens : list nat) :
  lens <> [] -> SparseReduce.last_stop (segments s lens) = Ok (s + list_sum lens).
Proof.
  revert s. induction lens as [|n lens IH]; intros s H; [contradiction|].
  destruct lens as [|n' lens'].
  - cbn. f_equal. lia.
  - transitivity (SparseReduce.last_stop (segments (n + s) (n' :: lens'))).
    + cbn [segments]. apply last_stop_cons.
    + rewrite IH by discriminate.
      change (list_sum (n :: n' :: lens')) with (n + list_sum (n' :: lens')).
      f_equal. lia.
Qed.

Lemma segments_bounds (s : nat) (lens : list nat) :
  Forall (fun p => s <= fst p /\ fst p <= snd p /\ snd p <= s + list_sum lens)
         (segments s lens).
Proof.
  revert s. induction lens as [|n lens IH]; intros s; [constructor|].
  cbn [segments]. change (list_sum (n :: lens)) with (n + list_sum lens).
  constructor; [cbn [fst snd]; lia|].
  specialize (IH (n + s)). revert IH. apply Forall_impl. intros p. lia.
Qed.

Lemma segments_lengths (s : nat) (lens : list nat) :
  map (fun p => snd p - fst p) (segments s lens) = lens.
Proof.
  revert s. induction lens as [|n lens IH]; intros s; [reflexivity|].
  cbn [segments map fst snd]. rewrite IH. f_equal. lia.
Qed.

Lemma segments_length (s : nat) (lens : list nat) :
  length (segments s lens) = length lens.
Proof.
  rewrite <- (segments_lengths s lens) at 2. symmetry. apply length_map.
Qed.

Lemma segments_arange (s : nat) (lens : list nat) :
  concat (map (fun p => Jnp.arange2 (fst p) (snd p)) (segments s lens)) =
  map Z.of_nat (seq s (list_sum lens)).
Proof.
  revert s. induction lens as [|n lens IH]; intros s; [reflexivity|].
  cbn [segments map concat fst snd]. rewrite IH.
  change (list_sum (n :: lens)) with (n + list_sum lens).
  unfold Jnp.arange2. rewrite <- map_app. f_equal.
  replace (n + s - s) with n by lia.
  rewrite seq_app. f_equal. f_equal. lia.
Qed.

(** *** Reading a run of consecutive rows *)

Lemma skipn_cons_nth {A : Type} (d : A) (l : list A) (s : nat) :
  s < length l -> skipn s l = nth s l d :: skipn (S s) l.
Proof.
  revert s. induction l as [|x l IH]; intros s H; [simpl in H; lia|].
  destruct s; [reflexivity|]. simpl in H. cbn [skipn nth].
  rewrite (IH s) by lia. reflexivity.
Qed.

Lemma nth_seq_window {A : Type} (d : A) (l : list A) (s k : nat) :
  s + k <= length l ->
  map (fun j => nth j l d) (seq s k) = firstn k (skipn s l).
Proof.
  revert s. induction k as [|k IH]; intros s H; [reflexivity|].
  cbn [seq map]. rewrite (skipn_cons_nth d) by lia. cbn [firstn].
  rewrite IH by lia. reflexivity.
Qed.

Lemma rows_window (M : matrix) (s e : nat) :
  s <= e -> e <= shape0 M ->
  map (fun i => row M (Jnp.read_index (shape0 M) i)) (Jnp.arange2 s e) =
  firstn (e - s) (skipn s (arows M)).
Proof.
  intros Hse He. unfold Jnp.arange2. rewrite map_map.
  rewrite <- (nth_seq_window (repeat 0%Qc (acols M))) by (unfold shape0 in He; lia).
  apply map_ext_in. intros j Hj. apply in_seq in Hj.
  rewrite read_index_in_range by lia. rewrite Nat2Z.id. reflexivity.
Qed.

Lemma block_rows_segment (mean : bool) (M : matrix) (s e : nat) :
  s <= e -> e <= shape0 M ->
  block_rows mean M (mk2 [Jnp.arange2 s e] (e - s)) =
  [rows_value mean (shape1 M) (firstn (e - s) (skipn s (arows M)))].
Proof.
  intros Hse He. unfold block_rows, rows_value.
  cbn [shape1 acols arows map].
  rewrite length_firstn, length_skipn.
  replace (Nat.min (e - s) (length (arows M) - s)) with (e - s)
    by (unfold shape0 in He; lia).
  destruct (Nat.eqb (e - s) 0); [reflexivity|].
  rewrite rows_window by assumption. reflexivity.
Qed.

Lemma concat_map_singleton {A B : Type} (f : A -> B) (l : list A) :
  concat (map (fun x => [f x]) l) = map f l.
Proof. induction l as [|x l IH]; [reflexivity|]. simpl. rewrite IH. reflexivity. Qed.


(** *** The reduction built, and its application *)

Lemma sum_from_block_example_ok {A : Type} (l : list (list A)) (mean : bool) :
  l <> [] ->
  SparseReduce.sum_from_block_example l mean =
  Ok (SparseReduce
        (map (fun p => mk2 [Jnp.arange2 (fst p) (snd p)] (snd p - fst p))
             (segments 0 (map (@length A) l)))
        mean (Z.of_nat (length (concat l)) - 1)).
Proof.
  intros Hne.
  assert (Hlens : map (@length A) l <> []) by (destruct l; [contradiction|discriminate]).
  unfold SparseReduce.sum_from_block_example, SparseReduce.reduce_blocks.
  rewrite collect_segments, (last_stop_segments 0 Hlens). cbn [bind].
  unfold SparseReduce.__post_init__. rewrite length_concat. reflexivity.
Qed.

Lemma segment_blocks_wf (s : nat) (lens : list nat) :
  Forall (@wf Z)
    (map (fun p => mk2 [Jnp.arange2 (fst p) (snd p)] (snd p - fst p)) (segments s lens)).
Proof.
  apply Forall_map, Forall_forall. intros p _. unfold wf. cbn [arows acols].
  constructor; [|constructor].
  unfold Jnp.arange2. rewrite length_map, length_seq. reflexivity.
Qed.

Lemma segment_blocks_matmul (mean : bool) (M : matrix) (lens : list nat) (max_idx : Z) :
  lens <> [] -> shape1 M <> 0 -> list_sum lens <= shape0 M ->
  (max_idx + 1 <= Z.of_nat (shape0 M))%Z ->
  SparseReduce.__matmul__
    (map (fun p => mk2 [Jnp.arange2 (fst p) (snd p)] (snd p - fst p)) (segments 0 lens))
    mean max_idx (AnArray M) =
  Ok (AnArray
        (mk2 (map (fun p => rows_value mean (shape1 M)
                              (firstn (snd p - fst p) (skipn (fst p) (arows M))))
                  (segments 0 lens))
             (shape1 M))).
Proof.
  intros Hne Hc Hsum Hmax.
  rewrite SparseReduce_matmul_rows.
  - do 3 f_equal. rewrite map_map.
    rewrite <- (concat_map_singleton
                  (fun p => rows_value mean (shape1 M)
                              (firstn (snd p - fst p) (skipn (fst p) (arows M))))
                  (segments 0 lens)).
    f_equal. apply map_ext_in. intros p Hp.
    pose proof (segments_bounds 0 lens) as Hb. rewrite Forall_forall in Hb.
    specialize (Hb p Hp). apply block_rows_segment; lia.
  - exact Hmax.
  - destruct lens; [contradiction|discriminate].
  - apply segment_blocks_wf.
  - apply Forall_map, Forall_forall. intros p Hp.
    pose proof (segments_bounds 0 lens) as Hb. rewrite Forall_forall in Hb.
    specialize (Hb p Hp). unfold gather_ok, shape1 at 1. cbn [acols].
    destruct (Nat.eq_dec (snd p - fst p) 0) as [E|E]; [left; exact E|right].
    split; [exact Hc|lia].
Qed.

(** X7: the reduction [sum_from_block_example] builds.  An empty example
    list raises.  For a non-empty list the reduction has one index block
    per element, a single row with as many indices as the element has
    entries; read block after block the indices are [0, 1, ..., N - 1],
    where [N] is the total number of entries, and [max_idx] is [N - 1]. *)
Theorem sum_from_block_example_partition {A : Type} (l : list (list A)) (mean : bool) :
  (l = [] -> SparseReduce.sum_from_block_example l mean = Raise IndexError) /\
  (l <> [] ->
   exists idcs,
     SparseReduce.sum_from_block_example l mean =
       Ok (SparseReduce idcs mean (Z.of_nat (length (concat l)) - 1)) /\
     map (@shape Z) idcs = map (fun arr => (1, length arr)) l /\
     Forall (@wf Z) idcs /\
     concat (map (@ravel Z) idcs) = Jnp.arange (Z.of_nat (length (concat l)))).
Proof.
  split; [intros ->; reflexivity|].
  intros Hne. eexists. split; [apply (sum_from_block_example_ok mean Hne)|].
  split; [|split].
  - rewrite map_map. unfold shape, shape0, shape1. cbn [arows acols length].
    rewrite <- (map_map (fun p => snd p - fst p) (fun n => (1, n))).
    rewrite segments_lengths. apply map_map.
  - apply segment_blocks_wf.
  - rewrite map_map. unfold ravel. cbn [arows concat].
    unfold Jnp.arange. rewrite Nat2Z.id, length_concat, <- segments_arange.
    f_equal. apply map_ext. intros p. apply app_nil_r.
Qed.

Lemma sum_from_block_example_partition_witness :
  exists idcs,
    SparseReduce.sum_from_block_example [[1; 2; 3]; [4; 5; 6; 7]; [8; 9]] true =
      Ok (SparseReduce idcs true 8) /\
    map (@shape Z) idcs = [(1, 3); (1, 4); (1, 2)] /\
    concat (map (@ravel Z) idcs) = Jnp.arange 9.
Proof.
  destruct (@sum_from_block_example_partition nat [[1; 2; 3]; [4; 5; 6; 7]; [8; 9]] true)
    as [_ H].
  destruct (H ltac:(discriminate)) as [idcs (H1 & H2 & _ & H4)].
  exists idcs. split; [exact H1|]. split; [exact H2|exact H4].
Defined.



(** X9: for a reduction built by [sum_from_block_example], [new_len]
    is the row count of what application returns.  On a matrix with at
    least as many rows as the examples have entries (and a column),
    application returns a matrix with one row per element of the example
    list, and [new_len] returns that number; on a shorter matrix both
    raise. *)
Theorem sum_from_block_example_new_len {A : Type} (l : list (list A)) (mean : bool)
  (M : matrix) :
  l <> [] -> shape1 M <> 0 ->
  exists idcs max_idx,
    SparseReduce.sum_from_block_example l mean = Ok (SparseReduce idcs mean max_idx) /\
    (length (concat l) <= shape0 M ->
     exists out,
       SparseReduce.__matmul__ idcs mean max_idx (AnArray M) = Ok (AnArray out) /\
       shape0 out = length l /\
       SparseReduce.new_len idcs max_idx (Z.of_nat (shape0 M)) =
         Ok (Z.of_nat (shape0 out))) /\
    (shape0 M < length (concat l) ->
     is_ok (SparseReduce.__matmul__ idcs mean max_idx (AnArray M)) = false /\
     is_ok (SparseReduce.new_len idcs max_idx (Z.of_nat (shape0 M))) = false).
Proof.
  intros Hne Hc. do 2 eexists.
  split; [apply (sum_from_block_example_ok mean Hne)|]. split.
  - intros Hlen. eexists. split.
    + apply segment_blocks_matmul.
      * destruct l; [contradiction|discriminate].
      * exact Hc.
      * rewrite <- length_concat. exact Hlen.
      * lia.
    + unfold shape0 at 1 3. cbn [arows].
      rewrite !length_map.
      assert (E : length (segments 0 (map (@length A) l)) = length l).
      { rewrite segments_length. apply length_map. }
      rewrite E. split; [reflexivity|].
      unfold SparseReduce.new_len.
      destruct (Z.leb_spec (Z.of_nat (length (concat l)) - 1 + 1) (Z.of_nat (shape0 M)));
        [|lia].
      rewrite length_map, E. reflexivity.
  - intros Hlt. unfold SparseReduce.__matmul__, SparseReduce.new_len, len.
    destruct (Z.gtb_spec (Z.of_nat (length (concat l)) - 1 + 1) (Z.of_nat (shape0 M)));
      [|lia].
    destruct (Z.leb_spec (Z.of_nat (length (concat l)) - 1 + 1) (Z.of_nat (shape0 M)));
      [lia|].
    split; reflexivity.
Qed.

Lemma sum_from_block_example_new_len_witness :
  exists idcs max_idx out,
    SparseReduce.sum_from_block_example [[1; 2]; [3]] true =
      Ok (SparseReduce idcs true max_idx) /\
    SparseReduce.__matmul__ idcs true max_idx (AnArray m_3x3) = Ok (AnArray out) /\
    shape0 out = 2 /\
    SparseReduce.new_len idcs max_idx (Z.of_nat (shape0 m_3x3)) =
      Ok (Z.of_nat (shape0 out)).
Proof.
  destruct (@sum_from_block_example_new_len nat [[1; 2]; [3]] true m_3x3)
    as (idcs & max_idx & H1 & H2 & _); [discriminate|discriminate|].
  destruct H2 as (out & H3 & H4 & H5); [cbn; lia|].
  exists idcs, max_idx, out. repeat split; assumption.
Defined.

Lemma NoDup_map_of_nat (l : list nat) : NoDup l -> NoDup (map Z.of_nat l).
Proof.
  induction 1 as [|x l Hx Hl IH]; [constructor|].
  cbn [map]. constructor; [|exact IH].
  intros Hin. apply in_map_iff in Hin as (y & Hy & Hin).
  apply Nat2Z.inj in Hy. subst y. contradiction.
Qed.

Lemma segment_blocks_ok (n : nat) (lens : list nat) :
  list_sum lens <= n ->
  Forall (block_ok n)
    (map (fun p => mk2 [Jnp.arange2 (fst p) (snd p)] (snd p - fst p)) (segments 0 lens)).
Proof.
  intros Hn. pose proof (segment_blocks_wf 0 lens) as Hwf.
  rewrite Forall_map, Forall_forall in *. intros p Hp.
  split; [apply Hwf, Hp|]. cbn [arows].
  pose proof (segments_bounds 0 lens) as Hb. rewrite Forall_forall in Hb.
  specialize (Hb p Hp). constructor; [|constructor]. split.
  - apply NoDup_map_of_nat, seq_NoDup.
  - unfold Jnp.arange2. apply Forall_map, Forall_forall. intros j Hj.
    apply in_seq in Hj. lia.
Qed.

(** X10: for a reduction built by [sum_from_block_example], [linmap]
    agrees with application.  On a matrix whose row count is the total
    number of entries of the examples, application returns, [linmap]
    returns a matrix for the shape of that matrix, and multiplying the
    matrix by it from the left gives what application returns. *)
Theorem sum_from_block_example_linmap {A : Type} (l : list (list A)) (mean : bool)
  (M : matrix) :
  l <> [] -> wf M -> shape1 M <> 0 -> shape0 M = length (concat l) ->
  exists idcs max_idx L out,
    SparseReduce.sum_from_block_example l mean = Ok (SparseReduce idcs mean max_idx) /\
    SparseReduce.__matmul__ idcs mean max_idx (AnArray M) = Ok (AnArray out) /\
    SparseReduce.linmap idcs mean max_idx (shape M) 0 = Ok L /\
    Jnp.matmul L M = Ok out.
Proof.
  intros Hne Hwf Hc Hn.
  assert (Hlens : map (@length A) l <> []) by (destruct l; [contradiction|discriminate]).
  assert (Hsum : list_sum (map (@length A) l) <= shape0 M)
    by (rewrite <- length_concat; lia).
  assert (Hmax : (Z.of_nat (length (concat l)) - 1 + 1 <= Z.of_nat (shape0 M))%Z) by lia.
  pose proof (@segment_blocks_matmul mean M _ _ Hlens Hc Hsum Hmax) as Hm.
  match type of Hm with
  | SparseReduce.__matmul__ ?i _ ?m _ = _ =>
      assert (Hag : linmap_agrees (SparseReduce i mean m) M)
  end.
  { apply SparseReduce_linmap_agrees;
      [exact Hwf|lia|apply segment_blocks_ok; exact Hsum]. }
  destruct (Hag _ Hm) as (L & HL & HLM).
  do 4 eexists. split; [apply (sum_from_block_example_ok mean Hne)|].
  split; [exact Hm|]. split; [exact HL|exact HLM].
Qed.

Lemma sum_from_block_example_linmap_witness :
  exists idcs max_idx L out,
    SparseReduce.sum_from_block_example [[1; 2]; [3]] true =
      Ok (SparseReduce idcs true max_idx) /\
    SparseReduce.__matmul__ idcs true max_idx (AnArray m_3x3) = Ok (AnArray out) /\
    SparseReduce.linmap idcs true max_idx (shape m_3x3) 0 = Ok L /\
    Jnp.matmul L m_3x3 = Ok out.
Proof.
  apply (@sum_from_block_example_linmap nat [[1; 2]; [3]] true m_3x3).
  - discriminate.
  - repeat constructor.
  - discriminate.
  - reflexivity.
Defined.

(** ** [Kmer] *)

(** *** Rows written by scattering a weight *)

Lemma nth_set_nth_same (l : list Qc) (i : nat) (v : Qc) :
  i < length l -> nth i (Jnp.set_nth l i (fun _ => v)) 0%Qc = v.
Proof.
  revert i. induction l as [|x l IH]; intros i H; [simpl in H; lia|].
  destruct i; [reflexivity|]. simpl in H. cbn [Jnp.set_nth nth]. apply IH. lia.
Qed.

Lemma set_col_length (n : nat) (rw : list Qc) (c : Z) (v : Qc) :
  length (set_col n rw c v) = length rw.
Proof.
  unfold set_col. destruct (_ && _)%bool; [apply set_nth_length|reflexivity].
Qed.

Lemma fold_set_col_length (n : nat) (g : list Z) (v : Qc) (rw : list Qc) :
  length (fold_left (fun rw c => set_col n rw c v) g rw) = length rw.
Proof.
  revert rw. induction g as [|c g IH]; intros rw; [reflexivity|].
  cbn [fold_left]. rewrite IH. apply set_col_length.
Qed.

Lemma fold_set_col_nth (n : nat) (g : list Z) (v : Qc) (rw : list Qc) (j : nat) :
  length rw = n -> j < n ->
  Forall (fun c => (0 <= c < Z.of_nat n)%Z) g ->
  nth j (fold_left (fun rw c => set_col n rw c v) g rw) 0%Qc =
  if existsb (Z.eqb (Z.of_nat j)) g then v else nth j rw 0%Qc.
Proof.
  intros Hlen Hj Hg. revert rw Hlen.
  induction Hg as [|c g Hc Hg IH]; intros rw Hlen; [reflexivity|].
  cbn [fold_left existsb].
  rewrite IH by (rewrite set_col_length; exact Hlen).
  destruct (existsb (Z.eqb (Z.of_nat j)) g); [rewrite orb_true_r; reflexivity|].
  rewrite orb_false_r. rewrite set_col_in_range by exact Hc.
  destruct (Z.eqb_spec (Z.of_nat j) c) as [E|E].
  - subst c. rewrite Nat2Z.id. apply nth_set_nth_same. lia.
  - apply nth_set_nth_other. intros E'. apply E. subst j. rewrite Z2Nat.id; lia.
Qed.

Lemma existsb_window (i k j : nat) :
  existsb (Z.eqb (Z.of_nat j)) (map Z.of_nat (seq i k)) =
  (Nat.leb i j && Nat.ltb j (i + k))%bool.
Proof.
  apply Bool.eq_true_iff_eq.
  rewrite existsb_exists, andb_true_iff, Nat.leb_le, Nat.ltb_lt. split.
  - intros (c & Hin & Hc). apply in_map_iff in Hin as (j' & <- & Hin).
    apply in_seq in Hin. apply Z.eqb_eq, Nat2Z.inj in Hc. lia.
  - intros H. exists (Z.of_nat j). split; [|apply Z.eqb_refl].
    apply in_map, in_seq. lia.
Qed.

Lemma nth_map_seq {A : Type} (f : nat -> A) (d : A) (s n j : nat) :
  j < n -> nth j (map f (seq s n)) d = f (s + j).
Proof.
  intros H. rewrite (nth_indep _ d (f 0)) by (rewrite length_map, length_seq; exact H).
  rewrite map_nth, seq_nth by exact H. reflexivity.
Qed.

Lemma scatter_window (w : Qc) (n k i : nat) :
  i + k <= n ->
  fold_left (fun rw c => set_col n rw c w) (map Z.of_nat (seq i k)) (repeat 0%Qc n) =
  kmer_row w n k i.
Proof.
  intros Hik. apply (nth_ext _ _ 0%Qc 0%Qc).
  - rewrite fold_set_col_length, repeat_length. unfold kmer_row.
    rewrite length_map, length_seq. reflexivity.
  - rewrite fold_set_col_length, repeat_length. intros j Hj.
    rewrite fold_set_col_nth; [|apply repeat_length|exact Hj|].
    + rewrite existsb_window, nth_repeat. unfold kmer_row.
      rewrite nth_map_seq by exact Hj. reflexivity.
    + apply Forall_map, Forall_forall. intros j' Hj'. apply in_seq in Hj'. lia.
Qed.

(** *** The loop that writes the binary matrix *)

Lemma fold_left_map_arg {A B C : Type} (f : A -> C -> A) (h : B -> C) (l : list B) (a : A) :
  fold_left f (map h l) a = fold_left (fun a x => f a (h x)) l a.
Proof. revert a. induction l as [|x l IH]; intros a; [reflexivity|]. simpl. apply IH. Qed.

Lemma at_set_slice_row (rows : list (list Qc)) (n r lo hi : nat) (v : Qc) :
  Jnp.at_set_slice (mk2 rows n) r lo hi v =
  mk2 (Jnp.set_nth rows r
         (fun rw => fold_left (fun rw c => set_col n rw c v)
                              (map Z.of_nat (seq lo (hi - lo))) rw)) n.
Proof.
  unfold Jnp.at_set_slice.
  rewrite <- (scatter_group rows n r (map Z.of_nat (seq lo (hi - lo))) v).
  rewrite map_map, fold_left_map_arg. reflexivity.
Qed.

Lemma kmer_loop (n k r s : nat) (pre : list (list Qc)) :
  length pre = s -> s + r + k <= S n ->
  fold_left (fun A i => Jnp.at_set_slice A i i (i + k) 1%Qc) (seq s r)
            (mk2 (pre ++ repeat (repeat 0%Qc n) r) n) =
  mk2 (pre ++ map (kmer_row 1%Qc n k) (seq s r)) n.
Proof.
  revert s pre. induction r as [|r IH]; intros s pre Hpre Hn; [reflexivity|].
  subst s. cbn [seq fold_left repeat map]. rewrite at_set_slice_row.
  replace (length pre + k - length pre) with k by lia.
  rewrite set_nth_app, scatter_window by lia.
  replace (pre ++ kmer_row 1%Qc n k (length pre) :: repeat (repeat 0%Qc n) r)
    with ((pre ++ [kmer_row 1%Qc n k (length pre)]) ++ repeat (repeat 0%Qc n) r)
    by (rewrite <- app_assoc; reflexivity).
  rewrite IH by (rewrite ?length_app; simpl; lia).
  rewrite <- app_assoc. reflexivity.
Qed.

Lemma kmer_row_map (f : Qc -> Qc) (w : Qc) (n k i : nat) :
  f 0%Qc = 0%Qc -> map f (kmer_row w n k i) = kmer_row (f w) n k i.
Proof.
  intros H0. unfold kmer_row. rewrite map_map. apply map_ext. intros j.
  destruct (_ && _)%bool; [reflexivity|exact H0].
Qed.

Lemma Kmer_guard (k seq_length : Z) :
  ((seq_length <? k) || (k <=? 1) || (seq_length <=? 1))%Z = false <->
  (2 <= k <= seq_length)%Z.
Proof.
  rewrite !orb_false_iff, Z.ltb_ge, !Z.leb_gt. lia.
Qed.

Lemma Kmer_binary (k seq_length : Z) (average : bool) :
  (2 <= k <= seq_length)%Z ->
  Kmer k seq_length average "binary" =
  Ok (KBinary (mk2 (map (kmer_row (kmer_weight average k) (Z.to_nat seq_length)
                                  (Z.to_nat k))
                        (seq 0 (Z.to_nat (seq_length - k + 1))))
                   (Z.to_nat seq_length))).
Proof.
  intros H. unfold Kmer. rewrite (proj2 (Kmer_guard k seq_length) H).
  change (String.eqb "binary" "linear") with false.
  change (String.eqb "binary" "binary") with true. cbn [orb].
  unfold zeros.
  assert (E : 0 + Z.to_nat (seq_length - k + 1) + Z.to_nat k <= S (Z.to_nat seq_length))
    by lia.
  apply (@kmer_loop (Z.to_nat seq_length) (Z.to_nat k) _ 0 [] eq_refl) in E.
  cbn [app] in E. rewrite E. unfold kmer_weight. destruct average; [|reflexivity].
  unfold Jnp.true_divide. cbn [arows acols]. do 3 f_equal.
  rewrite map_map. apply map_ext. intros i.
  rewrite kmer_row_map by (unfold Qcdiv; ring). reflexivity.
Qed.

Lemma Kmer_linear (k seq_length : Z) (average : bool) (A : matrix) :
  Kmer k seq_length average "binary" = Ok (KBinary A) ->
  Kmer k seq_length average "linear" = Ok (KReduce (LinearReduce A)).
Proof.
  unfold Kmer. destruct (_ || _ || _)%bool; [discriminate|].
  change (String.eqb "binary" "linear") with false.
  change (String.eqb "binary" "binary") with true.
  change (String.eqb "linear" "linear") with true.
  change (String.eqb "linear" "binary") with false. cbn [orb].
  intros E. injection E as <-. reflexivity.
Qed.

(** *** The index matrix *)

Lemma seq_of_nat_shift (i k : nat) :
  map (fun b => (Z.of_nat i + b)%Z) (map Z.of_nat (seq 0 k)) = map Z.of_nat (seq i k).
Proof.
  rewrite map_map.
  assert (E : forall s, map (fun j => (Z.of_nat i + Z.of_nat j)%Z) (seq s k) =
                        map Z.of_nat (seq (i + s) k)).
  { induction k as [|k IH]; intros s; [reflexivity|].
    cbn [seq map]. rewrite IH. f_equal; [lia|]. do 2 f_equal. lia. }
  rewrite E, Nat.add_0_r. reflexivity.
Qed.

Lemma index_rows (rows k : Z) :
  arows (Jnp.outer_add (Jnp.arange rows) (Jnp.arange k)) =
  map (fun i => map Z.of_nat (seq i (Z.to_nat k))) (seq 0 (Z.to_nat rows)).
Proof.
  unfold Jnp.outer_add, Jnp.arange. cbn [arows]. rewrite map_map.
  apply map_ext. intros i. apply seq_of_nat_shift.
Qed.

Lemma index_wf (rows k : Z) : wf (Jnp.outer_add (Jnp.arange rows) (Jnp.arange k)).
Proof.
  unfold wf, Jnp.outer_add. cbn [arows acols]. apply Forall_map, Forall_forall.
  intros a _. apply length_map.
Qed.

Lemma index_shape1 (rows k : Z) :
  shape1 (Jnp.outer_add (Jnp.arange rows) (Jnp.arange k)) = Z.to_nat k.
Proof.
  unfold shape1, Jnp.outer_add, Jnp.arange. cbn [acols].
  rewrite length_map, length_seq. reflexivity.
Qed.

Lemma index_entries (rows k c : Z) :
  In c (ravel (Jnp.outer_add (Jnp.arange rows) (Jnp.arange k))) <->
  exists i j, i < Z.to_nat rows /\ j < Z.to_nat k /\ c = Z.of_nat (i + j).
Proof.
  unfold ravel. rewrite index_rows, in_concat. split.
  - intros (r & Hr & Hc). apply in_map_iff in Hr as (i & <- & Hi).
    apply in_map_iff in Hc as (j & <- & Hj). apply in_seq in Hi, Hj.
    exists i, (j - i). repeat split; lia.
  - intros (i & j & Hi & Hj & ->). exists (map Z.of_nat (seq i (Z.to_nat k))). split.
    + apply in_map_iff. exists i. split; [reflexivity|apply in_seq; lia].
    + apply in_map, in_seq. lia.
Qed.

Lemma Kmer_post_init (k seq_length : Z) (average : bool) :
  (2 <= k <= seq_length)%Z ->
  SparseReduce.__post_init__
    [Jnp.outer_add (Jnp.arange (seq_length - k + 1)) (Jnp.arange k)] average None =
  Ok (SparseReduce [Jnp.outer_add (Jnp.arange (seq_length - k + 1)) (Jnp.arange k)]
                   average (seq_length - 1)).
Proof.
  intros H.
  set (index := Jnp.outer_add (Jnp.arange (seq_length - k + 1)) (Jnp.arange k)).
  assert (Hwf : Forall wf [index]) by (constructor; [apply index_wf|constructor]).
  assert (Hcat : concat (map (@ravel Z) [index]) = ravel index)
    by (cbn [map concat]; apply app_nil_r).
  assert (Hlast : In (seq_length - 1)%Z (ravel index)).
  { apply index_entries. exists (Z.to_nat (seq_length - k)), (Z.to_nat (k - 1)).
    repeat split; lia. }
  destruct (post_init_infer average Hwf) as [_ Hinf].
  destruct Hinf as (m & Hm & Hin & Hub).
  { rewrite Hcat. intros E. rewrite E in Hlast. destruct Hlast. }
  rewrite Hm. do 2 f_equal. rewrite Hcat in Hin, Hub.
  rewrite Forall_forall in Hub. specialize (Hub _ Hlast).
  apply index_entries in Hin as (i & j & Hi & Hj & ->). lia.
Qed.

Lemma Kmer_index (k seq_length : Z) (average : bool) :
  (2 <= k <= seq_length)%Z ->
  Kmer k seq_length average "index" =
  Ok (KIndex (Jnp.outer_add (Jnp.arange (seq_length - k + 1)) (Jnp.arange k))).
Proof.
  intros H. unfold Kmer. rewrite (proj2 (Kmer_guard k seq_length) H). reflexivity.
Qed.

Lemma Kmer_sparse (k seq_length : Z) (average : bool) :
  (2 <= k <= seq_length)%Z ->
  Kmer k seq_length average "sparse" =
  Ok (KReduce (SparseReduce
                 [Jnp.outer_add (Jnp.arange (seq_length - k + 1)) (Jnp.arange k)]
                 average (seq_length - 1))).
Proof.
  intros H. unfold Kmer. rewrite (proj2 (Kmer_guard k seq_length) H).
  change (String.eqb "sparse" "linear") with false.
  change (String.eqb "sparse" "binary") with false.
  change (String.eqb "sparse" "sparse") with true.
  change (String.eqb "sparse" "index") with false. cbn [orb].
  rewrite (Kmer_post_init average H). reflexivity.
Qed.

(** X11: when [Kmer] returns.  It raises exactly when [k < 2] or
    [seq_length < k] (a sequence of length [k] is accepted), whatever the
    output format; and for valid lengths it returns [None], without an
    error, exactly for an output format other than the four it knows. *)
Theorem Kmer_returns_iff (k seq_length : Z) (average : bool) (output_format : string) :
  (is_ok (Kmer k seq_length average output_format) = true <->
   (2 <= k <= seq_length)%Z) /\
  ((2 <= k <= seq_length)%Z ->
   (Kmer k seq_length average output_format = Ok KNone <->
    ~ In output_format kmer_formats)).
Proof.
  assert (Hfmt : forall s, In s kmer_formats <->
            (String.eqb s "linear" || String.eqb s "binary")%bool = true \/
            (String.eqb s "sparse" || String.eqb s "index")%bool = true).
  { intros s. unfold kmer_formats. cbn [In].
    rewrite !orb_true_iff, !String.eqb_eq. intuition congruence. }
  split.
  - split.
    + intros Hok. apply Kmer_guard. unfold Kmer in Hok.
      destruct (_ || _ || _)%bool; [discriminate Hok|reflexivity].
    + intros H. pose proof (Kmer_post_init average H) as Hp.
      unfold Kmer. rewrite (proj2 (Kmer_guard k seq_length) H).
      destruct (_ || _)%bool.
      { destruct (String.eqb output_format "binary"); reflexivity. }
      destruct (_ || _)%bool; [|reflexivity].
      destruct (String.eqb output_format "index"); [reflexivity|].
      rewrite Hp. reflexivity.
  - intros H. pose proof (Kmer_post_init average H) as Hp.
    rewrite Hfmt. unfold Kmer. rewrite (proj2 (Kmer_guard k seq_length) H).
    destruct (String.eqb output_format "linear" || String.eqb output_format "binary")%bool.
    { split; [|intros Hn; exfalso; apply Hn; left; reflexivity].
      destruct (String.eqb output_format "binary"); discriminate. }
    destruct (String.eqb output_format "sparse" || String.eqb output_format "index")%bool.
    { split; [|intros Hn; exfalso; apply Hn; right; reflexivity].
      destruct (String.eqb output_format "index"); [discriminate|].
      rewrite Hp. discriminate. }
    split; [|reflexivity]. intros _ [E|E]; discriminate E.
Qed.

Lemma Kmer_returns_iff_witness :
  Kmer 3 3 true "matrix" = Ok KNone <-> ~ In "matrix"%string kmer_formats.
Proof.
  apply (proj2 (Kmer_returns_iff 3 3 true "matrix")). lia.
Defined.

(** X12: the binary [k]-mer matrix.  For [2 <= k <= seq_length], [Kmer]
    with the format "binary" returns the matrix of
    [seq_length - k + 1] rows and [seq_length] columns whose row [i] holds
    the weight at the columns [i], ..., [i + k - 1] and zero elsewhere; the
    weight is [1 / k] when averaging and 1 otherwise.  With the format
    "linear" it returns the [LinearReduce] of that matrix. *)
Theorem Kmer_binary_matrix (k seq_length : Z) (average : bool) :
  (2 <= k <= seq_length)%Z ->
  exists A,
    Kmer k seq_length average "binary" = Ok (KBinary A) /\
    Kmer k seq_length average "linear" = Ok (KReduce (LinearReduce A)) /\
    wf A /\
    shape A = (Z.to_nat (seq_length - k + 1), Z.to_nat seq_length) /\
    forall i j, i < shape0 A -> j < shape1 A ->
      nth j (nth i (arows A) []) 0%Qc =
      if (Nat.leb i j && Nat.ltb j (i + Z.to_nat k))%bool
      then kmer_weight average k else 0%Qc.
Proof.
  intros H. pose proof (Kmer_binary average H) as Hb.
  eexists. split; [exact Hb|]. split; [apply (Kmer_linear _ _ _ Hb)|].
  unfold wf, shape, shape0, shape1. cbn [arows acols].
  rewrite length_map, length_seq. split; [|split; [reflexivity|]].
  - apply Forall_map, Forall_forall. intros i _. unfold kmer_row.
    rewrite length_map, length_seq. reflexivity.
  - intros i j Hi Hj.
    rewrite nth_map_seq by exact Hi. unfold kmer_row.
    rewrite nth_map_seq by exact Hj. reflexivity.
Qed.

Lemma Kmer_binary_matrix_witness :
  exists A,
    Kmer 3 5 true "binary" = Ok (KBinary A) /\
    Kmer 3 5 true "linear" = Ok (KReduce (LinearReduce A)) /\
    wf A /\ shape A = (3, 5).
Proof.
  destruct (@Kmer_binary_matrix 3 5 true ltac:(lia)) as [A (H1 & H2 & H3 & H4 & _)].
  exists A. split; [exact H1|]. split; [exact H2|]. split; [exact H3|exact H4].
Defined.

(** X13: the index matrix and the sparse reduction.  For
    [2 <= k <= seq_length], [Kmer] with the format "index" returns the
    matrix of [seq_length - k + 1] rows and [k] columns whose entry
    [(i, j)] is [i + j], and with the format "sparse" it returns the
    [SparseReduce] of that single index block, whose inferred [max_idx] is
    [seq_length - 1]. *)
Theorem Kmer_index_matrix (k seq_length : Z) (average : bool) :
  (2 <= k <= seq_length)%Z ->
  exists index,
    Kmer k seq_length average "index" = Ok (KIndex index) /\
    Kmer k seq_length average "sparse" =
      Ok (KReduce (SparseReduce [index] average (seq_length - 1))) /\
    wf index /\
    shape index = (Z.to_nat (seq_length - k + 1), Z.to_nat k) /\
    forall i j, i < shape0 index -> j < shape1 index ->
      nth j (nth i (arows index) []) 0%Z = Z.of_nat (i + j).
Proof.
  intros H. eexists. split; [apply (Kmer_index average H)|].
  split; [apply (Kmer_sparse average H)|]. split; [apply index_wf|].
  unfold shape, shape0. rewrite index_shape1, index_rows, length_map, length_seq.
  split; [reflexivity|]. intros i j Hi Hj.
  rewrite nth_map_seq by exact Hi. cbn [Nat.add].
  rewrite nth_map_seq by exact Hj. reflexivity.
Qed.

Lemma Kmer_index_matrix_witness :
  exists index,
    Kmer 3 5 false "index" = Ok (KIndex index) /\
    Kmer 3 5 false "sparse" = Ok (KReduce (SparseReduce [index] false (5 - 1))) /\
    shape index = (3, 3).
Proof.
  destruct (@Kmer_index_matrix 3 5 false ltac:(lia)) as [index (H1 & H2 & _ & H4 & _)].
  exists index. split; [exact H1|]. split; [exact H2|exact H4].
Defined.

(** *** The sparse [k]-mer reduction against the binary matrix *)

Lemma kmer_weight_eq (average : bool) (k : Z) :
  (0 <= k)%Z -> SparseReduce.weight average (Z.to_nat k) = kmer_weight average k.
Proof.
  intros Hk. unfold SparseReduce.weight, kmer_weight, Jnp.Qc_of_nat.
  rewrite Z2Nat.id by exact Hk. reflexivity.
Qed.

Lemma Kmer_linmap (k seq_length : Z) (average : bool) (c : nat) :
  (2 <= k <= seq_length)%Z ->
  SparseReduce.linmap
    [Jnp.outer_add (Jnp.arange (seq_length - k + 1)) (Jnp.arange k)]
    average (seq_length - 1) (Z.to_nat seq_length, c) 0 =
  Ok (mk2 (map (kmer_row (kmer_weight average k) (Z.to_nat seq_length) (Z.to_nat k))
               (seq 0 (Z.to_nat (seq_length - k + 1))))
          (Z.to_nat seq_length)).
Proof.
  intros H. rewrite SparseReduce_linmap_rows.
  - cbn [fst map concat]. rewrite app_nil_r. do 2 f_equal.
    unfold lin_block_rows. rewrite index_shape1.
    destruct (Nat.eqb_spec (Z.to_nat k) 0) as [?|_]; [lia|].
    rewrite index_rows, map_map. apply map_ext_in. intros i Hi. apply in_seq in Hi.
    rewrite kmer_weight_eq by lia. apply scatter_window. lia.
  - constructor; [apply index_wf|constructor].
  - cbn [fst]. lia.
Qed.

Lemma Kmer_sparse_matmul (k seq_length : Z) (average : bool) (M : matrix) :
  (2 <= k <= seq_length)%Z -> shape1 M <> 0 -> Z.to_nat seq_length <= shape0 M ->
  SparseReduce.__matmul__
    [Jnp.outer_add (Jnp.arange (seq_length - k + 1)) (Jnp.arange k)]
    average (seq_length - 1) (AnArray M) =
  Ok (AnArray
        (mk2 (map (fun i => Jnp.reduce_group average (shape1 M) (Z.to_nat k)
                              (firstn (Z.to_nat k) (skipn i (arows M))))
                  (seq 0 (Z.to_nat (seq_length - k + 1))))
             (shape1 M))).
Proof.
  intros H Hc Hn. rewrite SparseReduce_matmul_rows.
  - cbn [map concat]. rewrite app_nil_r. do 3 f_equal.
    unfold block_rows. rewrite index_shape1.
    destruct (Nat.eqb_spec (Z.to_nat k) 0) as [?|_]; [lia|].
    rewrite index_rows, map_map. apply map_ext_in. intros i Hi. apply in_seq in Hi.
    pose proof (@rows_window M i (i + Z.to_nat k) ltac:(lia) ltac:(lia)) as E.
    unfold Jnp.arange2 in E.
    replace (i + Z.to_nat k - i) with (Z.to_nat k) in E by lia.
    rewrite E. reflexivity.
  - unfold len. lia.
  - discriminate.
  - constructor; [apply index_wf|constructor].
  - constructor; [right; split; [exact Hc|lia]|constructor].
Qed.

Lemma index_block_ok (k seq_length : Z) (n : nat) :
  (2 <= k <= seq_length)%Z -> Z.to_nat seq_length <= n ->
  block_ok n (Jnp.outer_add (Jnp.arange (seq_length - k + 1)) (Jnp.arange k)).
Proof.
  intros H Hn. split; [apply index_wf|].
  rewrite index_rows. apply Forall_map, Forall_forall. intros i Hi. apply in_seq in Hi.
  split.
  - apply NoDup_map_of_nat, seq_NoDup.
  - apply Forall_map, Forall_forall. intros j Hj. apply in_seq in Hj. lia.
Qed.

(** X14: the sparse and the binary format of [Kmer] describe one linear
    map.  For [2 <= k <= seq_length], the [linmap] of the reduction
    returned for the format "sparse", asked for an input of [seq_length]
    rows, is the matrix returned for the format "binary", summing or
    averaging. *)
Theorem Kmer_sparse_linmap_is_binary (k seq_length : Z) (average : bool) (c : nat) :
  (2 <= k <= seq_length)%Z ->
  exists idcs max_idx A,
    Kmer k seq_length average "sparse" =
      Ok (KReduce (SparseReduce idcs average max_idx)) /\
    Kmer k seq_length average "binary" = Ok (KBinary A) /\
    SparseReduce.linmap idcs average max_idx (Z.to_nat seq_length, c) 0 = Ok A.
Proof.
  intros H. do 3 eexists. split; [apply (Kmer_sparse average H)|].
  split; [apply (Kmer_binary average H)|]. apply (Kmer_linmap average c H).
Qed.

Lemma Kmer_sparse_linmap_is_binary_witness :
  exists idcs max_idx A,
    Kmer 3 5 true "sparse" = Ok (KReduce (SparseReduce idcs true max_idx)) /\
    Kmer 3 5 true "binary" = Ok (KBinary A) /\
    SparseReduce.linmap idcs true max_idx (Z.to_nat 5, 1) 0 = Ok A.
Proof. apply (@Kmer_sparse_linmap_is_binary 3 5 true 1). lia. Defined.



(** X16: multiplying by the binary [k]-mer matrix is applying the sparse
    [k]-mer reduction.  For [2 <= k <= seq_length] and a matrix of exactly
    [seq_length] rows (and a column), the product of the matrix returned
    for the format "binary" with that matrix is what the reduction returned
    for the format "sparse" gives on it. *)
Theorem Kmer_binary_matmul_is_sparse (k seq_length : Z) (average : bool) (M : matrix) :
  (2 <= k <= seq_length)%Z -> wf M -> shape1 M <> 0 ->
  shape0 M = Z.to_nat seq_length ->
  exists A idcs max_idx out,
    Kmer k seq_length average "binary" = Ok (KBinary A) /\
    Kmer k seq_length average "sparse" =
      Ok (KReduce (SparseReduce idcs average max_idx)) /\
    SparseReduce.__matmul__ idcs average max_idx (AnArray M) = Ok (AnArray out) /\
    Jnp.matmul A M = Ok out.
Proof.
  intros H Hwf Hc Hn.
  pose proof (@Kmer_sparse_matmul k seq_length average M H Hc ltac:(lia)) as Hm.
  match type of Hm with
  | SparseReduce.__matmul__ ?i _ ?m _ = _ =>
      assert (Hag : linmap_agrees (SparseReduce i average m) M)
  end.
  { apply SparseReduce_linmap_agrees; [exact Hwf|lia|].
    constructor; [|constructor]. apply (index_block_ok H). lia. }
  destruct (Hag _ Hm) as (L & HL & HLM).
  unfold Base.linmap, shape in HL. rewrite Hn in HL.
  rewrite (Kmer_linmap average _ H) in HL. injection HL as <-.
  do 4 eexists. split; [apply (Kmer_binary average H)|].
  split; [apply (Kmer_sparse average H)|]. split; [exact Hm|exact HLM].
Qed.

Lemma Kmer_binary_matmul_is_sparse_witness :
  exists A idcs max_idx out,
    Kmer 2 3 true "binary" = Ok (KBinary A) /\
    Kmer 2 3 true "sparse" = Ok (KReduce (SparseReduce idcs true max_idx)) /\
    SparseReduce.__matmul__ idcs true max_idx (AnArray m_3x3) = Ok (AnArray out) /\
    Jnp.matmul A m_3x3 = Ok out.
Proof.
  apply (@Kmer_binary_matmul_is_sparse 2 3 true m_3x3).
  - lia.
  - repeat constructor.
  - discriminate.
  - reflexivity.
Defined.

(** ** Further properties of [sum_from_unique] *)

Lemma in_argwhere (input : list Qc) (u : Qc) (x : Z) :
  In x (Unique.argwhere_eq input u) <->
  exists j, j < length input /\ x = Z.of_nat j /\ nth j input 0%Qc = u.
Proof.
  unfold Unique.argwhere_eq. rewrite in_map_iff. split.
  - intros (j & <- & Hj). apply filter_In in Hj as [Hj Hu].
    apply in_seq in Hj. apply Qc_eq_bool_true in Hu.
    exists j. repeat split; [lia|exact Hu].
  - intros (j & Hj & -> & Hu). exists j. split; [reflexivity|].
    apply filter_In. split; [apply in_seq; lia|].
    apply Qc_eq_bool_true. exact Hu.
Qed.

Lemma NoDup_argwhere (input : list Qc) (u : Qc) : NoDup (Unique.argwhere_eq input u).
Proof.
  unfold Unique.argwhere_eq. apply NoDup_map_of_nat, NoDup_filter, seq_NoDup.
Qed.

Lemma NoDup_concat_disjoint {A B : Type} (f : A -> list B) (us : list A) :
  NoDup us -> (forall u, NoDup (f u)) ->
  (forall u u' x, In x (f u) -> In x (f u') -> u = u') ->
  NoDup (concat (map f us)).
Proof.
  intros Hus Hf Hdis. induction Hus as [|u us Hu Hus IH]; [constructor|].
  cbn [map concat]. apply NoDup_app; [apply Hf|exact IH|].
  intros x Hx Hin. apply in_concat in Hin as (l & Hl & Hxl).
  apply in_map_iff in Hl as (u' & <- & Hu').
  rewrite (Hdis u u' x Hx Hxl) in Hu. contradiction.
Qed.

(** The positions of all values, value after value, are the positions of
    the input, each once. *)
Lemma argwhere_partition (input us : list Qc) :
  NoDup us -> (forall u, In u us <-> In u input) ->
  Permutation (concat (map (Unique.argwhere_eq input) us))
              (map Z.of_nat (seq 0 (length input))).
Proof.
  intros Hus Hmem. apply NoDup_Permutation.
  - apply NoDup_concat_disjoint; [exact Hus|apply NoDup_argwhere|].
    intros u u' x Hx Hx'.
    apply in_argwhere in Hx as (j & _ & -> & <-).
    apply in_argwhere in Hx' as (j' & _ & E & <-).
    apply Nat2Z.inj in E. subst j'. reflexivity.
  - apply NoDup_map_of_nat, seq_NoDup.
  - intros x. rewrite in_concat, in_map_iff. split.
    + intros (l & Hl & Hx). apply in_map_iff in Hl as (u & <- & _).
      apply in_argwhere in Hx as (j & Hj & -> & _).
      exists j. split; [reflexivity|apply in_seq; lia].
    + intros (j & <- & Hj). apply in_seq in Hj.
      exists (Unique.argwhere_eq input (nth j input 0%Qc)). split.
      * apply in_map, Hmem, nth_In. lia.
      * apply in_argwhere. exists j. repeat split. lia.
Qed.

Lemma concat_map_ravel (el : list block) :
  concat (map (@ravel Z) el) = concat (concat (map (@arows Z) el)).
Proof.
  induction el as [|b el IH]; [reflexivity|].
  cbn [map concat]. rewrite concat_app, IH. reflexivity.
Qed.

Lemma sum_from_unique_structure (input : list Qc) (mean : bool) :
  input <> [] ->
  exists un_sorted cts_sorted idcs max_idx,
    SparseReduce.sum_from_unique input mean =
      Ok (un_sorted, cts_sorted, SparseReduce idcs mean max_idx) /\
    Permutation un_sorted (nodup Qc_eq_dec input) /\
    cts_sorted = map (count_occ Qc_eq_dec input) un_sorted /\
    idcs <> [] /\
    Forall (fun b => wf b /\ arows b <> [] /\ shape1 b <> 0) idcs /\
    concat (map (@arows Z) idcs) = map (Unique.argwhere_eq input) un_sorted /\
    In max_idx (concat (map (@ravel Z) idcs)) /\
    Forall (fun c => (c <= max_idx)%Z) (concat (map (@ravel Z) idcs)).
Proof.
  intros Hne. rewrite sum_from_unique_unfold.
  destruct (sum_from_unique_order input) as (Hperm & Hcts & _).
  destruct (unique_values input) as (_ & _ & _ & Hun).
  set (un := Unique.sort Unique.Qc_leb (nodup Qc_eq_dec input)) in *.
  set (order := Unique.argsort (map (fun u => length (Unique.argwhere_eq input u)) un)) in *.
  set (un_sorted := Unique.take 0%Qc un order) in *.
  assert (Hus : forall u, In u un_sorted -> In u input).
  { intros u Hu. apply (Permutation_in _ Hperm) in Hu. apply nodup_In in Hu. exact Hu. }
  assert (Hlen : length un_sorted = length un).
  { unfold un_sorted, Unique.take. rewrite length_map. unfold order.
    rewrite argsort_length, length_map. reflexivity. }
  destruct (@blocks_of_ok (map (Unique.argwhere_eq input) un_sorted))
    as (el & Hel & Hel_ne & Hel_ok & Hel_rows).
  { intros E. apply map_eq_nil in E. apply Hun; [exact Hne|].
    apply length_zero_iff_nil. rewrite <- Hlen, E. reflexivity. }
  { apply Forall_map, Forall_forall. intros u Hu E.
    apply (@matching_nonempty input u (Hus u Hu)).
    apply length_zero_iff_nil. rewrite <- argwhere_length, E. reflexivity. }
  rewrite Hel. cbn [bind].
  assert (Hwf : Forall wf el).
  { revert Hel_ok. apply Forall_impl. intros b (H & _). exact H. }
  destruct (post_init_infer mean Hwf) as [_ Hinf].
  destruct Hinf as (m & Hm & Hin & Hub).
  { destruct el as [|b el']; [contradiction|].
    inversion Hel_ok as [|? ? (Hb & Hr & Hk) _]; subst.
    cbn [map concat]. unfold ravel at 1.
    destruct (arows b) as [|r rs] eqn:E; [contradiction|].
    unfold wf in Hb. rewrite E in Hb. inversion Hb as [|? ? Hlr _]; subst.
    destruct r; [unfold shape1 in Hk; simpl in Hlr; lia|discriminate]. }
  rewrite Hm. cbn [bind].
  exists un_sorted, (Unique.take 0 (map (count_occ Qc_eq_dec input) un) order), el, m.
  repeat split; assumption.
Qed.

Lemma sum_from_unique_partition_aux (input : list Qc) (mean : bool) :
  input <> [] ->
  exists un cts idcs max_idx,
    SparseReduce.sum_from_unique input mean =
      Ok (un, cts, SparseReduce idcs mean max_idx) /\
    concat (map (@arows Z) idcs) = map (Unique.argwhere_eq input) un /\
    max_idx = (Z.of_nat (length input) - 1)%Z /\
    idcs <> [] /\
    Forall (fun b => wf b /\ arows b <> [] /\ shape1 b <> 0) idcs /\
    Permutation (concat (map (@ravel Z) idcs)) (map Z.of_nat (seq 0 (length input))) /\
    cts = map (count_occ Qc_eq_dec input) un.
Proof.
  intros Hne.
  destruct (sum_from_unique_structure mean Hne)
    as (un & cts & idcs & max_idx & Hs & Hperm & Hcts & Hne' & Hok & Hrows & Hin & Hub).
  assert (Hpart : Permutation (concat (map (@ravel Z) idcs))
                              (map Z.of_nat (seq 0 (length input)))).
  { rewrite concat_map_ravel, Hrows. apply argwhere_partition.
    - apply (Permutation_NoDup (Permutation_sym Hperm)), NoDup_nodup.
    - intros u. split; intros Hu.
      + apply (Permutation_in _ Hperm) in Hu. apply nodup_In in Hu. exact Hu.
      + apply (Permutation_in _ (Permutation_sym Hperm)), nodup_In, Hu. }
  exists un, cts, idcs, max_idx. split; [exact Hs|]. split; [exact Hrows|].
  split; [|repeat split; assumption].
  assert (Hn : length input <> 0) by (destruct input; [contradiction|discriminate]).
  apply (Permutation_in _ Hpart) in Hin. apply in_map_iff in Hin as (j & <- & Hj).
  apply in_seq in Hj.
  assert (Hlast : In (Z.of_nat (length input - 1)) (concat (map (@ravel Z) idcs))).
  { apply (Permutation_in _ (Permutation_sym Hpart)), in_map, in_seq. lia. }
  rewrite Forall_forall in Hub. specialize (Hub _ Hlast). lia.
Qed.

(** X17: the index blocks [sum_from_unique] builds.  For a non-empty
    input, the index rows of the blocks, read in order, list for each
    returned unique value the positions of the input that hold it; every
    position of the input occurs in exactly one index row; the inferred
    [max_idx] is [len(input) - 1]; and the returned counts add up to
    [len(input)]. *)
Theorem sum_from_unique_partition (input : list Qc) (mean : bool) :
  input <> [] ->
  exists un cts idcs max_idx,
    SparseReduce.sum_from_unique input mean =
      Ok (un, cts, SparseReduce idcs mean max_idx) /\
    concat (map (@arows Z) idcs) = map (Unique.argwhere_eq input) un /\
    Permutation (concat (map (@ravel Z) idcs)) (Jnp.arange (Z.of_nat (length input))) /\
    max_idx = (Z.of_nat (length input) - 1)%Z /\
    list_sum cts = length input.
Proof.
  intros Hne.
  destruct (sum_from_unique_partition_aux mean Hne)
    as (un & cts & idcs & max_idx & Hs & Hrows & Hmax & _ & _ & Hpart & Hcts).
  exists un, cts, idcs, max_idx. split; [exact Hs|]. split; [exact Hrows|].
  split; [unfold Jnp.arange; rewrite Nat2Z.id; exact Hpart|]. split; [exact Hmax|].
  apply Permutation_length in Hpart.
  rewrite concat_map_ravel, Hrows, length_concat, !map_map, length_map, length_seq
    in Hpart.
  rewrite Hcts, <- Hpart. f_equal. apply map_ext. intros u.
  rewrite argwhere_length. symmetry. apply matching_count.
Qed.

Lemma sum_from_unique_partition_witness :
  exists un cts idcs max_idx,
    SparseReduce.sum_from_unique input_5152517 false =
      Ok (un, cts, SparseReduce idcs false max_idx) /\
    Permutation (concat (map (@ravel Z) idcs))
                (Jnp.arange (Z.of_nat (length input_5152517))) /\
    max_idx = (Z.of_nat (length input_5152517) - 1)%Z /\
    list_sum cts = length input_5152517.
Proof.
  destruct (@sum_from_unique_partition input_5152517 false ltac:(discriminate))
    as (un & cts & idcs & max_idx & H1 & _ & H3 & H4 & H5).
  exists un, cts, idcs, max_idx.
  split; [exact H1|]. split; [exact H3|]. split; [exact H4|exact H5].
Defined.

(** X18: [sum_from_unique] returns exactly on a non-empty input; on the
    empty input it raises, since no [max_idx] can be inferred. *)
Theorem sum_from_unique_returns_iff (input : list Qc) (mean : bool) :
  is_ok (SparseReduce.sum_from_unique input mean) = true <-> input <> [].
Proof.
  split.
  - intros Hok ->. destruct mean; discriminate Hok.
  - intros Hne.
    destruct (sum_from_unique_structure mean Hne) as (un & cts & idcs & m & Hs & _).
    rewrite Hs. reflexivity.
Qed.

(** X19: for a reduction built by [sum_from_unique], [linmap] agrees with
    application.  On a matrix with as many rows as the input has entries
    (and a column), application returns, [linmap] returns a matrix for the
    shape of that matrix, and multiplying the matrix by it from the left
    gives what application returns. *)
Theorem sum_from_unique_linmap (input : list Qc) (mean : bool) (M : matrix) :
  input <> [] -> wf M -> shape1 M <> 0 -> shape0 M = length input ->
  exists un cts idcs max_idx L out,
    SparseReduce.sum_from_unique input mean =
      Ok (un, cts, SparseReduce idcs mean max_idx) /\
    SparseReduce.__matmul__ idcs mean max_idx (AnArray M) = Ok (AnArray out) /\
    SparseReduce.linmap idcs mean max_idx (shape M) 0 = Ok L /\
    Jnp.matmul L M = Ok out.
Proof.
  intros Hne Hwf Hc Hn.
  destruct (sum_from_unique_partition_aux mean Hne)
    as (un & cts & idcs & max_idx & Hs & Hrows & Hmax & Hne' & Hok & _).
  assert (Hwfs : Forall wf idcs).
  { revert Hok. apply Forall_impl. intros b (H & _). exact H. }
  assert (Hm : SparseReduce.__matmul__ idcs mean max_idx (AnArray M) =
               Ok (AnArray (mk2 (concat (map (block_rows mean M) idcs)) (shape1 M)))).
  { apply SparseReduce_matmul_rows; try assumption.
    - unfold len. lia.
    - apply Forall_forall. intros b _. right. split; [exact Hc|].
      rewrite Hn. intros E. apply length_zero_iff_nil in E. contradiction. }
  assert (Hag : linmap_agrees (SparseReduce idcs mean max_idx) M).
  { apply SparseReduce_linmap_agrees; [exact Hwf|lia|].
    apply Forall_forall. intros b Hb. rewrite Forall_forall in Hwfs.
    split; [apply Hwfs, Hb|]. apply Forall_forall. intros g Hg.
    assert (Hg' : In g (concat (map (@arows Z) idcs))).
    { apply in_concat. exists (arows b). split; [apply in_map, Hb|exact Hg]. }
    rewrite Hrows in Hg'. apply in_map_iff in Hg' as (u & <- & _).
    split; [apply NoDup_argwhere|]. rewrite Hn. apply argwhere_range. }
  destruct (Hag _ Hm) as (L & HL & HLM).
  exists un, cts, idcs, max_idx, L. eexists.
  split; [exact Hs|]. split; [exact Hm|]. split; [exact HL|exact HLM].
Qed.

Lemma sum_from_unique_linmap_witness :
  exists un cts idcs max_idx L out,
    SparseReduce.sum_from_unique (map of_Z [5; 1; 5]%Z) true =
      Ok (un, cts, SparseReduce idcs true max_idx) /\
    SparseReduce.__matmul__ idcs true max_idx (AnArray m_3x3) = Ok (AnArray out) /\
    SparseReduce.linmap idcs true max_idx (shape m_3x3) 0 = Ok L /\
    Jnp.matmul L m_3x3 = Ok out.
Proof.
  apply (@sum_from_unique_linmap (map of_Z [5; 1; 5]%Z) true m_3x3).
  - discriminate.
  - repeat constructor.
  - discriminate.
  - reflexivity.
Defined.

(** ** Further properties of RKHS vectors *)

Section RkhsMore.

Variable Kernel : Type.
Variable kernel_eqb : Kernel -> Kernel -> bool.
Variable cross_covariance :
  Kernel -> Rkhs.InspPts Kernel -> Rkhs.InspPts Kernel -> result matrix.

Local Abbreviation RkhsVec := (Rkhs.RkhsVec Kernel).
Local Abbreviation matmul := (Rkhs.__matmul__ kernel_eqb cross_covariance).



(** X21: transposing an RKHS vector.  [T] keeps the kernel and the
    reduction and flips the orientation, and it returns a plain [RkhsVec]
    over the inspection points of the vector; so on a plain [RkhsVec]
    transposing twice gives the vector back, while the transpose of a
    [CombinationVec] is no [CombinationVec]. *)
Theorem RkhsVec_T_twice (v t : RkhsVec) :
  Rkhs.T v = Ok t ->
  Rkhs.is_rowvec t = Rkhs.is_colvec v /\
  Rkhs.is_colvec t = Rkhs.is_rowvec v /\
  Rkhs.k t = Rkhs.k v /\ Rkhs.reduce t = Rkhs.reduce v /\
  Rkhs.insp_pts v = Rkhs.insp_pts t /\
  (forall vs op r kk tr n, t <> Rkhs.CombinationVec vs op r kk tr n) /\
  (forall ip kk r tr, v = Rkhs.Vec ip kk r tr -> Rkhs.T t = Ok v).
Proof.
  unfold Rkhs.T. destruct (Rkhs.insp_pts v) as [ip|e] eqn:Hip; cbn [bind]; [|discriminate].
  intros E. injection E as <-.
  unfold Rkhs.is_rowvec, Rkhs.is_colvec. cbn [Rkhs.transpose Rkhs.k Rkhs.reduce Rkhs.insp_pts].
  rewrite negb_involutive.
  repeat split; try discriminate.
  intros ip' kk r tr ->. cbn in Hip. injection Hip as <-.
  cbn [bind Rkhs.k Rkhs.reduce Rkhs.transpose]. rewrite ?negb_involutive. reflexivity.
Qed.

End RkhsMore.


Lemma RkhsVec_T_twice_witness :
  Rkhs.T Toy.row_a = Ok Toy.col_a /\ Rkhs.T Toy.col_a = Ok Toy.row_a.
Proof.
  assert (H : Rkhs.T Toy.col_a = Ok Toy.row_a) by reflexivity.
  split; [|exact H].
  apply (@RkhsVec_T_twice Toy.Kernel Toy.col_a Toy.row_a H) with
    (ip := Rkhs.Atoms Toy.Kernel m_col12) (kk := 0) (r := Identity) (tr := false).
  reflexivity.
Defined.

(** ** Row counts and row sums of [SparseReduce] *)

Lemma length_concat_map (A B : Type) (f : A -> list B) (g : A -> nat) (l : list A) :
  (forall a, length (f a) = g a) ->
  length (concat (map f l)) = list_sum (map g l).
Proof.
  intros H. induction l as [|a l IH]; [reflexivity|].
  cbn [map concat]. rewrite length_app, H, IH. reflexivity.
Qed.

Lemma list_sum_ones (l : list nat) :
  Forall (fun x => x <> 0) l ->
  length l <= list_sum l /\ (length l = list_sum l <-> Forall (fun x => x = 1) l).
Proof.
  induction 1 as [|x l Hx Hl [IHle IHiff]].
  - split; [reflexivity|]. split; constructor.
  - change (list_sum (x :: l)) with (x + list_sum l). cbn [length].
    split; [lia|]. split.
    + intros E. constructor; [lia|]. apply IHiff. lia.
    + intros HF. inversion HF as [|? ? H1 H2]; subst.
      apply IHiff in H2. lia.
Qed.

Lemma dot_ones (r : list Qc) : Jnp.dot r (repeat 1%Qc (length r)) = sumq r.
Proof.
  induction r as [|x r IH]; [reflexivity|].
  cbn [length repeat]. rewrite dot_cons, IH. cbn [sumq fold_right].
  fold (sumq r). ring.
Qed.

Lemma scatter_row_sum (n : nat) (g : list Z) (v : Qc) :
  NoDup g -> Forall (fun c => (0 <= c < Z.of_nat n)%Z) g ->
  sumq (fold_left (fun rw c => set_col n rw c v) g (repeat 0%Qc n)) =
  (v * Jnp.Qc_of_nat (length g))%Qc.
Proof.
  intros Hnd Hr.
  rewrite <- dot_ones, fold_set_col_length, repeat_length.
  rewrite (@dot_scatter_row n g v (repeat 1%Qc n) (repeat 0%Qc n)).
  - rewrite dot_zeros.
    assert (E : map (fun c => nth (Z.to_nat c) (repeat 1%Qc n) 0%Qc) g =
                repeat 1%Qc (length g)).
    { clear Hnd. induction Hr as [|c g Hc Hg IH]; [reflexivity|].
      cbn [map length repeat]. rewrite IH. f_equal.
      rewrite (@nth_indep _ _ _ 0%Qc 1%Qc) by (rewrite repeat_length; lia).
      apply nth_repeat. }
    rewrite E, sumq_repeat. ring.
  - apply repeat_length.
  - exact Hnd.
  - exact Hr.
  - intros c _. apply nth_repeat.
Qed.

Lemma lin_block_row_sums (average : bool) (n : nat) (blk : block) :
  block_ok n blk ->
  map sumq (lin_block_rows average n blk) =
  repeat (row_weight_sum average blk) (shape0 blk).
Proof.
  intros [Hwf Hok]. unfold lin_block_rows, row_weight_sum.
  destruct (Nat.eqb_spec (shape1 blk) 0) as [E|Hk].
  - rewrite map_repeat. f_equal. rewrite sumq_repeat. ring.
  - unfold shape0. rewrite map_map.
    unfold wf in Hwf.
    induction (arows blk) as [|g rows IH]; [reflexivity|].
    inversion Hwf as [|? ? Hg Hrows]; subst.
    inversion Hok as [|? ? [Hnd Hr] Hok']; subst.
    cbn [map length repeat]. rewrite (IH Hrows Hok'). f_equal.
    rewrite (@scatter_row_sum n g _ Hnd Hr), Hg. fold (shape1 blk).
    rewrite weight_times by exact Hk. destruct average; [|reflexivity].
    field. apply Qc_of_nat_neq_0, Hk.
Qed.

(** X23: [new_len] against the rows [SparseReduce] returns.  When the
    application to a matrix returns, over index blocks that each have a
    row, [new_len] for that matrix returns the number of blocks, which is
    never more than the number of rows of the result and equals it exactly
    when every block has a single row. *)
Theorem SparseReduce_new_len_matches_iff (idcs : list block) (average : bool)
  (max_idx : Z) (inp out : matrix) :
  Forall (fun blk => wf blk /\ shape0 blk <> 0) idcs ->
  SparseReduce.__matmul__ idcs average max_idx (AnArray inp) = Ok (AnArray out) ->
  SparseReduce.new_len idcs max_idx (Z.of_nat (len inp)) = Ok (Z.of_nat (length idcs)) /\
  length idcs <= shape0 out /\
  (length idcs = shape0 out <-> Forall (fun blk => shape0 blk = 1) idcs).
Proof.
  intros Hblk Hm.
  destruct (SparseReduce_matmul_ok_inv _ _ _ _ Hm) as (Hlen & Hne & Hcols).
  assert (Hwf : Forall wf idcs).
  { eapply Forall_impl; [|exact Hblk]. intros b [H _]. exact H. }
  rewrite (@SparseReduce_matmul_rows idcs average max_idx inp Hlen Hne Hwf Hcols) in Hm.
  injection Hm as <-.
  split.
  - unfold SparseReduce.new_len.
    destruct (Z.leb_spec (max_idx + 1) (Z.of_nat (len inp))) as [_|?]; [reflexivity|lia].
  - assert (Hout : shape0 (mk2 (concat (map (block_rows average inp) idcs)) (shape1 inp)) =
                    list_sum (map (@shape0 Z) idcs)).
    { apply (@length_concat_map _ _ (block_rows average inp) (@shape0 Z) idcs
               (block_rows_length average inp)). }
    rewrite Hout.
    assert (Hnz : Forall (fun x => x <> 0) (map (@shape0 Z) idcs)).
    { apply Forall_map. eapply Forall_impl; [|exact Hblk]. intros b [_ H]. exact H. }
    destruct (list_sum_ones Hnz) as [Hle Hiff].
    rewrite length_map in Hle, Hiff. split; [exact Hle|].
    etransitivity; [exact Hiff|]. apply Forall_map.
Qed.

Lemma SparseReduce_new_len_matches_iff_witness :
  SparseReduce.new_len idcs_r3 2 (Z.of_nat (len m_3x3)) = Ok 1%Z /\
  ~ Forall (fun blk : block => shape0 blk = 1) idcs_r3.
Proof.
  assert (Hblk : Forall (fun blk : block => wf blk /\ shape0 blk <> 0) idcs_r3).
  { repeat constructor; discriminate. }
  destruct (SparseReduce.__matmul__ idcs_r3 true 2 (AnArray m_3x3)) as [[r|out]|e] eqn:Hm;
    try (vm_compute in Hm; discriminate).
  destruct (@SparseReduce_new_len_matches_iff idcs_r3 true 2 m_3x3 out Hblk Hm)
    as (H1 & _ & _).
  split; [exact H1|].
  intros HF. inversion HF as [|? ? H _]. discriminate H.
Defined.

(** X24: the rows of the matrix of [linmap] carry the weights of the
    reduction.  Over index blocks whose rows name distinct rows of the
    input, for an input of exactly [max_idx + 1] rows, [linmap] returns a
    matrix with one row per row of every block and one column per input
    row, and the entries of each row add up to one when averaging and to
    the number of columns of its block when summing (to zero for a block
    without columns). *)
Theorem SparseReduce_linmap_row_sums (idcs : list block) (average : bool)
  (max_idx : Z) (inp_shape : nat * nat) :
  Forall (block_ok (fst inp_shape)) idcs ->
  Z.of_nat (fst inp_shape) = (max_idx + 1)%Z ->
  exists L,
    SparseReduce.linmap idcs average max_idx inp_shape 0 = Ok L /\
    wf L /\
    shape L = (list_sum (map (@shape0 Z) idcs), fst inp_shape) /\
    map sumq (arows L) =
      concat (map (fun blk => repeat (row_weight_sum average blk) (shape0 blk)) idcs).
Proof.
  intros Hok Hn.
  assert (Hwf : Forall wf idcs).
  { eapply Forall_impl; [|exact Hok]. intros b [H _]. exact H. }
  eexists. split; [apply (@SparseReduce_linmap_rows idcs average max_idx inp_shape Hwf Hn)|].
  split; [|split].
  - unfold wf. cbn [arows acols]. apply Forall_concat, Forall_map.
    eapply Forall_impl; [|exact Hwf]. intros blk _. unfold lin_block_rows.
    destruct (Nat.eqb (shape1 blk) 0).
    + apply Forall_forall. intros r Hr. apply repeat_spec in Hr. subst r.
      apply repeat_length.
    + apply Forall_map, Forall_forall. intros g _.
      rewrite fold_set_col_length. apply repeat_length.
  - unfold shape, shape0 at 1, shape1. cbn [arows acols]. f_equal.
    apply length_concat_map. apply lin_block_rows_length.
  - cbn [arows]. rewrite concat_map, map_map.
    f_equal. apply map_ext_in. intros blk Hb.
    rewrite Forall_forall in Hok. apply lin_block_row_sums, Hok, Hb.
Qed.

Lemma SparseReduce_linmap_row_sums_witness :
  exists L,
    SparseReduce.linmap idcs_r3 true 2 (3, 3) 0 = Ok L /\
    map sumq (arows L) = [1%Qc; 1%Qc; 1%Qc; 1%Qc; 1%Qc].
Proof.
  destruct (@SparseReduce_linmap_row_sums idcs_r3 true 2 (3, 3))
    as (L & H1 & _ & _ & H2).
  - repeat constructor; cbn; try lia; intros H;
      repeat (destruct H as [H|H]; [discriminate H|]); exact H.
  - reflexivity.
  - exists L. split; [exact H1|]. rewrite H2. reflexivity.
Defined.
